(** * The scheduling and memory core of the inference runtime

    A shallow embedding of the C++ sources

    - [include/nex/core/async_types.hpp]   ([Result<T>], [Result<void>]),
    - [include/nex/core/memory_manager.hpp] ([ObjectPool<T>],
      [ManagedMemoryBlock<T>]),
    - [src/core/memory/memory_manager.cpp]  ([HighPerformanceAllocator::Impl],
      [GPUMemoryPool::Impl], [MemoryMapper], [MemoryManager]),
    - [include/nex/core/scheduler.hpp]      ([WorkStealingPool]),

    followed by the properties the specification states about them and by
    further properties of the memory subsystem.

    Conventions.  A [size_t] is a [Z] in [0, 2^64) and every arithmetic
    operation on it is wrapped by [wrap].  A [void*] is the [Z] of its
    address, [nullptr] being [0]; address arithmetic ([ptr + size]) is
    plain integer addition, within the arena it never leaves the address
    space.  A [double] is a binary64 [float].  A [std::vector] is a [list],
    read with [!!] and written with [<[ _ := _ ]>]; a [std::unordered_map]
    is a [gmap]; a [std::unique_ptr] is an [option].  A member function
    that can throw, or whose behaviour can be undefined, returns an
    [outcome].  What a call gets from the platform ([mmap], [open],
    [fstat], the CUDA runtime) is an argument of the function that makes
    the call.  A mutex is part of the state only where a member function
    calls another one while it holds the lock ([MemoryMapper]). *)

From Stdlib Require Import ZArith Lia ZifyNat.
From Stdlib Require Floats.PrimFloat Floats.SpecFloat Floats.FloatOps.
From stdpp Require Import base numbers option list gmap strings.

Local Open Scope Z_scope.

(* ================================================================== *)
(** * Part I: the program *)
(* ================================================================== *)

(** ** Outcomes of a call *)

Inductive exception : Type :=
  | runtime_error (what : string).

(** [Returns a]: normal return.  [Throws e]: a C++ exception leaves the
    call.  [Undefined]: the call has undefined behaviour (an access past
    the end of a vector, [*opt] on an empty optional, [pop] on an empty
    queue). *)
Inductive outcome (A : Type) : Type :=
  | Returns (a : A)
  | Throws (e : exception)
  | Undefined.
Arguments Returns {A} a.
Arguments Throws {A} e.
Arguments Undefined {A}.

(** Sequencing: the first call that throws or is undefined ends the run.
    Written [x ← m; k] below. *)
#[global] Instance outcome_bind : MBind outcome := fun A B k m =>
  match m with
  | Returns a => k a
  | Throws e => Throws e
  | Undefined => Undefined
  end.

(** [size_t] arithmetic: 64-bit, modular. *)
Definition wrap (z : Z) : Z := z mod 2 ^ 64.

Definition nullptr : Z := 0.

(* ------------------------------------------------------------------ *)
(** ** [hushell::core]: error codes and [Result<T>] (async_types.hpp) *)
(* ------------------------------------------------------------------ *)

Module Core.

Inductive ErrorCode : Type :=
  | SUCCESS
  | INVALID_ARGUMENT
  | RESOURCE_EXHAUSTED
  | INTERNAL_ERROR
  | PLATFORM_ERROR
  | NETWORK_ERROR
  | TIMEOUT_ERROR
  | MODEL_NOT_FOUND
  | INFERENCE_FAILED
  | GPU_ERROR
  | MEMORY_ERROR.

Definition error_code_to_string (code : ErrorCode) : string :=
  match code with
  | SUCCESS => "Success"
  | INVALID_ARGUMENT => "Invalid argument"
  | RESOURCE_EXHAUSTED => "Resource exhausted"
  | INTERNAL_ERROR => "Internal error"
  | PLATFORM_ERROR => "Platform error"
  | NETWORK_ERROR => "Network error"
  | TIMEOUT_ERROR => "Timeout error"
  | MODEL_NOT_FOUND => "Model not found"
  | INFERENCE_FAILED => "Inference failed"
  | GPU_ERROR => "GPU error"
  | MEMORY_ERROR => "Memory error"
  end.

(** [std::string::empty]. *)
Definition empty (s : string) : bool :=
  match s with
  | EmptyString => true
  | String _ _ => false
  end.

(** The three data members of [Result<T>]. *)
Record Result (T : Type) : Type := mkResult {
  value_ : option T;
  error_code_ : ErrorCode;
  error_message_ : string
}.
Arguments mkResult {T} _ _ _.
Arguments value_ {T} _.
Arguments error_code_ {T} _.
Arguments error_message_ {T} _.

Definition success {T : Type} (value : T) : Result T :=
  mkResult (Some value) SUCCESS "".

Definition error {T : Type} (code : ErrorCode) (message : string) : Result T :=
  let message := if empty message then error_code_to_string code else message in
  mkResult None code message.

(** [value_.has_value()]. *)
Definition has_value {T : Type} (o : option T) : bool :=
  match o with
  | Some _ => true
  | None => false
  end.

(** [*value_]: undefined on an empty optional. *)
Definition deref {T : Type} (o : option T) : outcome T :=
  match o with
  | Some v => Returns v
  | None => Undefined
  end.

Definition is_success {T : Type} (r : Result T) : bool := has_value (value_ r).

Definition is_error {T : Type} (r : Result T) : bool := negb (has_value (value_ r)).

Definition value {T : Type} (r : Result T) : outcome T :=
  if negb (is_success r)
  then Throws (runtime_error "Attempted to access value of failed Result")
  else deref (value_ r).

Definition error_code {T : Type} (r : Result T) : ErrorCode := error_code_ r.

Definition error_message {T : Type} (r : Result T) : string := error_message_ r.

(** [Result<T>::map]: [f] is a pure function of the success value. *)
Definition map {T U : Type} (r : Result T) (f : T -> U) : outcome (Result U) :=
  if is_error r
  then Returns (error (error_code_ r) (error_message_ r))
  else v ← value r; Returns (success (f v)).

(** [Result<T>::and_then] for an [f] that returns a [Result<U>]. *)
Definition and_then {T U : Type} (r : Result T) (f : T -> Result U) : outcome (Result U) :=
  if is_error r
  then Returns (error (error_code_ r) (error_message_ r))
  else v ← value r; Returns (f v).

Definition or_else {T : Type} (r : Result T) (f : ErrorCode -> string -> Result T) : Result T :=
  if is_success r then r else f (error_code_ r) (error_message_ r).

Definition value_or {T : Type} (r : Result T) (default_value : T) : outcome T :=
  if is_success r then value r else Returns default_value.

End Core.

(** ** [std::vector] primitives shared by the modules below *)

Definition push_back {A : Type} (c : list A) (x : A) : list A := c ++ [x].

Definition pop_back {A : Type} (c : list A) : list A := take (length c - 1)%nat c.

(** [c.size()], a [size_t]. *)
Definition vsize {A : Type} (c : list A) : Z := Z.of_nat (length c).

(* ------------------------------------------------------------------ *)
(** ** [hushell::core::memory] (memory_manager.hpp, memory_manager.cpp) *)
(* ------------------------------------------------------------------ *)

Module Memory.

(** *** [ObjectPool<T>] *)

Section ObjectPool.

Context {T : Type}.

(** [std::make_unique<T>()]: a default-constructed object. *)
Variable make_unique : T.

(** [obj->reset()] when [T] has such a member ([if constexpr (requires ...)]). *)
Variable reset_hook : option (T -> T).

Record ObjectPool : Type := mkObjectPool {
  pool_ : list T;
  max_size_ : Z;
  allocated_count_ : Z;
  acquired_count_ : Z;
  released_count_ : Z
}.

(** The constructor: [initial_size] objects are emplaced, whatever
    [max_size] is. *)
Definition ObjectPool_ctor (initial_size max_size : Z) : ObjectPool :=
  {| pool_ := Nat.iter (Z.to_nat initial_size) (fun pool => push_back pool make_unique) [];
     max_size_ := max_size;
     allocated_count_ := 0;
     acquired_count_ := 0;
     released_count_ := 0 |}.

Definition acquire (p : ObjectPool) : T * ObjectPool :=
  match last (pool_ p) with
  | Some obj =>
      (obj,
       {| pool_ := pop_back (pool_ p);
          max_size_ := max_size_ p;
          allocated_count_ := allocated_count_ p;
          acquired_count_ := wrap (acquired_count_ p + 1);
          released_count_ := released_count_ p |})
  | None =>
      (make_unique,
       {| pool_ := pool_ p;
          max_size_ := max_size_ p;
          allocated_count_ := wrap (allocated_count_ p + 1);
          acquired_count_ := acquired_count_ p;
          released_count_ := released_count_ p |})
  end.

(** [obj] is a [std::unique_ptr<T>]: [None] is the null pointer.  An
    object that is not put back is destroyed when the argument goes out
    of scope. *)
Definition release (p : ObjectPool) (obj : option T) : ObjectPool :=
  match obj with
  | None => p
  | Some o =>
      if vsize (pool_ p) <? max_size_ p then
        let o := match reset_hook with Some reset => reset o | None => o end in
        {| pool_ := push_back (pool_ p) o;
           max_size_ := max_size_ p;
           allocated_count_ := allocated_count_ p;
           acquired_count_ := acquired_count_ p;
           released_count_ := wrap (released_count_ p + 1) |}
      else p
  end.

Definition capacity (p : ObjectPool) : Z := max_size_ p.

Definition available (p : ObjectPool) : Z := vsize (pool_ p).

(** One call on a pool, for runs of calls. *)
Inductive pool_call : Type :=
  | call_acquire
  | call_release (obj : option T).

Definition pool_step (p : ObjectPool) (c : pool_call) : ObjectPool :=
  match c with
  | call_acquire => snd (acquire p)
  | call_release obj => release p obj
  end.

Definition pool_run (p : ObjectPool) (calls : list pool_call) : ObjectPool :=
  foldl pool_step p calls.

End ObjectPool.

Arguments ObjectPool T : clear implicits.
Arguments pool_call T : clear implicits.

(** The number of [acquire] calls in a run. *)
Fixpoint acquire_calls {T : Type} (calls : list (pool_call T)) : Z :=
  match calls with
  | [] => 0
  | call_acquire :: calls' => 1 + acquire_calls calls'
  | call_release _ :: calls' => acquire_calls calls'
  end.

(** [ObjectPool::PoolStats] and [get_stats]. *)
Module PoolStats.

Record PoolStats : Type := mkPoolStats {
  allocated_count : Z;
  acquired_count : Z;
  released_count : Z;
  available_count : Z;
  capacity : Z
}.

Definition get_stats {T : Type} (p : ObjectPool T) : PoolStats :=
  {| allocated_count := allocated_count_ p;
     acquired_count := acquired_count_ p;
     released_count := released_count_ p;
     available_count := vsize (pool_ p);
     capacity := max_size_ p |}.

End PoolStats.

(** *** [HighPerformanceAllocator::Impl] *)

(** The [size_t] members of [MemoryStats]; [fragmentation_ratio], a
    [double] that [get_stats] computes on demand, is not part of the
    stored state modelled here. *)
Record MemoryStats : Type := mkMemoryStats {
  total_allocated : Z;
  total_deallocated : Z;
  current_usage : Z;
  peak_usage : Z;
  allocation_count : Z;
  deallocation_count : Z;
  gpu_total_allocated : Z;
  gpu_current_usage : Z;
  gpu_peak_usage : Z
}.

(** [MemoryStats{}]. *)
Definition MemoryStats_zero : MemoryStats := mkMemoryStats 0 0 0 0 0 0 0 0 0.

Record FreeBlock : Type := mkFreeBlock {
  ptr : Z;
  size : Z
}.

Record Impl : Type := mkImpl {
  pool_size_ : Z;
  pool_memory_ : Z;
  free_blocks_ : list FreeBlock;
  allocated_blocks_ : gmap Z Z;
  allocated_size_ : Z;
  stats_ : MemoryStats
}.

(** The all-ones address that [mmap] returns when it fails. *)
Definition MAP_FAILED : Z := 2 ^ 64 - 1.

(** [initialize_pool]; [mmap_result] is what the call to [mmap] returned. *)
Definition initialize_pool (mmap_result : Z) (st : Impl) : Impl :=
  let pool_memory := if mmap_result =? MAP_FAILED then nullptr else mmap_result in
  {| pool_size_ := pool_size_ st;
     pool_memory_ := pool_memory;
     free_blocks_ :=
       if pool_memory =? nullptr then free_blocks_ st
       else push_back (free_blocks_ st) {| ptr := pool_memory; size := pool_size_ st |};
     allocated_blocks_ := allocated_blocks_ st;
     allocated_size_ := allocated_size_ st;
     stats_ := stats_ st |}.

(** [Impl(pool_size)]. *)
Definition Impl_ctor (pool_size mmap_result : Z) : Impl :=
  initialize_pool mmap_result
    {| pool_size_ := pool_size;
       pool_memory_ := nullptr;
       free_blocks_ := [];
       allocated_blocks_ := ∅;
       allocated_size_ := 0;
       stats_ := MemoryStats_zero |}.

(** [(size + alignment - 1) & ~(alignment - 1)] on [size_t]. *)
Definition aligned_size (size alignment : Z) : Z :=
  Z.land (wrap (size + alignment - 1)) (wrap (Z.lnot (wrap (alignment - 1)))).

(** The scan of [allocate]: the iterator [it] (position and block) of the
    first free block with [it->size >= aligned_size], positions counted
    from [i]; [None] is [free_blocks_.end()]. *)
Fixpoint first_fit (aligned : Z) (blocks : list FreeBlock) (i : nat)
    : option (nat * FreeBlock) :=
  match blocks with
  | [] => None
  | it :: rest =>
      if aligned <=? size it then Some (i, it) else first_fit aligned rest (S i)
  end.

Definition allocate (st : Impl) (size_arg alignment : Z) : Z * Impl :=
  let aligned := aligned_size size_arg alignment in
  match first_fit aligned (free_blocks_ st) 0 with
  | Some (i, it) =>
      let p := ptr it in
      let block_size := size it in
      let free := delete i (free_blocks_ st) in
      let free :=
        if wrap (aligned + alignment) <? block_size
        then push_back free {| ptr := p + aligned; size := wrap (block_size - aligned) |}
        else free in
      let current := wrap (current_usage (stats_ st) + aligned) in
      (p,
       {| pool_size_ := pool_size_ st;
          pool_memory_ := pool_memory_ st;
          free_blocks_ := free;
          allocated_blocks_ := <[p := aligned]> (allocated_blocks_ st);
          allocated_size_ := wrap (allocated_size_ st + aligned);
          stats_ :=
            {| total_allocated := total_allocated (stats_ st);
               total_deallocated := total_deallocated (stats_ st);
               current_usage := current;
               peak_usage := Z.max (peak_usage (stats_ st)) current;
               allocation_count := wrap (allocation_count (stats_ st) + 1);
               deallocation_count := deallocation_count (stats_ st);
               gpu_total_allocated := gpu_total_allocated (stats_ st);
               gpu_current_usage := gpu_current_usage (stats_ st);
               gpu_peak_usage := gpu_peak_usage (stats_ st) |} |})
  | None => (nullptr, st)
  end.

(** [std::sort] with the comparison [a.ptr < b.ptr], as an insertion sort.
    [std::sort] does not say in which order it leaves blocks that start at
    the same address; the insertion sort fixes one order for them. *)
Fixpoint sort_insert (b : FreeBlock) (l : list FreeBlock) : list FreeBlock :=
  match l with
  | [] => [b]
  | c :: l' => if ptr c <? ptr b then c :: sort_insert b l' else b :: c :: l'
  end.

Definition sort_by_ptr (l : list FreeBlock) : list FreeBlock := foldr sort_insert [] l.

(** The merge loop of [merge_free_blocks], with the vector indexed as
    the source indexes it: [i < free_blocks_.size() - 1] is computed on
    [size_t], and a read of [free_blocks_[i]] or [free_blocks_[i + 1]] past
    the end is [Undefined].  [None]: the iteration bound [fuel] ran out. *)
Fixpoint merge_loop (fuel : nat) (i : Z) (v : list FreeBlock) : option (outcome (list FreeBlock)) :=
  if i <? wrap (vsize v - 1) then
    match fuel with
    | O => None
    | S fuel' =>
        match v !! Z.to_nat i, v !! Z.to_nat (i + 1) with
        | Some cur, Some next =>
            let current_end := ptr cur + size cur in
            if current_end =? ptr next then
              let merged := {| ptr := ptr cur; size := wrap (size cur + size next) |} in
              merge_loop fuel' i (delete (Z.to_nat (i + 1)) (<[Z.to_nat i := merged]> v))
            else merge_loop fuel' (wrap (i + 1)) v
        | _, _ => Some Undefined
        end
    end
  else Some (Returns v).

(** [merge_free_blocks] on the free list [v].  The loop runs at most
    [length v] times ([merge_loop_fuel] below), so the last branch is
    never taken. *)
Definition merge_free_blocks (v : list FreeBlock) : outcome (list FreeBlock) :=
  let v := sort_by_ptr v in
  match merge_loop (S (length v)) 0 v with
  | Some r => r
  | None => Undefined
  end.

Definition deallocate (st : Impl) (p size_arg : Z) : outcome Impl :=
  if p =? nullptr then Returns st
  else
    match allocated_blocks_ st !! p with
    | Some block_size =>
        free ← merge_free_blocks (push_back (free_blocks_ st) {| ptr := p; size := block_size |});
        Returns
          {| pool_size_ := pool_size_ st;
             pool_memory_ := pool_memory_ st;
             free_blocks_ := free;
             allocated_blocks_ := delete p (allocated_blocks_ st);
             allocated_size_ := wrap (allocated_size_ st - block_size);
             stats_ :=
               {| total_allocated := total_allocated (stats_ st);
                  total_deallocated := total_deallocated (stats_ st);
                  current_usage := wrap (current_usage (stats_ st) - block_size);
                  peak_usage := peak_usage (stats_ st);
                  allocation_count := allocation_count (stats_ st);
                  deallocation_count := wrap (deallocation_count (stats_ st) + 1);
                  gpu_total_allocated := gpu_total_allocated (stats_ st);
                  gpu_current_usage := gpu_current_usage (stats_ st);
                  gpu_peak_usage := gpu_peak_usage (stats_ st) |} |}
    | None => Returns st
    end.

Definition get_allocated_size (st : Impl) : Z := allocated_size_ st.

Definition compact (st : Impl) : outcome Impl :=
  free ← merge_free_blocks (free_blocks_ st);
  Returns
    {| pool_size_ := pool_size_ st;
       pool_memory_ := pool_memory_ st;
       free_blocks_ := free;
       allocated_blocks_ := allocated_blocks_ st;
       allocated_size_ := allocated_size_ st;
       stats_ := stats_ st |}.

Definition reset (mmap_result : Z) (st : Impl) : Impl :=
  initialize_pool mmap_result
    {| pool_size_ := pool_size_ st;
       pool_memory_ := pool_memory_ st;
       free_blocks_ := [];
       allocated_blocks_ := ∅;
       allocated_size_ := 0;
       stats_ := MemoryStats_zero |}.

(** What an observer of the arena adds up: the bytes on the free list and
    the bytes of the live allocations. *)
Definition free_bytes (st : Impl) : Z :=
  foldr (fun b acc => size b + acc) 0 (free_blocks_ st).

Definition live_bytes (st : Impl) : Z :=
  map_fold (fun _ s acc => s + acc) 0 (allocated_blocks_ st).

(** One call on an allocator, for runs of calls. *)
Inductive alloc_call : Type :=
  | call_allocate (size_arg alignment : Z)
  | call_deallocate (p size_arg : Z)
  | call_compact
  | call_reset (mmap_result : Z).

Definition alloc_step (st : Impl) (c : alloc_call) : outcome Impl :=
  match c with
  | call_allocate size_arg alignment => Returns (snd (allocate st size_arg alignment))
  | call_deallocate p size_arg => deallocate st p size_arg
  | call_compact => compact st
  | call_reset mmap_result => Returns (reset mmap_result st)
  end.

Fixpoint alloc_run (st : Impl) (calls : list alloc_call) : outcome Impl :=
  match calls with
  | [] => Returns st
  | c :: calls' => st' ← alloc_step st c; alloc_run st' calls'
  end.

(** Values of type [size_t]. *)
Definition fits_size_t (z : Z) : Prop := 0 <= z < 2 ^ 64.

(** A block of the arena: a non-null address and a [size_t] size. *)
Definition block_ok (b : FreeBlock) : Prop := 0 < ptr b /\ fits_size_t (size b).

Definition well_formed (st : Impl) : Prop :=
  fits_size_t (pool_size_ st)
  /\ Forall block_ok (free_blocks_ st)
  /\ map_Forall (fun p s => 0 < p /\ fits_size_t s) (allocated_blocks_ st).

(** [mmap] returns an address, the failure value included. *)
Definition call_ok (c : alloc_call) : Prop :=
  match c with
  | call_reset mmap_result => 0 <= mmap_result
  | _ => True
  end.

(** The allocator states that a run of calls on a fresh allocator reaches. *)
Definition reachable (st : Impl) : Prop :=
  exists pool_size mmap_result calls,
    fits_size_t pool_size /\ 0 <= mmap_result /\ Forall call_ok calls
    /\ alloc_run (Impl_ctor pool_size mmap_result) calls = Returns st.



(** Blocks as byte ranges [[ptr, ptr + size)].  Two blocks share no byte
    when one of them is empty or one ends where or before the other
    starts; a block is in the arena when its range lies inside
    [[pool_memory_, pool_memory_ + pool_size_)]. *)
Definition no_shared_byte (a b : FreeBlock) : Prop :=
  size a = 0 \/ size b = 0 \/ ptr a + size a <= ptr b \/ ptr b + size b <= ptr a.

Definition in_arena (st : Impl) (b : FreeBlock) : Prop :=
  pool_memory_ st <= ptr b /\ ptr b + size b <= pool_memory_ st + pool_size_ st.

(** No byte of the arena belongs to two blocks: not to two free blocks
    ([list_apart]), not to a free block and a live allocation
    ([apart_from_live]), not to two live allocations ([live_apart]). *)
Definition list_apart (l : list FreeBlock) : Prop :=
  forall (i j : nat) a b, i <> j -> l !! i = Some a -> l !! j = Some b -> no_shared_byte a b.

Definition apart_from_live (live : gmap Z Z) (a : FreeBlock) : Prop :=
  forall p s, live !! p = Some s -> no_shared_byte a {| ptr := p; size := s |}.

Definition live_apart (live : gmap Z Z) : Prop :=
  forall p s q t, p <> q -> live !! p = Some s -> live !! q = Some t ->
    no_shared_byte {| ptr := p; size := s |} {| ptr := q; size := t |}.

Definition blocks_apart (st : Impl) : Prop :=
  list_apart (free_blocks_ st)
  /\ Forall (apart_from_live (allocated_blocks_ st)) (free_blocks_ st)
  /\ live_apart (allocated_blocks_ st).

Definition blocks_in_arena (st : Impl) : Prop :=
  Forall (in_arena st) (free_blocks_ st)
  /\ map_Forall (fun p s => in_arena st {| ptr := p; size := s |}) (allocated_blocks_ st).

(** What the callers hold.  [allocate] hands the [size_arg] bytes at the
    pointer it returns to its caller, who holds them until [deallocate] is
    called with that pointer.  [held] is the callers' side of a run, kept
    beside the allocator and never read by it: the regions handed out and
    not given back, oldest first.  [give_back] takes out the oldest region
    that starts at [p]; [reset] takes nothing out of the callers' hands. *)
Fixpoint give_back (p : Z) (held : list FreeBlock) : list FreeBlock :=
  match held with
  | [] => []
  | b :: held' => if ptr b =? p then held' else b :: give_back p held'
  end.

Definition held_step (st : Impl) (held : list FreeBlock) (c : alloc_call) : list FreeBlock :=
  match c with
  | call_allocate size_arg alignment =>
      let p := fst (allocate st size_arg alignment) in
      if p =? nullptr then held else push_back held {| ptr := p; size := size_arg |}
  | call_deallocate p _ => give_back p held
  | call_compact => held
  | call_reset _ => held
  end.

(** A run of calls, with the allocator state and what the callers hold. *)
Fixpoint held_run (st : Impl) (held : list FreeBlock) (calls : list alloc_call)
    : outcome (Impl * list FreeBlock) :=
  match calls with
  | [] => Returns (st, held)
  | c :: calls' => st' ← alloc_step st c; held_run st' (held_step st held c) calls'
  end.

(** The calls of a plain run: no [reset], and every [allocate] asks for at
    least one byte, with an alignment of at least 1 and a rounding
    [size + alignment - 1] that does not overflow [size_t]. *)
Definition call_plain (c : alloc_call) : Prop :=
  match c with
  | call_allocate size_arg alignment =>
      0 < size_arg /\ 1 <= alignment /\ size_arg + alignment - 1 < 2 ^ 64
  | call_reset _ => False
  | _ => True
  end.

(** The callers' regions against the table of the allocator: no two
    regions start at the same address, every region is covered by the
    table entry at its address, and every table entry is a non-empty
    block held by some caller. *)
Definition held_ok (st : Impl) (held : list FreeBlock) : Prop :=
  NoDup (ptr <$> held)
  /\ Forall (fun b => exists s, allocated_blocks_ st !! ptr b = Some s /\ 0 < size b <= s) held
  /\ (forall p s, allocated_blocks_ st !! p = Some s ->
        0 < s /\ exists b, b ∈ held /\ ptr b = p).

(** A free list in address order on which no block ends where the block
    at the next position starts: the test of the merge loop,
    [current_end == free_blocks_[i + 1].ptr], fails at every position. *)
Definition no_touching_neighbours (v : list FreeBlock) : Prop :=
  forall (j : nat) a b, v !! j = Some a -> v !! S j = Some b ->
    ptr a <= ptr b /\ ptr a + size a <> ptr b.

(** A fully coalesced free list: in address order, and no block ends
    where another block starts, at whatever positions the two are. *)
Definition fully_coalesced (v : list FreeBlock) : Prop :=
  (forall (j : nat) a b, v !! j = Some a -> v !! S j = Some b -> ptr a <= ptr b)
  /\ (forall (i j : nat) a b, i <> j -> v !! i = Some a -> v !! j = Some b ->
        ptr a + size a <> ptr b).

(** The members of [MemoryStats] that no member function of the allocator
    assigns. *)
Definition totals_untouched (s : MemoryStats) : Prop :=
  total_allocated s = 0 /\ total_deallocated s = 0
  /\ gpu_total_allocated s = 0 /\ gpu_current_usage s = 0
  /\ gpu_peak_usage s = 0.

(** The usage counters agree with the blocks: [allocated_size_] and
    [stats_.current_usage] are the same number, it covers the live bytes,
    and together with the free bytes it stays within the pool. *)
Definition counters_ok (st : Impl) : Prop :=
  allocated_size_ st = current_usage (stats_ st)
  /\ 0 <= live_bytes st <= allocated_size_ st
  /\ 0 <= free_bytes st
  /\ free_bytes st + allocated_size_ st <= pool_size_ st
  /\ current_usage (stats_ st) <= peak_usage (stats_ st) <= pool_size_ st.

(** *** [get_stats] and the fragmentation ratio *)

Section Doubles.

Import PrimFloat.

(** [static_cast<double>] of a [size_t], and the conversion of a [size_t]
    operand of a [double] division: the nearest binary64 number, ties to
    even. *)
Definition double_of_size_t (z : Z) : float :=
  FloatOps.SF2Prim (SpecFloat.binary_normalize FloatOps.prec FloatOps.emax z 0 false).

(** A [MemoryStats] as the accessors hand it out: the [size_t] members
    and [fragmentation_ratio]. *)
Record MemoryStatsValue : Type := mkMemoryStatsValue {
  counters : MemoryStats;
  fragmentation_ratio : float
}.

(** [MemoryStats{}], the [double] included. *)
Definition MemoryStatsValue_zero : MemoryStatsValue :=
  {| counters := MemoryStats_zero; fragmentation_ratio := 0%float |}.

Definition calculate_fragmentation_ratio (st : Impl) : float :=
  match free_blocks_ st with
  | [] => 0%float
  | _ :: _ =>
      let '(total_free, largest_free) :=
        foldl (fun '(total_free, largest_free) block =>
                 (wrap (total_free + size block), Z.max largest_free (size block)))
          (0, 0) (free_blocks_ st) in
      if 0 <? total_free
      then (1 - double_of_size_t largest_free / double_of_size_t total_free)%float
      else 0%float
  end.

Definition get_stats (st : Impl) : MemoryStatsValue :=
  {| counters := stats_ st;
     fragmentation_ratio := calculate_fragmentation_ratio st |}.

End Doubles.

End Memory.

(* ------------------------------------------------------------------ *)
(** ** [Result<void>] (async_types.hpp) *)
(* ------------------------------------------------------------------ *)

Module ResultVoid.

Record Result : Type := mkResult {
  success_ : bool;
  error_code_ : Core.ErrorCode;
  error_message_ : string
}.

Definition success : Result := mkResult true Core.SUCCESS "".

Definition error (code : Core.ErrorCode) (message : string) : Result :=
  let message := if Core.empty message then Core.error_code_to_string code else message in
  mkResult false code message.

Definition is_success (r : Result) : bool := success_ r.

Definition is_error (r : Result) : bool := negb (success_ r).

Definition error_code (r : Result) : Core.ErrorCode := error_code_ r.

Definition error_message (r : Result) : string := error_message_ r.

End ResultVoid.

(* ------------------------------------------------------------------ *)
(** ** [GPUMemoryPool::Impl] (memory_manager.cpp) *)
(* ------------------------------------------------------------------ *)

Module GPUMemoryPool.

Section Impl.

(** Whether the build defines [HUSHELL_HAS_CUDA]: the CUDA calls are
    compiled in only then. *)
Variable HUSHELL_HAS_CUDA : bool.

Record Impl : Type := mkImpl {
  allocated_blocks_ : gmap Z Z;
  stats_ : Memory.MemoryStats;
  initialized_ : bool
}.

(** [initialize]; [cudaGetDeviceCount] is what the CUDA call gave:
    [Some device_count] with [cudaSuccess], [None] with an error. *)
Definition initialize (cudaGetDeviceCount : option Z) (st : Impl) : Impl :=
  if HUSHELL_HAS_CUDA then
    match cudaGetDeviceCount with
    | Some device_count =>
        if 0 <? device_count
        then {| allocated_blocks_ := allocated_blocks_ st;
                stats_ := stats_ st;
                initialized_ := true |}
        else st
    | None => st
    end
  else st.

(** [Impl()]. *)
Definition Impl_ctor (cudaGetDeviceCount : option Z) : Impl :=
  initialize cudaGetDeviceCount
    {| allocated_blocks_ := ∅;
       stats_ := Memory.MemoryStats_zero;
       initialized_ := false |}.

(** [allocate_gpu]; [cudaMalloc] is what the CUDA call gave: [Some ptr]
    with [cudaSuccess], [None] with an error.  [alignment] is not used. *)
Definition allocate_gpu (st : Impl) (size alignment : Z) (cudaMalloc : option Z) : Z * Impl :=
  if negb (initialized_ st) then (nullptr, st)
  else if HUSHELL_HAS_CUDA then
    match cudaMalloc with
    | Some ptr =>
        let current := wrap (Memory.gpu_current_usage (stats_ st) + size) in
        (ptr,
         {| allocated_blocks_ := <[ptr := size]> (allocated_blocks_ st);
            stats_ :=
              {| Memory.total_allocated := Memory.total_allocated (stats_ st);
                 Memory.total_deallocated := Memory.total_deallocated (stats_ st);
                 Memory.current_usage := Memory.current_usage (stats_ st);
                 Memory.peak_usage := Memory.peak_usage (stats_ st);
                 Memory.allocation_count := Memory.allocation_count (stats_ st);
                 Memory.deallocation_count := Memory.deallocation_count (stats_ st);
                 Memory.gpu_total_allocated :=
                   wrap (Memory.gpu_total_allocated (stats_ st) + size);
                 Memory.gpu_current_usage := current;
                 Memory.gpu_peak_usage := Z.max (Memory.gpu_peak_usage (stats_ st)) current |};
            initialized_ := initialized_ st |})
    | None => (nullptr, st)
    end
  else (nullptr, st).

Definition deallocate_gpu (st : Impl) (ptr : Z) : Impl :=
  if (ptr =? nullptr) || negb (initialized_ st) then st
  else
    match allocated_blocks_ st !! ptr with
    | Some size =>
        {| allocated_blocks_ := delete ptr (allocated_blocks_ st);
           stats_ :=
             {| Memory.total_allocated := Memory.total_allocated (stats_ st);
                Memory.total_deallocated := Memory.total_deallocated (stats_ st);
                Memory.current_usage := Memory.current_usage (stats_ st);
                Memory.peak_usage := Memory.peak_usage (stats_ st);
                Memory.allocation_count := Memory.allocation_count (stats_ st);
                Memory.deallocation_count := Memory.deallocation_count (stats_ st);
                Memory.gpu_total_allocated := Memory.gpu_total_allocated (stats_ st);
                Memory.gpu_current_usage := wrap (Memory.gpu_current_usage (stats_ st) - size);
                Memory.gpu_peak_usage := Memory.gpu_peak_usage (stats_ st) |};
           initialized_ := initialized_ st |}
    | None => st
    end.

Definition get_gpu_stats (st : Impl) : Memory.MemoryStats := stats_ st.

Definition is_gpu_memory_available (st : Impl) : bool := initialized_ st.

(** [cleanup]: the table is cleared and the pool switched off; [stats_]
    is left as it is. *)
Definition cleanup (st : Impl) : Impl :=
  if negb (initialized_ st) then st
  else {| allocated_blocks_ := ∅; stats_ := stats_ st; initialized_ := false |}.

(** One call on a pool, for runs of calls. *)
Inductive gpu_call : Type :=
  | call_allocate_gpu (size alignment : Z) (cudaMalloc : option Z)
  | call_deallocate_gpu (ptr : Z)
  | call_cleanup.

Definition gpu_step (st : Impl) (c : gpu_call) : Impl :=
  match c with
  | call_allocate_gpu size alignment cudaMalloc => snd (allocate_gpu st size alignment cudaMalloc)
  | call_deallocate_gpu ptr => deallocate_gpu st ptr
  | call_cleanup => cleanup st
  end.

Definition gpu_run (st : Impl) (calls : list gpu_call) : Impl := foldl gpu_step st calls.

(** The pointers that the [allocate_gpu] calls of a run return, in order. *)
Fixpoint gpu_results (st : Impl) (calls : list gpu_call) : list Z :=
  match calls with
  | [] => []
  | call_allocate_gpu size alignment cudaMalloc :: calls' =>
      fst (allocate_gpu st size alignment cudaMalloc)
      :: gpu_results (snd (allocate_gpu st size alignment cudaMalloc)) calls'
  | c :: calls' => gpu_results (gpu_step st c) calls'
  end.

End Impl.

End GPUMemoryPool.

(* ------------------------------------------------------------------ *)
(** ** [MemoryMapper] (memory_manager.cpp, the POSIX branch) *)
(* ------------------------------------------------------------------ *)

Module MemoryMapper.

(** [mutex_] is [true] while the calling thread owns the [std::mutex]. *)
Record MemoryMapper : Type := mkMemoryMapper {
  mapped_regions_ : gmap Z Z;
  mutex_ : bool
}.

Definition MemoryMapper_ctor : MemoryMapper :=
  {| mapped_regions_ := ∅; mutex_ := false |}.

(** [std::lock_guard<std::mutex> lock(mutex_)]: locking a [std::mutex]
    that the calling thread already owns is undefined. *)
Definition lock_guard (m : MemoryMapper) : outcome MemoryMapper :=
  if mutex_ m then Undefined
  else Returns {| mapped_regions_ := mapped_regions_ m; mutex_ := true |}.

(** The end of the guard's scope. *)
Definition unlock (m : MemoryMapper) : MemoryMapper :=
  {| mapped_regions_ := mapped_regions_ m; mutex_ := false |}.

(** [map_file]; [open_result] is the descriptor that [open] gave ([-1]
    on failure), [fstat_result] the [st_size] that [fstat] gave ([None] on
    failure), [mmap_result] what [mmap] gave. *)
Definition map_file (m : MemoryMapper) (path : string) (size : Z) (read_only : bool)
    (open_result : Z) (fstat_result : option Z) (mmap_result : Z)
    : outcome (Z * MemoryMapper) :=
  m ← lock_guard m;
  if open_result =? -1 then Returns (nullptr, unlock m)
  else
    match (if size =? 0 then wrap <$> fstat_result else Some size) with
    | None => Returns (nullptr, unlock m)
    | Some size =>
        if mmap_result =? Memory.MAP_FAILED then Returns (nullptr, unlock m)
        else
          Returns
            (mmap_result,
             unlock {| mapped_regions_ := <[mmap_result := size]> (mapped_regions_ m);
                       mutex_ := mutex_ m |})
    end.

(** [unmap_file]: [munmap] is called first, the lock is taken after it. *)
Definition unmap_file (m : MemoryMapper) (addr size : Z) : outcome MemoryMapper :=
  if addr =? nullptr then Returns m
  else
    m ← lock_guard m;
    Returns (unlock {| mapped_regions_ := delete addr (mapped_regions_ m);
                       mutex_ := mutex_ m |}).

Definition map_anonymous (m : MemoryMapper) (size : Z) (executable : bool) (mmap_result : Z)
    : outcome (Z * MemoryMapper) :=
  m ← lock_guard m;
  let mapped_addr := if mmap_result =? Memory.MAP_FAILED then nullptr else mmap_result in
  if mapped_addr =? nullptr then Returns (mapped_addr, unlock m)
  else
    Returns
      (mapped_addr,
       unlock {| mapped_regions_ := <[mapped_addr := size]> (mapped_regions_ m);
                 mutex_ := mutex_ m |}).

(** The loop of the destructor over the entries of the table, in the
    order [regions] lists them. *)
Fixpoint unmap_regions (regions : list (Z * Z)) (m : MemoryMapper) : outcome MemoryMapper :=
  match regions with
  | [] => Returns m
  | (addr, size) :: rest => m ← unmap_file m addr size; unmap_regions rest m
  end.

(** [~MemoryMapper]: the guard is held for the whole body, and the loop
    calls [unmap_file] on every entry. *)
Definition MemoryMapper_dtor (m : MemoryMapper) : outcome MemoryMapper :=
  m ← lock_guard m;
  m ← unmap_regions (map_to_list (mapped_regions_ m)) m;
  Returns (unlock m).

End MemoryMapper.

(* ------------------------------------------------------------------ *)
(** ** [MemoryManager] and [ManagedMemoryBlock<T>]
       (memory_manager.hpp, memory_manager.cpp) *)
(* ------------------------------------------------------------------ *)

Module MemoryManager.

Section MemoryManager.

Import PrimFloat.

Variable HUSHELL_HAS_CUDA : bool.

(** [std::stoull(str)]: [inr n] when it returns [n], [inl what] when it
    throws ([std::invalid_argument], [std::out_of_range]), [what] being
    the exception's [what()]. *)
Variable stoull : string -> string + Z.

(** A type-erased object pool, as [object_pools_] holds them. *)
Variable AnyPool : Type.

(** The [std::unique_ptr] members are [None] when null. *)
Record MemoryManager : Type := mkMemoryManager {
  object_pools_ : gmap string AnyPool;
  gpu_pool_ : option GPUMemoryPool.Impl;
  memory_mapper_ : option MemoryMapper.MemoryMapper;
  allocator_ : option Memory.Impl;
  initialized_ : bool;
  config_ : gmap string string
}.

(** The singleton before its first use. *)
Definition instance : MemoryManager :=
  {| object_pools_ := ∅;
     gpu_pool_ := None;
     memory_mapper_ := None;
     allocator_ := None;
     initialized_ := false;
     config_ := ∅ |}.

(** What a [std::unique_ptr<MemoryMapper>] does to the mapper it owns when
    it is reset or assigned to. *)
Definition destroy_mapper (owned : option MemoryMapper.MemoryMapper) : outcome unit :=
  match owned with
  | Some mapper => _ ← MemoryMapper.MemoryMapper_dtor mapper; Returns tt
  | None => Returns tt
  end.

(** [initialize]; [cudaGetDeviceCount] and [mmap_result] are what the
    constructors of the GPU pool and of the allocator get from the
    platform. *)
Definition initialize (m : MemoryManager) (config : gmap string string)
    (cudaGetDeviceCount : option Z) (mmap_result : Z)
    : outcome (ResultVoid.Result * MemoryManager) :=
  if initialized_ m then Returns (ResultVoid.success, m)
  else
    let gpu_pool := GPUMemoryPool.Impl_ctor HUSHELL_HAS_CUDA cudaGetDeviceCount in
    _ ← destroy_mapper (memory_mapper_ m);
    let memory_mapper := MemoryMapper.MemoryMapper_ctor in
    let parsed :=
      match config !! "allocator_pool_size_mb" with
      | Some text =>
          match stoull text with
          | inr n => inr (wrap (wrap (n * 1024) * 1024))
          | inl what => inl what
          end
      | None => inr (64 * 1024 * 1024)
      end in
    match parsed with
    | inr pool_size =>
        Returns
          (ResultVoid.success,
           {| object_pools_ := object_pools_ m;
              gpu_pool_ := Some gpu_pool;
              memory_mapper_ := Some memory_mapper;
              allocator_ := Some (Memory.Impl_ctor pool_size mmap_result);
              initialized_ := true;
              config_ := config |})
    | inl what =>
        Returns
          (ResultVoid.error Core.INTERNAL_ERROR what,
           {| object_pools_ := object_pools_ m;
              gpu_pool_ := Some gpu_pool;
              memory_mapper_ := Some memory_mapper;
              allocator_ := allocator_ m;
              initialized_ := false;
              config_ := config |})
    end.

Definition shutdown (m : MemoryManager) : outcome MemoryManager :=
  if negb (initialized_ m) then Returns m
  else
    _ ← destroy_mapper (memory_mapper_ m);
    Returns
      {| object_pools_ := ∅;
         gpu_pool_ := None;
         memory_mapper_ := None;
         allocator_ := None;
         initialized_ := false;
         config_ := config_ m |}.

Definition get_gpu_memory_pool (m : MemoryManager) : outcome GPUMemoryPool.Impl :=
  match gpu_pool_ m with
  | None => Throws (runtime_error "GPU memory pool not initialized")
  | Some gpu_pool => Returns gpu_pool
  end.

Definition get_memory_mapper (m : MemoryManager) : outcome MemoryMapper.MemoryMapper :=
  match memory_mapper_ m with
  | None => Throws (runtime_error "Memory mapper not initialized")
  | Some memory_mapper => Returns memory_mapper
  end.

Definition get_allocator (m : MemoryManager) : outcome Memory.Impl :=
  match allocator_ m with
  | None => Throws (runtime_error "High performance allocator not initialized")
  | Some allocator => Returns allocator
  end.

Definition get_global_stats (m : MemoryManager) : Memory.MemoryStatsValue :=
  let global_stats := Memory.MemoryStatsValue_zero in
  let global_stats :=
    match allocator_ m with
    | Some allocator =>
        let alloc_stats := Memory.counters (Memory.get_stats allocator) in
        let g := Memory.counters global_stats in
        {| Memory.counters :=
             {| Memory.total_allocated := Memory.total_allocated g;
                Memory.total_deallocated := Memory.total_deallocated g;
                Memory.current_usage :=
                  wrap (Memory.current_usage g + Memory.current_usage alloc_stats);
                Memory.peak_usage := wrap (Memory.peak_usage g + Memory.peak_usage alloc_stats);
                Memory.allocation_count :=
                  wrap (Memory.allocation_count g + Memory.allocation_count alloc_stats);
                Memory.deallocation_count :=
                  wrap (Memory.deallocation_count g + Memory.deallocation_count alloc_stats);
                Memory.gpu_total_allocated := Memory.gpu_total_allocated g;
                Memory.gpu_current_usage := Memory.gpu_current_usage g;
                Memory.gpu_peak_usage := Memory.gpu_peak_usage g |};
           Memory.fragmentation_ratio := Memory.fragmentation_ratio global_stats |}
    | None => global_stats
    end in
  match gpu_pool_ m with
  | Some gpu_pool =>
      let gpu_stats := GPUMemoryPool.get_gpu_stats gpu_pool in
      let g := Memory.counters global_stats in
      {| Memory.counters :=
           {| Memory.total_allocated := Memory.total_allocated g;
              Memory.total_deallocated := Memory.total_deallocated g;
              Memory.current_usage := Memory.current_usage g;
              Memory.peak_usage := Memory.peak_usage g;
              Memory.allocation_count := Memory.allocation_count g;
              Memory.deallocation_count := Memory.deallocation_count g;
              Memory.gpu_total_allocated := Memory.gpu_total_allocated gpu_stats;
              Memory.gpu_current_usage := Memory.gpu_current_usage gpu_stats;
              Memory.gpu_peak_usage := Memory.gpu_peak_usage gpu_stats |};
         Memory.fragmentation_ratio := Memory.fragmentation_ratio global_stats |}
  | None => global_stats
  end.

Definition is_memory_healthy (m : MemoryManager) : bool :=
  let stats := get_global_stats m in
  if (0.5 <? Memory.fragmentation_ratio stats)%float then false else true.

(** [allocator_->compact()] when there is an allocator. *)
Definition compact_allocator (owned : option Memory.Impl) : outcome (option Memory.Impl) :=
  match owned with
  | Some allocator => allocator ← Memory.compact allocator; Returns (Some allocator)
  | None => Returns None
  end.

Definition force_gc (m : MemoryManager) : outcome MemoryManager :=
  allocator ← compact_allocator (allocator_ m);
  Returns
    {| object_pools_ := object_pools_ m;
       gpu_pool_ := GPUMemoryPool.cleanup <$> gpu_pool_ m;
       memory_mapper_ := memory_mapper_ m;
       allocator_ := allocator;
       initialized_ := initialized_ m;
       config_ := config_ m |}.

Definition compact_memory (m : MemoryManager) : outcome MemoryManager :=
  allocator ← compact_allocator (allocator_ m);
  Returns
    {| object_pools_ := object_pools_ m;
       gpu_pool_ := gpu_pool_ m;
       memory_mapper_ := memory_mapper_ m;
       allocator_ := allocator;
       initialized_ := initialized_ m;
       config_ := config_ m |}.

Definition update_config (m : MemoryManager) (config : gmap string string) : MemoryManager :=
  {| object_pools_ := object_pools_ m;
     gpu_pool_ := gpu_pool_ m;
     memory_mapper_ := memory_mapper_ m;
     allocator_ := allocator_ m;
     initialized_ := initialized_ m;
     config_ := config |}.

Definition get_config (m : MemoryManager) : gmap string string := config_ m.

(** The manager with its allocator replaced: what a call through the
    reference that [get_allocator] returns leaves behind. *)
Definition with_allocator (m : MemoryManager) (allocator : Memory.Impl) : MemoryManager :=
  {| object_pools_ := object_pools_ m;
     gpu_pool_ := gpu_pool_ m;
     memory_mapper_ := memory_mapper_ m;
     allocator_ := Some allocator;
     initialized_ := initialized_ m;
     config_ := config_ m |}.

(** One call on the manager, for runs of calls; [call_on_allocator c] is
    the call [c] made through the reference that [get_allocator] returns. *)
Inductive manager_call : Type :=
  | call_initialize (config : gmap string string) (cudaGetDeviceCount : option Z)
      (mmap_result : Z)
  | call_shutdown
  | call_force_gc
  | call_compact_memory
  | call_update_config (config : gmap string string)
  | call_on_allocator (c : Memory.alloc_call).

Definition manager_step (m : MemoryManager) (c : manager_call) : outcome MemoryManager :=
  match c with
  | call_initialize config cudaGetDeviceCount mmap_result =>
      '(_, m) ← initialize m config cudaGetDeviceCount mmap_result; Returns m
  | call_shutdown => shutdown m
  | call_force_gc => force_gc m
  | call_compact_memory => compact_memory m
  | call_update_config config => Returns (update_config m config)
  | call_on_allocator c =>
      allocator ← get_allocator m;
      allocator ← Memory.alloc_step allocator c;
      Returns (with_allocator m allocator)
  end.

Fixpoint manager_run (m : MemoryManager) (calls : list manager_call) : outcome MemoryManager :=
  match calls with
  | [] => Returns m
  | c :: calls' => m ← manager_step m c; manager_run m calls'
  end.

(** What the member functions keep between them: the allocator is there
    exactly while the manager is initialised, and then the GPU pool and the
    mapper are there too. *)
Definition manager_ok (m : MemoryManager) : Prop :=
  (initialized_ m = true <-> is_Some (allocator_ m))
  /\ (initialized_ m = true -> is_Some (gpu_pool_ m) /\ is_Some (memory_mapper_ m)).

(** *** [ManagedMemoryBlock<T>] *)

Variables sizeof_T alignof_T : Z.

Record ManagedMemoryBlock : Type := mkManagedMemoryBlock {
  ptr_ : Z;
  size_ : Z
}.

(** What the constructor can leave with instead of a block. *)
Inductive thrown : Type :=
  | std_bad_alloc
  | std_runtime_error (what : string).

(** [ManagedMemoryBlock(count)]: [inl] when an exception leaves the
    constructor.  [allocate] has changed nothing when it returns the
    null pointer, so the manager is not part of that case. *)
Definition ManagedMemoryBlock_ctor (m : MemoryManager) (count : Z)
    : thrown + ManagedMemoryBlock * MemoryManager :=
  let size := wrap (count * sizeof_T) in
  match allocator_ m with
  | None => inl (std_runtime_error "High performance allocator not initialized")
  | Some allocator =>
      let '(p, allocator) := Memory.allocate allocator size alignof_T in
      if p =? nullptr then inl std_bad_alloc
      else inr ({| ptr_ := p; size_ := size |}, with_allocator m allocator)
  end.

(** [~ManagedMemoryBlock].  The exception of [get_allocator] would leave
    a destructor, which ends the program; it is reported as thrown. *)
Definition ManagedMemoryBlock_dtor (b : ManagedMemoryBlock) (m : MemoryManager)
    : outcome MemoryManager :=
  if ptr_ b =? nullptr then Returns m
  else
    allocator ← get_allocator m;
    allocator ← Memory.deallocate allocator (ptr_ b) (size_ b);
    Returns (with_allocator m allocator).

(** The move constructor: the new block and what is left of [other]. *)
Definition ManagedMemoryBlock_move (other : ManagedMemoryBlock)
    : ManagedMemoryBlock * ManagedMemoryBlock :=
  ({| ptr_ := ptr_ other; size_ := size_ other |}, {| ptr_ := nullptr; size_ := 0 |}).

Definition get (b : ManagedMemoryBlock) : Z := ptr_ b.

Definition size (b : ManagedMemoryBlock) : Z := size_ b.

End MemoryManager.

Arguments mkMemoryManager {AnyPool} _ _ _ _ _ _.
Arguments object_pools_ {AnyPool} _.
Arguments gpu_pool_ {AnyPool} _.
Arguments memory_mapper_ {AnyPool} _.
Arguments allocator_ {AnyPool} _.
Arguments initialized_ {AnyPool} _.
Arguments config_ {AnyPool} _.
Arguments instance {AnyPool}.
Arguments initialize HUSHELL_HAS_CUDA stoull {AnyPool} _ _ _ _.
Arguments shutdown {AnyPool} _.
Arguments get_gpu_memory_pool {AnyPool} _.
Arguments get_memory_mapper {AnyPool} _.
Arguments get_allocator {AnyPool} _.
Arguments get_global_stats {AnyPool} _.
Arguments is_memory_healthy {AnyPool} _.
Arguments force_gc {AnyPool} _.
Arguments compact_memory {AnyPool} _.
Arguments update_config {AnyPool} _ _.
Arguments get_config {AnyPool} _.
Arguments with_allocator {AnyPool} _ _.
Arguments manager_step HUSHELL_HAS_CUDA stoull {AnyPool} _ _.
Arguments manager_run HUSHELL_HAS_CUDA stoull {AnyPool} _ _.
Arguments manager_ok {AnyPool} _.
Arguments ManagedMemoryBlock_ctor {AnyPool} sizeof_T alignof_T _ _.
Arguments ManagedMemoryBlock_dtor {AnyPool} _ _.

End MemoryManager.

(* ------------------------------------------------------------------ *)
(** ** [hushell::core::scheduler] (scheduler.hpp) *)
(* ------------------------------------------------------------------ *)

Module Scheduler.

Inductive TaskPriority : Type :=
  | LOW
  | NORMAL
  | HIGH
  | CRITICAL.

(** The enumerators' values, which [<] on the enum compares. *)
Definition priority_value (p : TaskPriority) : Z :=
  match p with
  | LOW => 0
  | NORMAL => 1
  | HIGH => 2
  | CRITICAL => 3
  end.

(** *** [std::priority_queue]

    The container adaptor keeps its vector [c] as a binary heap with
    [std::push_heap] and [std::pop_heap].  The two algorithms are embedded
    as libstdc++ writes them (bits/stl_heap.h): a hole travels through the
    vector and the value is stored once, where the hole stops.  Indices are
    those of the source; every call below has [1 <= len], where natural
    and signed index arithmetic agree. *)

Section Heap.

Context {A : Type}.
Variable comp : A -> A -> bool.

(** [*(first + i)]; [value], the element on the move, stands in for a
    read outside the vector. *)
Definition elem (first : list A) (i : nat) (value : A) : A :=
  default value (first !! i).

(** The [while] loop of [__push_heap]: returns the vector and the hole. *)
Fixpoint push_heap_loop (fuel : nat) (first : list A) (holeIndex topIndex : nat)
    (value : A) : list A * nat :=
  let parent := ((holeIndex - 1) / 2)%nat in
  if (topIndex <? holeIndex)%nat && comp (elem first parent value) value then
    match fuel with
    | S fuel' =>
        push_heap_loop fuel' (<[holeIndex := elem first parent value]> first)
          parent topIndex value
    | O => (first, holeIndex)
    end
  else (first, holeIndex).

(** The hole index strictly decreases, so [holeIndex] iterations suffice. *)
Definition __push_heap (first : list A) (holeIndex topIndex : nat) (value : A) : list A :=
  let '(first, holeIndex) := push_heap_loop holeIndex first holeIndex topIndex value in
  <[holeIndex := value]> first.

Definition push_heap (first : list A) : list A :=
  match last first with
  | Some value => __push_heap first (length first - 1)%nat 0%nat value
  | None => first
  end.

(** The [while] loop of [__adjust_heap]: the hole moves to its larger
    child.  Returns the vector, the hole and [__secondChild]. *)
Fixpoint adjust_heap_loop (fuel : nat) (first : list A) (holeIndex secondChild len : nat)
    (value : A) : list A * nat * nat :=
  if (secondChild <? (len - 1) / 2)%nat then
    match fuel with
    | S fuel' =>
        let secondChild := (2 * (secondChild + 1))%nat in
        let secondChild :=
          if comp (elem first secondChild value) (elem first (secondChild - 1)%nat value)
          then (secondChild - 1)%nat else secondChild in
        adjust_heap_loop fuel' (<[holeIndex := elem first secondChild value]> first)
          secondChild secondChild len value
    | O => (first, holeIndex, secondChild)
    end
  else (first, holeIndex, secondChild).

(** [__secondChild] strictly grows and stays below [len], so [len]
    iterations suffice. *)
Definition __adjust_heap (first : list A) (holeIndex len : nat) (value : A) : list A :=
  let topIndex := holeIndex in
  let '(first, holeIndex, secondChild) :=
    adjust_heap_loop len first holeIndex holeIndex len value in
  let '(first, holeIndex) :=
    if (len mod 2 =? 0)%nat && (secondChild =? (len - 2) / 2)%nat then
      let secondChild := (2 * (secondChild + 1))%nat in
      (<[holeIndex := elem first (secondChild - 1)%nat value]> first, (secondChild - 1)%nat)
    else (first, holeIndex) in
  __push_heap first holeIndex topIndex value.

(** [std::pop_heap] with [__pop_heap] inlined: the last element is saved,
    the first is moved to the back, and the heap before it is adjusted. *)
Definition pop_heap (first : list A) : list A :=
  if (1 <? length first)%nat then
    let last_ := (length first - 1)%nat in
    match first !! last_, first !! 0%nat with
    | Some value, Some top => __adjust_heap (<[last_ := top]> first) 0 last_ value
    | _, _ => first
    end
  else first.

(** [std::is_heap] on the first [len] elements: no parent compares less
    than its child. *)
Definition is_heap (first : list A) (len : nat) : Prop :=
  forall child x y,
    (0 < child < len)%nat ->
    first !! ((child - 1) / 2)%nat = Some x ->
    first !! child = Some y ->
    comp x y = false.

(** [priority_queue::push], [top] and [pop]. *)
Definition pq_push (c : list A) (x : A) : list A := push_heap (push_back c x).

Definition pq_top (c : list A) : outcome A :=
  match c with
  | [] => Undefined
  | x :: _ => Returns x
  end.

Definition pq_pop (c : list A) : outcome (list A) :=
  match c with
  | [] => Undefined
  | _ :: _ => Returns (pop_back (pop_heap c))
  end.

End Heap.

(** The keys of a vector, and the invariants of the two loops stated on
    them: [heap_keys] is the heap order on the first [len] positions, and
    [hole_keys] is the heap order around a hole that waits for an element
    of key [kv] (every edge that does not touch the hole is in order, and
    the children of the hole are below [kv] and below the hole's parent). *)
Definition keys_of {A : Type} (key : A -> Z) (first : list A) (value : A) (j : nat) : Z :=
  key (elem first j value).

Definition heap_keys (k : nat -> Z) (len : nat) : Prop :=
  forall c, (0 < c < len)%nat -> k c <= k ((c - 1) / 2)%nat.

Definition hole_keys (k : nat -> Z) (len hole : nat) (kv : Z) : Prop :=
  (hole < len)%nat
  /\ (forall c, (0 < c < len)%nat -> c <> hole -> ((c - 1) / 2)%nat <> hole ->
        k c <= k ((c - 1) / 2)%nat)
  /\ (forall c, (0 < c < len)%nat -> ((c - 1) / 2)%nat = hole ->
        k c <= kv /\ ((0 < hole)%nat -> k c <= k ((hole - 1) / 2)%nat)).

(** *** [WorkStealingPool] *)

Section WorkStealingPool.

(** [std::function<void()>]: the queued closure. *)
Variable Fn : Type.

Record PriorityTask : Type := mkPriorityTask {
  priority : TaskPriority;
  task : Fn
}.

(** [PriorityTask::operator<]. *)
Definition PriorityTask_lt (a other : PriorityTask) : bool :=
  priority_value (priority a) <? priority_value (priority other).

(** The queues and the flag that [submit_task] and [submit_priority_task]
    touch; [priority_tasks_] is the vector inside the priority queue. *)
Record WorkStealingPool : Type := mkWorkStealingPool {
  tasks_ : list Fn;
  priority_tasks_ : list PriorityTask;
  shutdown_ : bool
}.

(** The members as their initialisers leave them. *)
Definition WorkStealingPool_init : WorkStealingPool :=
  {| tasks_ := []; priority_tasks_ := []; shutdown_ := false |}.

(** [std::future]: the handle on the packaged task that wraps the closure. *)
Record future : Type := mkFuture {
  packaged_task : Fn
}.

Definition submit_task (p : WorkStealingPool) (func : Fn) : outcome (future * WorkStealingPool) :=
  let fut := mkFuture func in
  if shutdown_ p then Throws (runtime_error "ThreadPool is shutting down")
  else
    Returns
      (fut,
       {| tasks_ := push_back (tasks_ p) func;
          priority_tasks_ := priority_tasks_ p;
          shutdown_ := shutdown_ p |}).

Definition submit_priority_task (p : WorkStealingPool) (prio : TaskPriority) (func : Fn)
    : outcome (future * WorkStealingPool) :=
  let fut := mkFuture func in
  if shutdown_ p then Throws (runtime_error "ThreadPool is shutting down")
  else
    Returns
      (fut,
       {| tasks_ := tasks_ p;
          priority_tasks_ := pq_push PriorityTask_lt (priority_tasks_ p) (mkPriorityTask prio func);
          shutdown_ := shutdown_ p |}).

(** Modelled from the spec: the body of [WorkStealingPool::worker_thread],
    which takes tasks off the queues, is not among the sources (only its
    declaration is).  The spec has the priority queue drained through the
    max-heap; on a [std::priority_queue] that is [top()] followed by
    [pop()], the only way the adaptor gives an element out. *)
Definition take_priority_task (p : WorkStealingPool) : outcome (PriorityTask * WorkStealingPool) :=
  t ← pq_top (priority_tasks_ p);
  c ← pq_pop PriorityTask_lt (priority_tasks_ p);
  Returns
    (t,
     {| tasks_ := tasks_ p;
        priority_tasks_ := c;
        shutdown_ := shutdown_ p |}).

(** [n] takes in a row: the tasks in the order they are handed out. *)
Fixpoint take_priority_tasks (n : nat) (p : WorkStealingPool)
    : outcome (list PriorityTask * WorkStealingPool) :=
  match n with
  | O => Returns ([], p)
  | S n' =>
      '(t, p1) ← take_priority_task p;
      '(ts, p2) ← take_priority_tasks n' p1;
      Returns (t :: ts, p2)
  end.

(** The pools that submissions and takes can produce. *)
Inductive reachable : WorkStealingPool -> Prop :=
  | reachable_init : reachable WorkStealingPool_init
  | reachable_submit p func fut p' :
      reachable p -> submit_task p func = Returns (fut, p') -> reachable p'
  | reachable_submit_priority p prio func fut p' :
      reachable p -> submit_priority_task p prio func = Returns (fut, p') -> reachable p'
  | reachable_take p t p' :
      reachable p -> take_priority_task p = Returns (t, p') -> reachable p'.

End WorkStealingPool.

Arguments priority {Fn} _.
Arguments task {Fn} _.
Arguments mkPriorityTask {Fn} _ _.
Arguments PriorityTask_lt {Fn} _ _.
Arguments tasks_ {Fn} _.
Arguments priority_tasks_ {Fn} _.
Arguments shutdown_ {Fn} _.
Arguments mkWorkStealingPool {Fn} _ _ _.
Arguments WorkStealingPool_init {Fn}.
Arguments mkFuture {Fn} _.
Arguments submit_task {Fn} _ _.
Arguments submit_priority_task {Fn} _ _ _.
Arguments take_priority_task {Fn} _.
Arguments take_priority_tasks {Fn} _ _.
Arguments reachable {Fn} _.

End Scheduler.

(* ================================================================== *)
(** * Part II: the properties *)
(* ================================================================== *)

(** ** [Result<T>] *)

Section ResultFacts.

Context {T : Type}.
Implicit Types r : Core.Result T.

Lemma is_error_negb_is_success r : Core.is_error r = negb (Core.is_success r).
Proof. reflexivity. Qed.

Lemma value_of_success r :
  Core.is_success r = true -> exists v, Core.value_ r = Some v /\ Core.value r = Returns v.
Proof.
  unfold Core.value, Core.is_success. destruct (Core.value_ r) as [v|]; simpl.
  - intros _. now exists v.
  - discriminate.
Qed.

Lemma value_of_error r :
  Core.is_error r = true ->
  Core.value r = Throws (runtime_error "Attempted to access value of failed Result").
Proof.
  unfold Core.value, Core.is_error, Core.is_success. now intros ->.
Qed.

(** The canonical message of a code is never empty, so re-wrapping an
    error keeps its message. *)
Lemma error_code_to_string_nonempty (code : Core.ErrorCode) :
  Core.empty (Core.error_code_to_string code) = false.
Proof. now destruct code. Qed.

Lemma error_message_nonempty (code : Core.ErrorCode) (message : string) :
  Core.empty (Core.error_message (Core.error (T:=T) code message)) = false.
Proof.
  unfold Core.error, Core.error_message; simpl.
  destruct (Core.empty message) eqn:E; [apply error_code_to_string_nonempty | exact E].
Qed.

Lemma error_idempotent (code : Core.ErrorCode) (message : string) (U : Type) :
  Core.error (T:=U) (Core.error_code_ (Core.error (T:=T) code message))
    (Core.error_message_ (Core.error (T:=T) code message))
  = Core.error code message.
Proof.
  pose proof (error_message_nonempty code message) as H.
  unfold Core.error, Core.error_message in *; simpl in *. now rewrite H.
Qed.

End ResultFacts.

Lemma map_error {T U : Type} (c : Core.ErrorCode) (m : string) (f : T -> U) :
  Core.map (Core.error c m) f = Returns (Core.error c m).
Proof.
  unfold Core.map.
  change (Core.is_error (Core.error (T:=T) c m)) with true; cbv iota.
  f_equal. apply (error_idempotent (T:=T)).
Qed.

(** C7. Result map laws: mapping [f] and then [g] over a success is the
    success of [g (f x)]; mapping over an error built from a code [c] and
    a non-empty message [m] returns that same error, still an error, with
    code [c] and message [m]. *)
Theorem Result_map_laws {T U V : Type} (x : T) (f : T -> U) (g : U -> V)
    (c : Core.ErrorCode) (m : string) :
  m <> "" ->
  (r ← Core.map (Core.success x) f; Core.map r g) = Returns (Core.success (g (f x)))
  /\ Core.map (Core.error c m) f = Returns (Core.error c m)
  /\ (forall r, Core.map (Core.error (T:=T) c m) f = Returns r ->
        Core.is_error r = true /\ Core.error_code r = c /\ Core.error_message r = m).
Proof.
  intros Hm. split; [reflexivity | split].
  - apply map_error.
  - intros r. rewrite map_error. intros [= <-]. repeat split.
    unfold Core.error_message, Core.error; simpl.
    destruct m; [congruence | reflexivity].
Qed.

Lemma Result_map_laws_witness :
  "Test error" <> ""
  /\ (r ← Core.map (Core.success 10) (fun v => v * 2); Core.map r (fun v => v + 1))
     = Returns (Core.success 21)
  /\ Core.map (Core.error Core.INVALID_ARGUMENT "Test error") (fun v : Z => v * 2)
     = Returns (Core.error Core.INVALID_ARGUMENT "Test error").
Proof.
  assert (Hm : "Test error" <> "") by discriminate.
  destruct (Result_map_laws 10 (fun v => v * 2) (fun v => v + 1)
              Core.INVALID_ARGUMENT "Test error" Hm) as (H1 & H2 & _).
  split; [exact Hm | split; [exact H1 | exact H2]].
Defined.

(** C8. [value()] returns the contained value of a success, throws on an
    error, and throws exactly when [is_error()] holds; it has no other
    outcome. *)
Theorem Result_value_throws_iff_error {T : Type} (r : Core.Result T) :
  (Core.is_success r = true ->
     exists v, Core.value_ r = Some v /\ Core.value r = Returns v)
  /\ ((exists e, Core.value r = Throws e) <-> Core.is_error r = true)
  /\ (Core.is_error r = true ->
        Core.value r = Throws (runtime_error "Attempted to access value of failed Result"))
  /\ (Core.value r = Undefined -> False).
Proof.
  split; [apply value_of_success | split; [split | split]].
  - intros [e He]. destruct (Core.is_error r) eqn:E; [reflexivity | exfalso].
    rewrite is_error_negb_is_success in E. apply negb_false_iff in E.
    destruct (value_of_success r E) as (v & _ & Hv). congruence.
  - intros E. eexists. now apply value_of_error.
  - apply value_of_error.
  - destruct (Core.is_error r) eqn:E.
    + rewrite (value_of_error r E). discriminate.
    + rewrite is_error_negb_is_success in E. apply negb_false_iff in E.
      destruct (value_of_success r E) as (v & _ & Hv). congruence.
Qed.
(** ** [std::vector] primitives *)

Lemma length_push_back {A : Type} (c : list A) (x : A) :
  length (push_back c x) = S (length c).
Proof. unfold push_back. rewrite length_app. simpl. lia. Qed.

Lemma length_pop_back {A : Type} (c : list A) :
  length (pop_back c) = (length c - 1)%nat.
Proof. unfold pop_back. rewrite length_take. lia. Qed.

Lemma vsize_push_back {A : Type} (c : list A) (x : A) :
  vsize (push_back c x) = vsize c + 1.
Proof. unfold vsize. rewrite length_push_back. lia. Qed.

Lemma vsize_pop_back_le {A : Type} (c : list A) : vsize (pop_back c) <= vsize c.
Proof. unfold vsize. rewrite length_pop_back. lia. Qed.

(** ** [ObjectPool<T>] *)

Section ObjectPoolFacts.

Context {T : Type} (make_unique : T) (reset_hook : option (T -> T)).
Implicit Types p : Memory.ObjectPool T.

Lemma ctor_loop_length (n : nat) :
  length (Nat.iter n (fun pool => push_back pool make_unique) []) = n.
Proof. induction n as [|n IH]; simpl; [reflexivity|]. now rewrite length_push_back, IH. Qed.

(** The constructor fills the pool with [initial_size] objects and never
    looks at [max_size]. *)
Lemma ctor_available (initial_size max_size : Z) :
  0 <= initial_size ->
  Memory.available (Memory.ObjectPool_ctor make_unique initial_size max_size) = initial_size
  /\ Memory.capacity (Memory.ObjectPool_ctor make_unique initial_size max_size) = max_size.
Proof.
  intros H. unfold Memory.available, Memory.capacity, Memory.ObjectPool_ctor, vsize; simpl.
  rewrite ctor_loop_length. lia.
Qed.

Lemma acquire_capacity p :
  Memory.capacity (snd (Memory.acquire make_unique p)) = Memory.capacity p.
Proof. unfold Memory.acquire. now destruct (last (Memory.pool_ p)). Qed.

Lemma acquire_available_le p :
  Memory.available (snd (Memory.acquire make_unique p)) <= Memory.available p.
Proof.
  unfold Memory.acquire, Memory.available.
  destruct (last (Memory.pool_ p)); simpl; [apply vsize_pop_back_le | lia].
Qed.

Lemma release_capacity p obj :
  Memory.capacity (Memory.release reset_hook p obj) = Memory.capacity p.
Proof.
  unfold Memory.release. destruct obj as [o|]; [|reflexivity].
  now destruct (vsize (Memory.pool_ p) <? Memory.max_size_ p).
Qed.

(** [release] puts an object back only below the bound. *)
Lemma release_available_le p obj :
  Memory.available p <= Memory.capacity p ->
  Memory.available (Memory.release reset_hook p obj) <= Memory.capacity p.
Proof.
  unfold Memory.release, Memory.available, Memory.capacity. intros H.
  destruct obj as [o|]; [|exact H].
  destruct (Z.ltb_spec (vsize (Memory.pool_ p)) (Memory.max_size_ p)); simpl; [|exact H].
  rewrite vsize_push_back. lia.
Qed.

Lemma pool_step_bound p c :
  Memory.available p <= Memory.capacity p ->
  Memory.available (Memory.pool_step make_unique reset_hook p c)
    <= Memory.capacity (Memory.pool_step make_unique reset_hook p c).
Proof.
  intros H. destruct c as [|obj]; simpl.
  - rewrite acquire_capacity. pose proof (acquire_available_le p). lia.
  - rewrite release_capacity. now apply release_available_le.
Qed.

(** A pool that starts within its bound stays within it, whatever is
    acquired and released. *)
Lemma pool_run_bound p calls :
  Memory.available p <= Memory.capacity p ->
  Memory.available (Memory.pool_run make_unique reset_hook p calls)
    <= Memory.capacity (Memory.pool_run make_unique reset_hook p calls).
Proof.
  unfold Memory.pool_run. revert p.
  induction calls as [|c calls IH]; intros p H; simpl; [exact H|].
  apply IH. now apply pool_step_bound.
Qed.

(** X1. On a pool constructed with [initial_size <= max_size], every run
    of acquire and release calls keeps [available() <= capacity()]. *)
Lemma pool_bound_when_ctor_within (initial_size max_size : Z) (calls : list (Memory.pool_call T)) :
  0 <= initial_size <= max_size ->
  let p := Memory.pool_run make_unique reset_hook
             (Memory.ObjectPool_ctor make_unique initial_size max_size) calls in
  Memory.available p <= Memory.capacity p.
Proof.
  intros H. apply pool_run_bound.
  destruct (ctor_available initial_size max_size) as [-> ->]; lia.
Qed.

(** X2. A release into a pool that already holds [max_size] objects (or
    more) leaves the pool as it was: the object is not retained. *)
Lemma release_when_full p obj :
  Memory.capacity p <= Memory.available p ->
  Memory.release reset_hook p obj = p.
Proof.
  unfold Memory.release, Memory.available, Memory.capacity. intros H.
  destruct obj as [o|]; [|reflexivity].
  destruct (Z.ltb_spec (vsize (Memory.pool_ p)) (Memory.max_size_ p)); [lia | reflexivity].
Qed.

(** The constructor alone breaks the bound when [initial_size] exceeds
    [max_size], and no later call is needed. *)
Lemma ctor_over_capacity (initial_size max_size : Z) :
  0 <= max_size < initial_size ->
  let p := Memory.ObjectPool_ctor make_unique initial_size max_size in
  Memory.capacity p < Memory.available p.
Proof.
  intros H p. subst p. destruct (ctor_available initial_size max_size) as [-> ->]; lia.
Qed.

End ObjectPoolFacts.

Lemma pool_bound_when_ctor_within_witness :
  let calls := [Memory.call_release (Some tt); Memory.call_release (Some tt);
                Memory.call_acquire; Memory.call_release (Some tt);
                Memory.call_release (Some tt)] in
  0 <= 2 <= 3
  /\ Memory.available (Memory.pool_run tt None (Memory.ObjectPool_ctor tt 2 3) calls)
     <= Memory.capacity (Memory.pool_run tt None (Memory.ObjectPool_ctor tt 2 3) calls).
Proof.
  intros calls. assert (H : 0 <= 2 <= 3) by lia.
  split; [exact H|]. exact (pool_bound_when_ctor_within tt None 2 3 calls H).
Defined.

Lemma release_when_full_witness :
  Memory.capacity (Memory.ObjectPool_ctor tt 3 3)
    <= Memory.available (Memory.ObjectPool_ctor tt 3 3)
  /\ Memory.release None (Memory.ObjectPool_ctor tt 3 3) (Some tt)
     = Memory.ObjectPool_ctor tt 3 3.
Proof.
  assert (H : Memory.capacity (Memory.ObjectPool_ctor tt 3 3)
              <= Memory.available (Memory.ObjectPool_ctor tt 3 3))
    by (vm_compute; discriminate).
  split; [exact H|]. exact (release_when_full None (Memory.ObjectPool_ctor tt 3 3) (Some tt) H).
Defined.

(** C4. The specification has the resident count never exceed [max_size]
    after any run of constructor, acquire and release calls.  [release]
    keeps the bound and drops the object at the bound, but the constructor
    call [ObjectPool(10, 5)] already leaves ten resident objects in a pool
    of capacity five, and a release into it changes nothing. *)
Theorem ObjectPool_ctor_ignores_max_size :
  Memory.available (Memory.ObjectPool_ctor tt 10 5) = 10
  /\ Memory.capacity (Memory.ObjectPool_ctor tt 10 5) = 5
  /\ Memory.release None (Memory.ObjectPool_ctor tt 10 5) (Some tt)
     = Memory.ObjectPool_ctor tt 10 5.
Proof. repeat split. Qed.

(** ** [size_t] arithmetic *)

Lemma wrap_fits (z : Z) : Memory.fits_size_t (wrap z).
Proof. unfold Memory.fits_size_t, wrap. apply Z.mod_pos_bound. lia. Qed.

Lemma wrap_small (z : Z) : Memory.fits_size_t z -> wrap z = z.
Proof. unfold Memory.fits_size_t, wrap. intros H. now apply Z.mod_small. Qed.

Lemma wrap_le (z : Z) : 0 <= z -> wrap z <= z.
Proof. unfold wrap. intros H. apply Z.mod_le; lia. Qed.

Lemma land_le_l (x y : Z) : 0 <= x -> Z.land x y <= x.
Proof.
  intros Hx. pose proof (Z.sub_land_same_l x y) as E.
  assert (0 <= Z.land x (Z.lnot y)) by (apply Z.land_nonneg; now left). lia.
Qed.

Lemma land_le_r (x y : Z) : 0 <= y -> Z.land x y <= y.
Proof. intros Hy. rewrite Z.land_comm. now apply land_le_l. Qed.

(** The rounded size is a [size_t]. *)
Lemma aligned_size_fits (size_arg alignment : Z) :
  Memory.fits_size_t (Memory.aligned_size size_arg alignment).
Proof.
  unfold Memory.aligned_size.
  pose proof (wrap_fits (size_arg + alignment - 1)) as [H0 H1].
  split.
  - apply Z.land_nonneg. now left.
  - pose proof (land_le_l (wrap (size_arg + alignment - 1))
                  (wrap (Z.lnot (wrap (alignment - 1)))) H0). lia.
Qed.

Lemma aligned_size_le_request (size_arg alignment : Z) :
  0 <= size_arg -> 1 <= alignment -> size_arg + alignment - 1 < 2 ^ 64 ->
  size_arg <= Memory.aligned_size size_arg alignment.
Proof.
  intros Hs Ha Hno. unfold Memory.aligned_size.
  assert (Hm : Memory.fits_size_t (alignment - 1)) by (unfold Memory.fits_size_t; lia).
  assert (Hx : Memory.fits_size_t (size_arg + alignment - 1)) by (unfold Memory.fits_size_t; lia).
  rewrite (wrap_small _ Hm), (wrap_small _ Hx).
  set (x := size_arg + alignment - 1). set (m := alignment - 1).
  assert (E : Z.land x (wrap (Z.lnot m)) = Z.land x (Z.lnot m)).
  { unfold wrap. rewrite <- (Z.land_ones (Z.lnot m)) by lia.
    rewrite (Z.land_comm (Z.lnot m)), Z.land_assoc, (Z.land_ones x) by lia.
    fold (wrap x). now rewrite (wrap_small x Hx). }
  rewrite E, <- Z.sub_land_same_l.
  pose proof (land_le_r x m ltac:(unfold m; lia)). unfold x, m in *. lia.
Qed.

(** X3. Without overflow in [size + alignment - 1], rounding never shrinks
    the request and adds less than [alignment]: a block that passes the
    test of [allocate] holds [size] bytes. *)
Lemma aligned_size_ge (size_arg alignment : Z) :
  0 <= size_arg -> 1 <= alignment -> size_arg + alignment - 1 < 2 ^ 64 ->
  size_arg <= Memory.aligned_size size_arg alignment <= size_arg + alignment - 1.
Proof.
  intros Hs Ha Hno. split; [now apply aligned_size_le_request|].
  unfold Memory.aligned_size.
  rewrite (wrap_small (size_arg + alignment - 1)) by (unfold Memory.fits_size_t; lia).
  apply land_le_l. lia.
Qed.

Lemma aligned_size_ge_witness :
  0 <= 100 /\ 1 <= 8 /\ 100 + 8 - 1 < 2 ^ 64
  /\ 100 <= Memory.aligned_size 100 8 <= 100 + 8 - 1.
Proof.
  assert (H1 : 0 <= 100) by lia. assert (H2 : 1 <= 8) by lia.
  assert (H3 : 100 + 8 - 1 < 2 ^ 64) by lia.
  split; [exact H1 | split; [exact H2 | split; [exact H3|]]].
  exact (aligned_size_ge 100 8 H1 H2 H3).
Defined.

(** ** The first-fit scan *)

Lemma first_fit_None (aligned : Z) (blocks : list Memory.FreeBlock) (i : nat) :
  Memory.first_fit aligned blocks i = None
  <-> Forall (fun b => Memory.size b < aligned) blocks.
Proof.
  revert i. induction blocks as [|it rest IH]; intros i; simpl.
  - split; [constructor | reflexivity].
  - destruct (Z.leb_spec aligned (Memory.size it)) as [Hle|Hlt].
    + split; [discriminate | intros H; inversion H; subst; lia].
    + rewrite IH. split; [now constructor | intros H; now inversion H].
Qed.

(** A hit is the first block that is large enough. *)
Lemma first_fit_Some (aligned : Z) (blocks : list Memory.FreeBlock) (i j : nat)
    (it : Memory.FreeBlock) :
  Memory.first_fit aligned blocks i = Some (j, it) ->
  (i <= j)%nat
  /\ blocks !! (j - i)%nat = Some it /\ aligned <= Memory.size it
  /\ Forall (fun b => Memory.size b < aligned) (take (j - i) blocks).
Proof.
  revert i. induction blocks as [|b rest IH]; intros i; simpl; [discriminate|].
  destruct (Z.leb_spec aligned (Memory.size b)) as [Hle|Hlt].
  - intros [= <- <-]. split; [lia|]. replace (i - i)%nat with 0%nat by lia.
    simpl. repeat split; [exact Hle | constructor].
  - intros H. destruct (IH _ H) as (Hij & Hl & Hs & Hall).
    split; [lia|].
    replace (j - i)%nat with (S (j - S i)) by lia. simpl.
    repeat split; [exact Hl | exact Hs | now constructor].
Qed.

(** ** Sorting the free list *)

Lemma sort_insert_Permutation (b : Memory.FreeBlock) (l : list Memory.FreeBlock) :
  Memory.sort_insert b l ≡ₚ b :: l.
Proof.
  induction l as [|c l IH]; simpl; [reflexivity|].
  destruct (Memory.ptr c <? Memory.ptr b); [|reflexivity].
  rewrite IH. apply Permutation_swap.
Qed.

Lemma sort_by_ptr_Permutation (l : list Memory.FreeBlock) : Memory.sort_by_ptr l ≡ₚ l.
Proof.
  unfold Memory.sort_by_ptr. induction l as [|b l IH]; simpl; [reflexivity|].
  now rewrite sort_insert_Permutation, IH.
Qed.

Lemma sort_by_ptr_length (l : list Memory.FreeBlock) :
  length (Memory.sort_by_ptr l) = length l.
Proof. apply Permutation_length, sort_by_ptr_Permutation. Qed.

Lemma sort_by_ptr_Forall (P : Memory.FreeBlock -> Prop) (l : list Memory.FreeBlock) :
  Forall P l -> Forall P (Memory.sort_by_ptr l).
Proof. intros H. now rewrite sort_by_ptr_Permutation. Qed.

(** ** The merge loop *)

(** On an empty vector [size() - 1] wraps to the largest [size_t]: the
    loop is entered and reads [free_blocks_[0]], which is not there. *)
Lemma merge_loop_empty (fuel : nat) :
  Memory.merge_loop (S fuel) 0 [] = Some Undefined.
Proof. reflexivity. Qed.

Lemma merge_free_blocks_empty : Memory.merge_free_blocks [] = Undefined.
Proof. reflexivity. Qed.

(** On a non-empty vector the loop stays inside it, keeps it non-empty and
    ends before the iteration bound: each round either drops one element
    or moves [i] one step towards the end.  Whatever a merge of two
    neighbours preserves, the loop preserves. *)
Lemma merge_loop_invariant (Q : list Memory.FreeBlock -> Prop) (fuel : nat) :
  (forall v (j : nat) cur next,
     Q v -> v !! j = Some cur -> v !! S j = Some next ->
     Q (delete (S j)
          (<[j := {| Memory.ptr := Memory.ptr cur;
                     Memory.size := wrap (Memory.size cur + Memory.size next) |}]> v))) ->
  forall (v : list Memory.FreeBlock) (i : Z),
    0 <= i -> (0 < length v)%nat -> (length v - Z.to_nat i <= S fuel)%nat ->
    Q v ->
    exists v', Memory.merge_loop fuel i v = Some (Returns v')
               /\ (0 < length v' <= length v)%nat /\ Q v'.
Proof.
  intros HQ. induction fuel as [|fuel IH]; intros v i Hi Hlen Hfuel Hall.
  - (* no round left: the test of the loop is already false *)
    destruct v as [|b v]; [simpl in Hlen; lia|].
    cbn [Memory.merge_loop].
    destruct (Z.ltb_spec i (wrap (vsize (b :: v) - 1))) as [Hlt|Hge].
    + exfalso. pose proof (wrap_le (vsize (b :: v) - 1)) as Hw.
      unfold vsize in *. simpl length in *. lia.
    + exists (b :: v). split; [reflexivity | split; [simpl; lia | exact Hall]].
  - cbn [Memory.merge_loop].
    destruct (Z.ltb_spec i (wrap (vsize v - 1))) as [Hlt|Hge].
    2:{ exists v. split; [reflexivity | split; [lia | exact Hall]]. }
    assert (Hw : wrap (vsize v - 1) <= vsize v - 1)
      by (apply wrap_le; unfold vsize; lia).
    assert (Hnext : Z.to_nat (i + 1) = S (Z.to_nat i)) by lia.
    rewrite Hnext.
    assert (Hi1 : (S (Z.to_nat i) < length v)%nat) by (unfold vsize in *; lia).
    assert (Hi0 : (Z.to_nat i < length v)%nat) by lia.
    destruct (lookup_lt_is_Some_2 v _ Hi0) as [cur Hcur].
    destruct (lookup_lt_is_Some_2 v _ Hi1) as [next Hnx].
    rewrite Hcur, Hnx. cbv zeta.
    destruct (Memory.ptr cur + Memory.size cur =? Memory.ptr next).
    + set (merged := {| Memory.ptr := Memory.ptr cur;
                        Memory.size := wrap (Memory.size cur + Memory.size next) |}).
      assert (Hlen' : length (delete (S (Z.to_nat i)) (<[Z.to_nat i := merged]> v))
                      = (length v - 1)%nat).
      { rewrite length_delete; [now rewrite length_insert|].
        apply lookup_lt_is_Some_2. now rewrite length_insert. }
      destruct (IH (delete (S (Z.to_nat i)) (<[Z.to_nat i := merged]> v)) i)
        as (v' & Hv' & Hl' & Hall'); try lia.
      * now apply HQ.
      * exists v'. split; [exact Hv' | split; [lia | exact Hall']].
    + assert (Hwi : wrap (i + 1) = i + 1).
      { apply wrap_small. pose proof (wrap_fits (vsize v - 1)) as [_ Hb].
        unfold Memory.fits_size_t. lia. }
      rewrite Hwi.
      destruct (IH v (i + 1)) as (v' & Hv' & Hl' & Hall'); try lia; try assumption.
      exists v'. split; [exact Hv' | split; [lia | exact Hall']].
Qed.

Lemma merge_loop_returns (P : Memory.FreeBlock -> Prop) (fuel : nat) :
  (forall cur next, P cur -> P next ->
     P {| Memory.ptr := Memory.ptr cur;
          Memory.size := wrap (Memory.size cur + Memory.size next) |}) ->
  forall (v : list Memory.FreeBlock) (i : Z),
    0 <= i -> (0 < length v)%nat -> (length v - Z.to_nat i <= S fuel)%nat ->
    Forall P v ->
    exists v', Memory.merge_loop fuel i v = Some (Returns v')
               /\ (0 < length v' <= length v)%nat /\ Forall P v'.
Proof.
  intros HP. apply (merge_loop_invariant (Forall P)).
  intros v j cur next Hall Hcur Hnext.
  apply Forall_delete, Forall_insert; [exact Hall|].
  apply HP; eapply Forall_lookup_1; eauto.
Qed.

(** The iteration bound that [merge_free_blocks] passes is never used up. *)
Lemma merge_loop_fuel (v : list Memory.FreeBlock) :
  Memory.merge_loop (S (length v)) 0 v <> None.
Proof.
  destruct v as [|b v]; [discriminate|].
  destruct (merge_loop_returns (fun _ => True) (S (length (b :: v))) (fun _ _ _ _ => I)
              (b :: v) 0) as (v' & -> & _); simpl; try lia; [|discriminate].
  apply Forall_forall. tauto.
Qed.

Lemma merge_free_blocks_returns (P : Memory.FreeBlock -> Prop) (v : list Memory.FreeBlock) :
  (forall cur next, P cur -> P next ->
     P {| Memory.ptr := Memory.ptr cur;
          Memory.size := wrap (Memory.size cur + Memory.size next) |}) ->
  v <> [] -> Forall P v ->
  exists v', Memory.merge_free_blocks v = Returns v'
             /\ (0 < length v' <= length v)%nat /\ Forall P v'.
Proof.
  intros HP Hne Hall. unfold Memory.merge_free_blocks.
  assert (Hlen : (0 < length v)%nat) by (destruct v; [congruence | simpl; lia]).
  destruct (merge_loop_returns P (S (length (Memory.sort_by_ptr v))) HP
              (Memory.sort_by_ptr v) 0) as (v' & -> & Hl & Hall');
    rewrite ?sort_by_ptr_length; try lia.
  - now apply sort_by_ptr_Forall.
  - exists v'. rewrite sort_by_ptr_length in Hl. auto.
Qed.
(** ** Well-formed allocator states *)

Lemma block_ok_merged (cur next : Memory.FreeBlock) :
  Memory.block_ok cur -> Memory.block_ok next ->
  Memory.block_ok {| Memory.ptr := Memory.ptr cur;
                     Memory.size := wrap (Memory.size cur + Memory.size next) |}.
Proof. intros [Hp _] _. split; [exact Hp | apply wrap_fits]. Qed.

Lemma initialize_pool_well_formed (mmap_result : Z) (st : Memory.Impl) :
  0 <= mmap_result -> Memory.well_formed st ->
  Memory.well_formed (Memory.initialize_pool mmap_result st).
Proof.
  intros Hr (Hps & Hfree & Hlive). unfold Memory.initialize_pool, Memory.well_formed; simpl.
  split; [exact Hps | split; [|exact Hlive]].
  set (pm := if mmap_result =? Memory.MAP_FAILED then nullptr else mmap_result).
  assert (Hpm : 0 <= pm) by (unfold pm, nullptr; destruct (_ =? _); lia).
  destruct (Z.eqb_spec pm nullptr) as [|Hne]; [exact Hfree|].
  unfold push_back. apply Forall_app. split; [exact Hfree|].
  constructor; [|constructor]. split; simpl; [unfold nullptr in Hne; lia | exact Hps].
Qed.

Lemma ctor_well_formed (pool_size mmap_result : Z) :
  Memory.fits_size_t pool_size -> 0 <= mmap_result ->
  Memory.well_formed (Memory.Impl_ctor pool_size mmap_result).
Proof.
  intros Hps Hr. apply initialize_pool_well_formed; [exact Hr|].
  split; [exact Hps | split; [constructor | apply map_Forall_empty]].
Qed.

Lemma reset_well_formed (mmap_result : Z) (st : Memory.Impl) :
  0 <= mmap_result -> Memory.well_formed st ->
  Memory.well_formed (Memory.reset mmap_result st).
Proof.
  intros Hr (Hps & _). apply initialize_pool_well_formed; [exact Hr|].
  split; [exact Hps | split; [constructor | apply map_Forall_empty]].
Qed.

(** What [allocate] does when the scan finds block [i]. *)
Lemma allocate_hit (st : Memory.Impl) (size_arg alignment : Z) (i : nat) (it : Memory.FreeBlock) :
  Memory.first_fit (Memory.aligned_size size_arg alignment) (Memory.free_blocks_ st) 0
  = Some (i, it) ->
  let aligned := Memory.aligned_size size_arg alignment in
  let r := Memory.allocate st size_arg alignment in
  fst r = Memory.ptr it
  /\ Memory.free_blocks_ (snd r)
     = (if wrap (aligned + alignment) <? Memory.size it
        then push_back (delete i (Memory.free_blocks_ st))
               {| Memory.ptr := Memory.ptr it + aligned;
                  Memory.size := wrap (Memory.size it - aligned) |}
        else delete i (Memory.free_blocks_ st))
  /\ Memory.allocated_blocks_ (snd r) = <[Memory.ptr it := aligned]> (Memory.allocated_blocks_ st)
  /\ Memory.pool_size_ (snd r) = Memory.pool_size_ st
  /\ Memory.pool_memory_ (snd r) = Memory.pool_memory_ st.
Proof.
  intros Hfit aligned r. subst r aligned. unfold Memory.allocate.
  rewrite Hfit. simpl. repeat split.
Qed.

Lemma allocate_miss (st : Memory.Impl) (size_arg alignment : Z) :
  Memory.first_fit (Memory.aligned_size size_arg alignment) (Memory.free_blocks_ st) 0 = None ->
  Memory.allocate st size_arg alignment = (nullptr, st).
Proof. intros H. unfold Memory.allocate. now rewrite H. Qed.

Lemma first_fit_lookup (aligned : Z) (blocks : list Memory.FreeBlock) (i : nat)
    (it : Memory.FreeBlock) :
  Memory.first_fit aligned blocks 0 = Some (i, it) ->
  blocks !! i = Some it /\ aligned <= Memory.size it.
Proof.
  intros H. destruct (first_fit_Some _ _ _ _ _ H) as (_ & Hl & Hs & _).
  replace (i - 0)%nat with i in Hl by lia. auto.
Qed.

Lemma allocate_well_formed (st : Memory.Impl) (size_arg alignment : Z) :
  Memory.well_formed st -> Memory.well_formed (snd (Memory.allocate st size_arg alignment)).
Proof.
  intros (Hps & Hfree & Hlive).
  destruct (Memory.first_fit (Memory.aligned_size size_arg alignment)
              (Memory.free_blocks_ st) 0) as [[i it]|] eqn:Hfit.
  2:{ rewrite (allocate_miss _ _ _ Hfit). simpl. split; [exact Hps | now split]. }
  destruct (first_fit_lookup _ _ _ _ Hfit) as (Hit & Hsz).
  destruct (allocate_hit st size_arg alignment i it Hfit) as (_ & Hf & Ha & Hp & _).
  pose proof (Forall_lookup_1 _ _ _ _ Hfree Hit) as [Hptr Hsize].
  pose proof (aligned_size_fits size_arg alignment) as Hal.
  unfold Memory.well_formed. rewrite Hf, Ha, Hp. split; [exact Hps | split].
  - destruct (wrap _ <? Memory.size it).
    + unfold push_back. apply Forall_app. split; [now apply Forall_delete|].
      constructor; [|constructor]. split; simpl; [|apply wrap_fits].
      unfold Memory.fits_size_t in Hal. lia.
    + now apply Forall_delete.
  - apply map_Forall_insert_2; [|exact Hlive]. now split.
Qed.

Lemma deallocate_cases (st : Memory.Impl) (p size_arg : Z) :
  (p = nullptr \/ Memory.allocated_blocks_ st !! p = None) /\ Memory.deallocate st p size_arg = Returns st
  \/ exists block_size free,
       p <> nullptr
       /\ Memory.allocated_blocks_ st !! p = Some block_size
       /\ Memory.merge_free_blocks
            (push_back (Memory.free_blocks_ st) {| Memory.ptr := p; Memory.size := block_size |})
          = Returns free
       /\ (0 < length free <= S (length (Memory.free_blocks_ st)))%nat
       /\ (Forall Memory.block_ok (Memory.free_blocks_ st) ->
           Memory.block_ok {| Memory.ptr := p; Memory.size := block_size |} ->
           Forall Memory.block_ok free)
       /\ exists st', Memory.deallocate st p size_arg = Returns st'
            /\ Memory.free_blocks_ st' = free
            /\ Memory.allocated_blocks_ st' = delete p (Memory.allocated_blocks_ st)
            /\ Memory.pool_size_ st' = Memory.pool_size_ st
            /\ Memory.pool_memory_ st' = Memory.pool_memory_ st.
Proof.
  unfold Memory.deallocate.
  destruct (Z.eqb_spec p nullptr) as [->|Hne]; [left; split; [now left | reflexivity]|].
  destruct (Memory.allocated_blocks_ st !! p) as [block_size|] eqn:Hp;
    [|left; split; [now right | reflexivity]].
  right. exists block_size.
  set (v := push_back (Memory.free_blocks_ st) {| Memory.ptr := p; Memory.size := block_size |}).
  assert (Hv : v <> []) by (unfold v, push_back; now destruct (Memory.free_blocks_ st)).
  destruct (merge_free_blocks_returns (fun _ => True) v (fun _ _ _ _ => I) Hv)
    as (free & Hm & Hl & _); [apply Forall_forall; tauto|].
  exists free. repeat split; try assumption; try lia.
  - unfold v in Hl. rewrite length_push_back in Hl. lia.
  - intros Hfree Hb.
    destruct (merge_free_blocks_returns Memory.block_ok v block_ok_merged Hv)
      as (free' & Hm' & _ & Hall).
    + unfold v, push_back. apply Forall_app. split; [exact Hfree | now constructor].
    + congruence.
  - rewrite Hm. simpl. eexists. split; [reflexivity|]. now repeat split.
Qed.

(** X4. [deallocate] always returns: the block it has just pushed keeps
    the free list non-empty, and the merge loop stays inside a non-empty
    vector. *)
Lemma deallocate_returns (st : Memory.Impl) (p size_arg : Z) :
  exists st', Memory.deallocate st p size_arg = Returns st'.
Proof.
  destruct (deallocate_cases st p size_arg) as [[_ H]|(bs & free & _ & _ & _ & _ & _ & st' & H & _)];
    eauto.
Qed.

Lemma deallocate_well_formed (st st' : Memory.Impl) (p size_arg : Z) :
  Memory.well_formed st -> Memory.deallocate st p size_arg = Returns st' ->
  Memory.well_formed st'.
Proof.
  intros (Hps & Hfree & Hlive) Hd.
  destruct (deallocate_cases st p size_arg)
    as [[_ H]|(bs & free & _ & Hp & _ & _ & Hall & st'' & H & Hf & Ha & Hpsz & _)].
  - rewrite H in Hd. injection Hd as <-. split; [exact Hps | now split].
  - rewrite H in Hd. injection Hd as <-.
    unfold Memory.well_formed. rewrite Hf, Ha, Hpsz. split; [exact Hps | split].
    + apply Hall; [exact Hfree|]. exact (Hlive _ _ Hp).
    + now apply map_Forall_delete.
Qed.

Lemma compact_cases (st : Memory.Impl) :
  Memory.free_blocks_ st = [] /\ Memory.compact st = Undefined
  \/ exists free st',
       Memory.compact st = Returns st'
       /\ Memory.free_blocks_ st' = free
       /\ (0 < length free <= length (Memory.free_blocks_ st))%nat
       /\ (Forall Memory.block_ok (Memory.free_blocks_ st) -> Forall Memory.block_ok free)
       /\ Memory.allocated_blocks_ st' = Memory.allocated_blocks_ st
       /\ Memory.pool_size_ st' = Memory.pool_size_ st.
Proof.
  unfold Memory.compact. destruct (Memory.free_blocks_ st) as [|b v] eqn:E.
  - left. split; reflexivity.
  - right.
    destruct (merge_free_blocks_returns (fun _ => True) (b :: v) (fun _ _ _ _ => I))
      as (free & Hm & Hl & _); [discriminate | apply Forall_forall; tauto |].
    exists free. rewrite Hm. simpl. eexists. split; [reflexivity|].
    split; [reflexivity | split; [simpl in Hl; lia | split; [|split; reflexivity]]].
    intros Hall.
    destruct (merge_free_blocks_returns Memory.block_ok (b :: v) block_ok_merged)
      as (free' & Hm' & _ & Hall'); [discriminate | exact Hall | congruence].
Qed.

Lemma compact_well_formed (st st' : Memory.Impl) :
  Memory.well_formed st -> Memory.compact st = Returns st' -> Memory.well_formed st'.
Proof.
  intros (Hps & Hfree & Hlive) Hc.
  destruct (compact_cases st) as [[_ H]|(free & st'' & H & Hf & _ & Hall & Ha & Hpsz)];
    [congruence|].
  rewrite H in Hc. injection Hc as <-.
  unfold Memory.well_formed. rewrite Hf, Ha, Hpsz. split; [exact Hps | split; auto].
Qed.

Lemma alloc_run_well_formed (calls : list Memory.alloc_call) :
  forall st st', Forall Memory.call_ok calls -> Memory.well_formed st ->
    Memory.alloc_run st calls = Returns st' -> Memory.well_formed st'.
Proof.
  induction calls as [|c calls IH]; intros st st' Hok Hwf; simpl.
  - now intros [= <-].
  - inversion Hok as [|? ? Hc Hcs]; subst.
    destruct (Memory.alloc_step st c) as [st1| |] eqn:Hstep; try discriminate.
    change (Memory.alloc_run st1 calls = Returns st' -> Memory.well_formed st').
    apply IH; [exact Hcs|].
    destruct c as [s a|p s| |r]; simpl in Hstep.
    + injection Hstep as <-. now apply allocate_well_formed.
    + eauto using deallocate_well_formed.
    + eauto using compact_well_formed.
    + injection Hstep as <-. now apply reset_well_formed.
Qed.

(** Every reachable state is well formed: no block on the free list and no
    live allocation starts at the null address. *)
Lemma reachable_well_formed (st : Memory.Impl) :
  Memory.reachable st -> Memory.well_formed st.
Proof.
  intros (ps & r & calls & Hps & Hr & Hok & Hrun).
  eapply alloc_run_well_formed; eauto using ctor_well_formed.
Qed.
(** ** Counting the bytes of the arena *)

Lemma sum_sizes_app (l1 l2 : list Memory.FreeBlock) :
  foldr (fun b acc => Memory.size b + acc) 0 (l1 ++ l2)
  = foldr (fun b acc => Memory.size b + acc) 0 l1
    + foldr (fun b acc => Memory.size b + acc) 0 l2.
Proof. induction l1 as [|b l1 IH]; simpl; lia. Qed.

Lemma sum_sizes_delete (l : list Memory.FreeBlock) (i : nat) (it : Memory.FreeBlock) :
  l !! i = Some it ->
  foldr (fun b acc => Memory.size b + acc) 0 l
  = Memory.size it + foldr (fun b acc => Memory.size b + acc) 0 (delete i l).
Proof.
  revert i. induction l as [|b l IH]; intros [|i]; simpl; try discriminate.
  - now intros [= ->].
  - intros H. rewrite (IH _ H). lia.
Qed.

Lemma sum_sizes_nonneg (l : list Memory.FreeBlock) :
  Forall Memory.block_ok l -> 0 <= foldr (fun b acc => Memory.size b + acc) 0 l.
Proof.
  induction 1 as [|b l [_ [H _]] _ IH]; simpl; lia.
Qed.

Lemma live_bytes_insert (m : gmap Z Z) (p s : Z) :
  m !! p = None ->
  map_fold (fun _ s acc => s + acc) 0 (<[p := s]> m)
  = s + map_fold (fun _ s acc => s + acc) 0 m.
Proof. intros H. apply (map_fold_insert_L (fun _ s acc => s + acc)); [intros; lia | exact H]. Qed.

Lemma live_bytes_delete (m : gmap Z Z) (p s : Z) :
  m !! p = Some s ->
  map_fold (fun _ s acc => s + acc) 0 m
  = s + map_fold (fun _ s acc => s + acc) 0 (delete p m).
Proof. intros H. apply (map_fold_delete_L (fun _ s acc => s + acc)); [intros; lia | exact H]. Qed.

(** The free bytes after a successful [allocate]: the chosen block leaves
    the list, and only when it is split does its tail come back. *)
Lemma allocate_free_bytes (st : Memory.Impl) (size_arg alignment : Z) (i : nat)
    (it : Memory.FreeBlock) :
  Memory.well_formed st ->
  Memory.first_fit (Memory.aligned_size size_arg alignment) (Memory.free_blocks_ st) 0
  = Some (i, it) ->
  let aligned := Memory.aligned_size size_arg alignment in
  Memory.free_bytes (snd (Memory.allocate st size_arg alignment))
  = Memory.free_bytes st - Memory.size it
    + (if wrap (aligned + alignment) <? Memory.size it then Memory.size it - aligned else 0).
Proof.
  intros (_ & Hfree & _) Hfit aligned.
  destruct (allocate_hit st size_arg alignment i it Hfit) as (_ & Hf & _).
  destruct (first_fit_lookup _ _ _ _ Hfit) as (Hit & Hsz).
  pose proof (Forall_lookup_1 _ _ _ _ Hfree Hit) as [_ Hsize].
  pose proof (aligned_size_fits size_arg alignment) as Hal.
  unfold Memory.free_bytes. rewrite Hf, (sum_sizes_delete _ _ _ Hit).
  fold aligned in Hsz, Hal |- *.
  destruct (wrap (aligned + alignment) <? Memory.size it); [|lia].
  unfold push_back. rewrite sum_sizes_app. simpl.
  rewrite wrap_small; [lia|]. unfold Memory.fits_size_t in *. lia.
Qed.

(** X6. The bytes that [allocate] takes off the free list and does not
    record: when the chosen block is not split, the allocation is recorded
    with the rounded size and the rest of the block belongs to nobody;
    when the block is split, free bytes plus live bytes are conserved. *)
Lemma allocate_accounting (st : Memory.Impl) (size_arg alignment : Z) (i : nat)
    (it : Memory.FreeBlock) :
  Memory.well_formed st ->
  Memory.first_fit (Memory.aligned_size size_arg alignment) (Memory.free_blocks_ st) 0
  = Some (i, it) ->
  Memory.allocated_blocks_ st !! Memory.ptr it = None ->
  let aligned := Memory.aligned_size size_arg alignment in
  let st' := snd (Memory.allocate st size_arg alignment) in
  Memory.free_bytes st' + Memory.live_bytes st'
  = Memory.free_bytes st + Memory.live_bytes st
    - (if wrap (aligned + alignment) <? Memory.size it then 0 else Memory.size it - aligned).
Proof.
  intros Hwf Hfit Hfresh aligned st'. subst st'.
  rewrite (allocate_free_bytes st size_arg alignment i it Hwf Hfit).
  destruct (allocate_hit st size_arg alignment i it Hfit) as (_ & _ & Ha & _).
  unfold Memory.live_bytes. rewrite Ha, (live_bytes_insert _ _ _ Hfresh).
  fold aligned. destruct (wrap (aligned + alignment) <? Memory.size it); lia.
Qed.

Lemma allocate_accounting_witness :
  let st := Memory.Impl_ctor 1024 65536 in
  let st' := snd (Memory.allocate st 1016 8) in
  Memory.free_bytes st' + Memory.live_bytes st'
  = Memory.free_bytes st + Memory.live_bytes st - (1024 - 1016).
Proof.
  intros st st'.
  assert (Hwf : Memory.well_formed st)
    by (apply ctor_well_formed; [unfold Memory.fits_size_t|]; lia).
  exact (allocate_accounting st 1016 8 0%nat {| Memory.ptr := 65536; Memory.size := 1024 |}
           Hwf eq_refl eq_refl).
Defined.

(** ** The arena is never oversubscribed *)

Lemma sum_sizes_Permutation (l l' : list Memory.FreeBlock) :
  l ≡ₚ l' ->
  foldr (fun b acc => Memory.size b + acc) 0 l
  = foldr (fun b acc => Memory.size b + acc) 0 l'.
Proof. induction 1; simpl; lia. Qed.

Lemma sum_sizes_insert (l : list Memory.FreeBlock) (i : nat) (b b' : Memory.FreeBlock) :
  l !! i = Some b ->
  foldr (fun b acc => Memory.size b + acc) 0 (<[i := b']> l)
  = foldr (fun b acc => Memory.size b + acc) 0 l - Memory.size b + Memory.size b'.
Proof.
  revert i. induction l as [|a l IH]; intros [|i]; simpl; try discriminate.
  - intros [= ->]. lia.
  - intros H. rewrite (IH _ H). lia.
Qed.

(** Two neighbours of a well-formed list weigh no more than the list. *)
Lemma sum_sizes_neighbours (v : list Memory.FreeBlock) (j : nat) (cur next : Memory.FreeBlock) :
  Forall Memory.block_ok v -> v !! j = Some cur -> v !! S j = Some next ->
  0 <= Memory.size cur /\ 0 <= Memory.size next
  /\ Memory.size cur + Memory.size next <= foldr (fun b acc => Memory.size b + acc) 0 v.
Proof.
  intros Hall Hcur Hnext.
  pose proof (Forall_lookup_1 _ _ _ _ Hall Hcur) as [_ [Hc _]].
  pose proof (Forall_lookup_1 _ _ _ _ Hall Hnext) as [_ [Hn _]].
  rewrite (sum_sizes_delete v j cur Hcur).
  assert (Hnext' : delete j v !! j = Some next)
    by (rewrite list_lookup_delete_ge by lia; exact Hnext).
  rewrite (sum_sizes_delete _ j next Hnext').
  pose proof (sum_sizes_nonneg (delete j (delete j v))
                (Forall_delete _ _ _ (Forall_delete _ _ _ Hall))). lia.
Qed.

(** A merge of two neighbours keeps the free bytes, as long as they fit a
    [size_t]. *)
Lemma merge_step_bytes (v : list Memory.FreeBlock) (j : nat) (cur next : Memory.FreeBlock) :
  Forall Memory.block_ok v -> v !! j = Some cur -> v !! S j = Some next ->
  foldr (fun b acc => Memory.size b + acc) 0 v < 2 ^ 64 ->
  foldr (fun b acc => Memory.size b + acc) 0
    (delete (S j)
       (<[j := {| Memory.ptr := Memory.ptr cur;
                  Memory.size := wrap (Memory.size cur + Memory.size next) |}]> v))
  = foldr (fun b acc => Memory.size b + acc) 0 v.
Proof.
  intros Hall Hcur Hnext Hfit.
  destruct (sum_sizes_neighbours v j cur next Hall Hcur Hnext) as (Hc & Hn & Hle).
  set (merged := {| Memory.ptr := Memory.ptr cur;
                    Memory.size := wrap (Memory.size cur + Memory.size next) |}).
  assert (Hnext' : <[j := merged]> v !! S j = Some next)
    by (rewrite list_lookup_insert_ne by lia; exact Hnext).
  pose proof (sum_sizes_delete _ _ _ Hnext') as E1.
  pose proof (sum_sizes_insert v j cur merged Hcur) as E2.
  assert (Hm : Memory.size merged = Memory.size cur + Memory.size next).
  { simpl. apply wrap_small. unfold Memory.fits_size_t. lia. }
  lia.
Qed.

Lemma merge_free_blocks_bytes (v : list Memory.FreeBlock) :
  v <> [] -> Forall Memory.block_ok v ->
  foldr (fun b acc => Memory.size b + acc) 0 v < 2 ^ 64 ->
  exists v', Memory.merge_free_blocks v = Returns v'
             /\ foldr (fun b acc => Memory.size b + acc) 0 v'
                = foldr (fun b acc => Memory.size b + acc) 0 v.
Proof.
  intros Hne Hall Hfit. unfold Memory.merge_free_blocks.
  assert (Hlen : (0 < length v)%nat) by (destruct v; [congruence | simpl; lia]).
  set (total := foldr (fun b acc => Memory.size b + acc) 0 v) in *.
  destruct (merge_loop_invariant
              (fun w => Forall Memory.block_ok w
                        /\ foldr (fun b acc => Memory.size b + acc) 0 w = total)
              (S (length (Memory.sort_by_ptr v))))
    with (v := Memory.sort_by_ptr v) (i := 0) as (v' & -> & _ & _ & Hsum);
    rewrite ?sort_by_ptr_length; try lia.
  - intros w j cur next [Hw Hs] Hcur Hnext. split.
    + apply Forall_delete, Forall_insert; [exact Hw|].
      apply block_ok_merged; eapply Forall_lookup_1; eauto.
    + rewrite merge_step_bytes; auto. lia.
  - split; [now apply sort_by_ptr_Forall|].
    apply sum_sizes_Permutation, sort_by_ptr_Permutation.
  - exists v'. split; [reflexivity | exact Hsum].
Qed.

Lemma live_bytes_nonneg (m : gmap Z Z) :
  map_Forall (fun p s => 0 < p /\ Memory.fits_size_t s) m ->
  0 <= map_fold (fun _ s acc => s + acc) 0 m.
Proof.
  apply (map_fold_weak_ind
           (fun r m => map_Forall (fun p s => 0 < p /\ Memory.fits_size_t s) m -> 0 <= r)).
  - intros _. lia.
  - intros i x m' r Hi IH Hall.
    apply map_Forall_insert in Hall as [[_ [Hx _]] Hall']; [|exact Hi].
    specialize (IH Hall'). lia.
Qed.

(** Recording an allocation adds at most its size: an entry that was
    already there for the address is overwritten. *)
Lemma live_bytes_insert_le (m : gmap Z Z) (p s : Z) :
  map_Forall (fun p s => 0 < p /\ Memory.fits_size_t s) m ->
  map_fold (fun _ s acc => s + acc) 0 (<[p := s]> m)
  <= s + map_fold (fun _ s acc => s + acc) 0 m.
Proof.
  intros Hall. destruct (m !! p) as [old|] eqn:Hp.
  - rewrite <- (insert_delete_eq m), live_bytes_insert by apply lookup_delete_eq.
    rewrite (live_bytes_delete m p old Hp).
    destruct (Hall p old Hp) as [_ [Hold _]]. lia.
  - rewrite live_bytes_insert by exact Hp. lia.
Qed.

Lemma initialize_pool_bytes (mmap_result : Z) (st : Memory.Impl) :
  Memory.free_blocks_ st = [] -> Memory.fits_size_t (Memory.pool_size_ st) ->
  0 <= Memory.free_bytes (Memory.initialize_pool mmap_result st) <= Memory.pool_size_ st
  /\ Memory.live_bytes (Memory.initialize_pool mmap_result st) = Memory.live_bytes st
  /\ Memory.pool_size_ (Memory.initialize_pool mmap_result st) = Memory.pool_size_ st.
Proof.
  intros Hfree [Hps _]. unfold Memory.free_bytes, Memory.initialize_pool; simpl.
  rewrite Hfree. destruct (_ =? nullptr); simpl; repeat split; lia.
Qed.

Lemma allocate_bytes_le (st : Memory.Impl) (size_arg alignment : Z) :
  Memory.well_formed st ->
  let st' := snd (Memory.allocate st size_arg alignment) in
  Memory.free_bytes st' + Memory.live_bytes st' <= Memory.free_bytes st + Memory.live_bytes st.
Proof.
  intros Hwf st'. subst st'.
  destruct (Memory.first_fit (Memory.aligned_size size_arg alignment)
              (Memory.free_blocks_ st) 0) as [[i it]|] eqn:Hfit.
  2:{ rewrite (allocate_miss _ _ _ Hfit). simpl. lia. }
  destruct (first_fit_lookup _ _ _ _ Hfit) as (Hit & Hsz).
  rewrite (allocate_free_bytes st size_arg alignment i it Hwf Hfit).
  destruct (allocate_hit st size_arg alignment i it Hfit) as (_ & _ & Ha & _).
  destruct Hwf as (_ & _ & Hlive).
  unfold Memory.live_bytes at 1. rewrite Ha.
  pose proof (live_bytes_insert_le (Memory.allocated_blocks_ st) (Memory.ptr it)
                (Memory.aligned_size size_arg alignment) Hlive) as Hle.
  fold (Memory.live_bytes st) in Hle.
  destruct (wrap _ <? Memory.size it); lia.
Qed.

Lemma deallocate_bytes (st st' : Memory.Impl) (p size_arg : Z) :
  Memory.well_formed st ->
  Memory.free_bytes st + Memory.live_bytes st <= Memory.pool_size_ st ->
  Memory.deallocate st p size_arg = Returns st' ->
  Memory.free_bytes st' + Memory.live_bytes st' = Memory.free_bytes st + Memory.live_bytes st.
Proof.
  intros (Hps & Hfree & Hlive) Hbound Hd.
  destruct (deallocate_cases st p size_arg)
    as [[_ H]|(bs & free & _ & Hp & Hm & _ & _ & st'' & H & Hf & Ha & _)];
    rewrite H in Hd; injection Hd as <-; [reflexivity|].
  pose proof (live_bytes_delete _ _ _ Hp) as Hl. fold (Memory.live_bytes st) in Hl.
  pose proof (live_bytes_nonneg _ (map_Forall_delete _ _ p Hlive)) as Hrest.
  destruct (Hlive p bs Hp) as [Hpp Hbs].
  destruct (merge_free_blocks_bytes
              (push_back (Memory.free_blocks_ st) {| Memory.ptr := p; Memory.size := bs |}))
    as (free' & Hm' & Hsum).
  - unfold push_back. now destruct (Memory.free_blocks_ st).
  - unfold push_back. apply Forall_app. split; [exact Hfree|].
    constructor; [split; [exact Hpp | exact Hbs] | constructor].
  - unfold push_back. rewrite sum_sizes_app. simpl.
    fold (Memory.free_bytes st). unfold Memory.fits_size_t in Hps. lia.
  - assert (free' = free) by congruence. subst free'.
    unfold Memory.free_bytes at 1, Memory.live_bytes at 1. rewrite Hf, Ha, Hsum.
    unfold push_back. rewrite sum_sizes_app. simpl.
    fold (Memory.free_bytes st). lia.
Qed.

Lemma compact_bytes (st st' : Memory.Impl) :
  Memory.well_formed st ->
  Memory.free_bytes st + Memory.live_bytes st <= Memory.pool_size_ st ->
  Memory.compact st = Returns st' ->
  Memory.free_bytes st' + Memory.live_bytes st' = Memory.free_bytes st + Memory.live_bytes st.
Proof.
  intros (Hps & Hfree & Hlive) Hbound Hc.
  destruct (compact_cases st) as [[_ H]|(free & st'' & H & Hf & _ & _ & Ha & _)];
    [congruence|].
  rewrite H in Hc. injection Hc as <-.
  pose proof (live_bytes_nonneg _ Hlive) as Hl. fold (Memory.live_bytes st) in Hl.
  destruct (merge_free_blocks_bytes (Memory.free_blocks_ st)) as (free' & Hm' & Hsum).
  - intros E. unfold Memory.compact in H. rewrite E in H. discriminate.
  - exact Hfree.
  - fold (Memory.free_bytes st). unfold Memory.fits_size_t in Hps. lia.
  - unfold Memory.compact in H. rewrite Hm' in H. simpl in H. injection H as <-.
    unfold Memory.free_bytes, Memory.live_bytes. simpl. now rewrite Hsum.
Qed.

Lemma alloc_step_pool_size (st st' : Memory.Impl) (c : Memory.alloc_call) :
  Memory.alloc_step st c = Returns st' -> Memory.pool_size_ st' = Memory.pool_size_ st.
Proof.
  destruct c as [s a|p s| |r]; simpl.
  - intros [= <-].
    destruct (Memory.first_fit (Memory.aligned_size s a) (Memory.free_blocks_ st) 0)
      as [[i it]|] eqn:Hfit; [|now rewrite (allocate_miss _ _ _ Hfit)].
    destruct (first_fit_lookup _ _ _ _ Hfit) as (Hit & _).
    now destruct (allocate_hit st s a i it Hfit) as (_ & _ & _ & H & _).
  - intros Hd. destruct (deallocate_cases st p s)
      as [[_ H]|(bs & free & _ & _ & _ & _ & _ & st'' & H & _ & _ & Hps & _)];
      rewrite H in Hd; injection Hd as <-; auto.
  - intros Hc. destruct (compact_cases st) as [[_ H]|(free & st'' & H & _ & _ & _ & _ & Hps)];
      rewrite H in Hc; [discriminate|]. now injection Hc as <-.
  - now intros [= <-].
Qed.

Lemma alloc_run_bytes (calls : list Memory.alloc_call) :
  forall st st', Forall Memory.call_ok calls -> Memory.well_formed st ->
    Memory.free_bytes st + Memory.live_bytes st <= Memory.pool_size_ st ->
    Memory.alloc_run st calls = Returns st' ->
    Memory.free_bytes st' + Memory.live_bytes st' <= Memory.pool_size_ st'.
Proof.
  induction calls as [|c calls IH]; intros st st' Hok Hwf Hb; simpl.
  - now intros [= <-].
  - inversion Hok as [|? ? Hc Hcs]; subst.
    destruct (Memory.alloc_step st c) as [st1| |] eqn:Hstep; try discriminate.
    change (Memory.alloc_run st1 calls = Returns st' ->
            Memory.free_bytes st' + Memory.live_bytes st' <= Memory.pool_size_ st').
    pose proof (alloc_step_pool_size _ _ _ Hstep) as Hps.
    assert (Hwf1 : Memory.well_formed st1).
    { apply (alloc_run_well_formed [c] st st1); [now constructor | exact Hwf |].
      simpl. now rewrite Hstep. }
    apply IH; [exact Hcs | exact Hwf1 |]. rewrite Hps.
    destruct c as [s a|p s| |r]; simpl in Hstep.
    + injection Hstep as <-. pose proof (allocate_bytes_le st s a Hwf). simpl in *. lia.
    + rewrite (deallocate_bytes st st1 p s Hwf Hb Hstep). exact Hb.
    + rewrite (compact_bytes st st1 Hwf Hb Hstep). exact Hb.
    + injection Hstep as <-. destruct Hwf as (Hfit & _).
      destruct (initialize_pool_bytes r
                  {| Memory.pool_size_ := Memory.pool_size_ st;
                     Memory.pool_memory_ := Memory.pool_memory_ st;
                     Memory.free_blocks_ := [];
                     Memory.allocated_blocks_ := ∅;
                     Memory.allocated_size_ := 0;
                     Memory.stats_ := Memory.MemoryStats_zero |} eq_refl Hfit)
        as (Hf & Hl & _).
      unfold Memory.reset. rewrite Hl. simpl in *. unfold Memory.live_bytes. simpl.
      rewrite map_fold_empty. lia.
Qed.

(** X7. In every reachable state the free bytes and the live bytes
    together stay within the pool: bytes can be lost to nobody (by
    [allocate] without a split), and are never counted twice. *)
Theorem reachable_bytes_within_pool (st : Memory.Impl) :
  Memory.reachable st ->
  0 <= Memory.free_bytes st /\ 0 <= Memory.live_bytes st
  /\ Memory.free_bytes st + Memory.live_bytes st <= Memory.pool_size_ st.
Proof.
  intros Hreach. pose proof (reachable_well_formed st Hreach) as (Hps & Hfree & Hlive).
  split; [now apply sum_sizes_nonneg | split; [now apply live_bytes_nonneg|]].
  destruct Hreach as (ps & r & calls & Hfit & Hr & Hok & Hrun).
  apply (alloc_run_bytes calls (Memory.Impl_ctor ps r) st Hok); auto.
  - now apply ctor_well_formed.
  - destruct (initialize_pool_bytes r
                {| Memory.pool_size_ := ps;
                   Memory.pool_memory_ := nullptr;
                   Memory.free_blocks_ := [];
                   Memory.allocated_blocks_ := ∅;
                   Memory.allocated_size_ := 0;
                   Memory.stats_ := Memory.MemoryStats_zero |} eq_refl Hfit)
      as (Hf & Hl & Hp).
    unfold Memory.Impl_ctor. rewrite Hl, Hp. unfold Memory.live_bytes. simpl.
    rewrite map_fold_empty. simpl in Hf. lia.
Qed.

Lemma reachable_bytes_within_pool_witness :
  let st := snd (Memory.allocate (Memory.Impl_ctor 1024 65536) 1016 8) in
  Memory.reachable st
  /\ Memory.free_bytes st + Memory.live_bytes st <= Memory.pool_size_ st.
Proof.
  intros st.
  assert (H : Memory.reachable st).
  { exists 1024, 65536, [Memory.call_allocate 1016 8].
    split; [unfold Memory.fits_size_t; lia | split; [lia | split; [|reflexivity]]].
    repeat constructor. }
  split; [exact H|]. exact (proj2 (proj2 (reachable_bytes_within_pool st H))).
Defined.

(** ** Alignment of the returned pointers *)









(** ** The allocator against its specification *)

Lemma reachable_ctor (pool_size mmap_result : Z) :
  Memory.fits_size_t pool_size -> 0 <= mmap_result ->
  Memory.reachable (Memory.Impl_ctor pool_size mmap_result).
Proof.
  intros Hps Hr. exists pool_size, mmap_result, []. repeat split; try apply Hps; auto.
Qed.

(** What [allocate] does on every reachable allocator: it returns the null
    pointer exactly when no free block is as large as the request rounded
    to the alignment on [size_t], the number that the loop of the source
    compares, and then leaves the state as it was; it has no throwing
    path; a non-null result is the start of a free block that is large
    enough for the rounded request, and for the request itself whenever
    the rounding does not overflow; the arena never grows (same pool size
    and base, and the free bytes do not increase).  In a pool of 1024
    bytes, allocating 1024 bytes succeeds and the next [allocate(1)]
    returns the null pointer.  Where the rounding overflows, the rounded
    request is not the request: [allocate_size_max_is_granted] below. *)
Theorem allocate_nullptr_iff_exhausted (st : Memory.Impl) (size_arg alignment : Z) :
  Memory.reachable st ->
  let aligned := Memory.aligned_size size_arg alignment in
  let r := Memory.allocate st size_arg alignment in
  (fst r = nullptr <-> Forall (fun b => Memory.size b < aligned) (Memory.free_blocks_ st))
  /\ (fst r = nullptr -> snd r = st)
  /\ (fst r <> nullptr ->
        exists it, it ∈ Memory.free_blocks_ st /\ fst r = Memory.ptr it
                   /\ aligned <= Memory.size it
                   /\ (0 <= size_arg -> 1 <= alignment ->
                       size_arg + alignment - 1 < 2 ^ 64 -> size_arg <= Memory.size it))
  /\ Memory.pool_size_ (snd r) = Memory.pool_size_ st
  /\ Memory.pool_memory_ (snd r) = Memory.pool_memory_ st
  /\ Memory.free_bytes (snd r) <= Memory.free_bytes st
  /\ (forall mmap_result, 0 < mmap_result < Memory.MAP_FAILED ->
        let r1 := Memory.allocate (Memory.Impl_ctor 1024 mmap_result) 1024 8 in
        fst r1 = mmap_result /\ fst (Memory.allocate (snd r1) 1 8) = nullptr).
Proof.
  intros Hreach aligned r.
  pose proof (reachable_well_formed st Hreach) as Hwf.
  destruct (Memory.first_fit aligned (Memory.free_blocks_ st) 0) as [[i it]|] eqn:Hfit.
  - destruct (first_fit_lookup _ _ _ _ Hfit) as (Hit & Hsz).
    destruct (allocate_hit st size_arg alignment i it Hfit) as (Hp & _ & _ & Hps & Hpm).
    pose proof (allocate_free_bytes st size_arg alignment i it Hwf Hfit) as Hfb.
    destruct Hwf as (_ & Hfree & _).
    pose proof (Forall_lookup_1 _ _ _ _ Hfree Hit) as [Hptr Hsize].
    pose proof (aligned_size_fits size_arg alignment) as Hal.
    fold aligned in Hfb, Hal. fold r in Hp, Hps, Hpm, Hfb.
    assert (Hnn : fst r <> nullptr) by (unfold nullptr; lia).
    split; [|split; [|split; [|split; [|split; [|split]]]]].
    + split; [intros; contradiction|].
      intros Hall. apply first_fit_None with (i := 0%nat) in Hall. congruence.
    + intros; contradiction.
    + intros _. exists it. split; [eapply list_elem_of_lookup_2; eauto|].
      split; [exact Hp | split; [exact Hsz|]].
      intros Hs Ha Hno. pose proof (aligned_size_le_request size_arg alignment Hs Ha Hno).
      fold aligned in H. lia.
    + exact Hps.
    + exact Hpm.
    + rewrite Hfb. unfold Memory.fits_size_t in *.
      destruct (wrap (aligned + alignment) <? Memory.size it); lia.
    + intros mmap_result Hm. unfold Memory.Impl_ctor, Memory.initialize_pool.
      destruct (Z.eqb_spec mmap_result Memory.MAP_FAILED) as [|_]; [lia|].
      destruct (Z.eqb_spec mmap_result nullptr) as [E|_]; [unfold nullptr in E; lia|].
      split; reflexivity.
  - assert (Hr : r = (nullptr, st)) by (apply allocate_miss; exact Hfit).
    rewrite Hr. simpl.
    split; [|split; [|split; [|split; [|split; [|split]]]]]; try reflexivity; try lia.
    + split; [intros _; eapply first_fit_None; eauto | reflexivity].
    + intros mmap_result Hm. unfold Memory.Impl_ctor, Memory.initialize_pool.
      destruct (Z.eqb_spec mmap_result Memory.MAP_FAILED) as [|_]; [lia|].
      destruct (Z.eqb_spec mmap_result nullptr) as [E|_]; [unfold nullptr in E; lia|].
      split; reflexivity.
Qed.

Lemma allocate_nullptr_iff_exhausted_witness :
  Memory.reachable (Memory.Impl_ctor 1024 65536)
  /\ fst (Memory.allocate (Memory.Impl_ctor 1024 65536) 2048 8) = nullptr
  /\ fst (Memory.allocate (Memory.Impl_ctor 1024 65536) 1024 8) = 65536.
Proof.
  assert (H : Memory.reachable (Memory.Impl_ctor 1024 65536)).
  { apply reachable_ctor; [unfold Memory.fits_size_t|]; lia. }
  split; [exact H|].
  destruct (allocate_nullptr_iff_exhausted (Memory.Impl_ctor 1024 65536) 2048 8 H)
    as ([_ Hnull] & _).
  split; [|reflexivity].
  apply Hnull. repeat constructor.
Defined.

(** C3. A request that no free block can satisfy is granted when its
    rounding overflows.  On a fresh pool of 1024 bytes mapped at 65536,
    whose only free block has 1024 bytes, [allocate(SIZE_MAX, 8)] computes
    [SIZE_MAX + 8 - 1] on [size_t], which wraps to 6, so the rounded size
    is 0; the first block is large enough for 0 bytes, and the call
    returns 65536 instead of the null pointer, records an allocation of 0
    bytes at that address, and leaves the whole pool on the free list at
    the same address. *)
Theorem allocate_size_max_is_granted :
  let st := Memory.Impl_ctor 1024 65536 in
  let r := Memory.allocate st (2 ^ 64 - 1) 8 in
  Forall (fun b => Memory.size b < 2 ^ 64 - 1) (Memory.free_blocks_ st)
  /\ wrap (2 ^ 64 - 1 + 8 - 1) = 6
  /\ Memory.aligned_size (2 ^ 64 - 1) 8 = 0
  /\ fst r = 65536
  /\ Memory.allocated_blocks_ (snd r) !! 65536 = Some 0
  /\ Memory.free_blocks_ (snd r) = [{| Memory.ptr := 65536; Memory.size := 1024 |}]
  /\ Memory.get_allocated_size (snd r) = 0.
Proof.
  split; [repeat constructor|].
  repeat (split; [vm_compute; reflexivity|]). vm_compute. reflexivity.
Qed.

(** C9. [deallocate] of the null pointer, or of an address that is not a
    live allocation, returns with the whole state (free list, allocation
    map, allocated total and statistics) as it was. *)
Theorem deallocate_unknown_pointer_is_noop (st : Memory.Impl) (p size_arg : Z) :
  p = nullptr \/ Memory.allocated_blocks_ st !! p = None ->
  Memory.deallocate st p size_arg = Returns st.
Proof.
  intros H. destruct (deallocate_cases st p size_arg)
    as [[_ Hd]|(bs & free & Hne & Hp & _)]; [exact Hd|].
  destruct H; congruence.
Qed.

Lemma deallocate_unknown_pointer_is_noop_witness :
  let st := snd (Memory.allocate (Memory.Impl_ctor 1024 65536) 8 8) in
  Memory.allocated_blocks_ st !! 65544 = None
  /\ Memory.deallocate st 65544 8 = Returns st
  /\ Memory.deallocate st nullptr 8 = Returns st.
Proof.
  set (st := snd (Memory.allocate (Memory.Impl_ctor 1024 65536) 8 8)).
  assert (H : Memory.allocated_blocks_ st !! 65544 = None) by (vm_compute; reflexivity).
  split; [exact H | split].
  - apply (deallocate_unknown_pointer_is_noop st 65544 8). right. exact H.
  - apply (deallocate_unknown_pointer_is_noop st nullptr 8). left. reflexivity.
Defined.

(** C1. The specification has the free bytes plus the live bytes equal
    the pool size at every point.  In a pool of 1024 bytes,
    [allocate(1016, 8)] takes the whole 1024-byte block off the free list
    without splitting it and records 1016 bytes: the free list is empty,
    1016 bytes are live, and 8 bytes of the arena belong to no block.
    Freeing the allocation puts back a block of 1016 bytes. *)
Theorem allocate_without_split_drops_slack :
  let st := snd (Memory.allocate (Memory.Impl_ctor 1024 65536) 1016 8) in
  Memory.pool_size_ st = 1024
  /\ Memory.free_blocks_ st = []
  /\ Memory.allocated_blocks_ st !! 65536 = Some 1016
  /\ Memory.free_bytes st + Memory.live_bytes st = 1016
  /\ exists st', Memory.deallocate st 65536 1016 = Returns st'
       /\ Memory.free_blocks_ st' = [ {| Memory.ptr := 65536; Memory.size := 1016 |} ]
       /\ Memory.free_bytes st' + Memory.live_bytes st' = 1016.
Proof.
  cbv zeta. repeat split; try (vm_compute; reflexivity).
  eexists. split; [vm_compute; reflexivity|]. split; vm_compute; reflexivity.
Qed.

(** C2. The specification has every non-null result of
    [allocate(size, alignment)] aligned to [alignment].  [allocate] rounds
    the size and returns the start of the chosen block unchanged: on a
    page-aligned arena at 65536, [allocate(8, 8)] returns 65536 and the
    next [allocate(16, 16)] returns 65544, which is 8 modulo 16.  The calls that [ManagedMemoryBlock<char>]
    and then [ManagedMemoryBlock<double>] make, [allocate(1, 1)] and
    [allocate(8, 8)], return 65536 and then 65537. *)
Theorem allocate_pointer_not_aligned :
  let r1 := Memory.allocate (Memory.Impl_ctor 1024 65536) 8 8 in
  let r2 := Memory.allocate (snd r1) 16 16 in
  let s1 := Memory.allocate (Memory.Impl_ctor 1024 65536) 1 1 in
  let s2 := Memory.allocate (snd s1) 8 8 in
  65536 mod 4096 = 0
  /\ fst r1 = 65536
  /\ fst r2 = 65544
  /\ fst r2 mod 16 = 8
  /\ fst s1 = 65536
  /\ fst s2 = 65537
  /\ fst s2 mod 8 = 1.
Proof. cbv zeta. repeat split; vm_compute; reflexivity. Qed.

(** X5. [compact] is undefined exactly on an empty free list. *)
Lemma compact_undefined_iff (st : Memory.Impl) :
  Memory.compact st = Undefined <-> Memory.free_blocks_ st = [].
Proof.
  destruct (compact_cases st) as [[E H]|(free & st' & H & Hf & Hl & _)].
  - tauto.
  - rewrite H. split; [discriminate|]. intros E. rewrite E in Hl. simpl in Hl. lia.
Qed.

(** C10. The specification has the merge pass stay inside the free-block
    vector in every reachable state.  After [allocate(1024, 8)] has taken the
    only block of a 1024-byte pool the vector is empty; [size() - 1]
    wraps, the loop is entered with [i = 0] and reads [free_blocks_[0]]:
    [compact] is undefined there. *)
Theorem compact_on_empty_free_list_is_undefined :
  let st := snd (Memory.allocate (Memory.Impl_ctor 1024 65536) 1024 8) in
  Memory.reachable st
  /\ Memory.free_blocks_ st = []
  /\ (0 <? wrap (vsize (Memory.free_blocks_ st) - 1)) = true
  /\ Memory.free_blocks_ st !! Z.to_nat 0 = None
  /\ Memory.merge_loop 1 0 (Memory.free_blocks_ st) = Some Undefined
  /\ Memory.compact st = Undefined.
Proof.
  cbv zeta. split; [|repeat split].
  exists 1024, 65536, [Memory.call_allocate 1024 8].
  repeat split; try (unfold Memory.fits_size_t; lia).
  repeat constructor.
Qed.
(** ** The binary heap inside [std::priority_queue] *)

(** *** The heap order on keys *)

Section HeapKeys.

Implicit Types k : nat -> Z.

(** The root carries the largest key. *)
Lemma heap_keys_root k (len : nat) :
  Scheduler.heap_keys k len -> forall j, (j < len)%nat -> k j <= k 0%nat.
Proof.
  intros Hheap j. induction j as [j IH] using lt_wf_ind. intros Hj.
  destruct (Nat.eq_dec j 0%nat) as [->|Hne]; [lia|].
  assert (Hp : ((j - 1) / 2 < j)%nat) by lia.
  specialize (IH _ Hp ltac:(lia)). specialize (Hheap j ltac:(lia)). lia.
Qed.

Lemma heap_keys_shorter k (len len' : nat) :
  (len' <= len)%nat -> Scheduler.heap_keys k len -> Scheduler.heap_keys k len'.
Proof. intros Hle Hheap c Hc. apply Hheap. lia. Qed.

Lemma heap_keys_ext k k' (len : nat) :
  (forall j, (j < len)%nat -> k' j = k j) ->
  Scheduler.heap_keys k len -> Scheduler.heap_keys k' len.
Proof. intros E Hheap c Hc. rewrite !E by lia. now apply Hheap. Qed.

(** A hole at a position without children inside [len]: only the edge
    above the hole may be out of order. *)
Lemma hole_keys_leaf k (len hole : nat) (kv : Z) :
  (hole < len)%nat -> (len <= 2 * hole + 1)%nat ->
  (forall c, (0 < c < len)%nat -> c <> hole -> k c <= k ((c - 1) / 2)%nat) ->
  Scheduler.hole_keys k len hole kv.
Proof.
  intros Hh Hleaf Hheap. split; [exact Hh | split].
  - intros c Hc Hne _. now apply Hheap.
  - intros c Hc Hp. exfalso. lia.
Qed.

(** One round of [__push_heap]: the parent, smaller than the value on
    the move, drops into the hole, and the hole moves up. *)
Lemma hole_keys_up k k' (len hole : nat) (kv : Z) :
  Scheduler.hole_keys k len hole kv ->
  (0 < hole)%nat -> k ((hole - 1) / 2)%nat < kv ->
  (forall j, k' j = if (j =? hole)%nat then k ((hole - 1) / 2)%nat else k j) ->
  Scheduler.hole_keys k' len ((hole - 1) / 2)%nat kv.
Proof.
  intros (Hh & Hedge & Hkids) Hpos Hlt E.
  set (p := ((hole - 1) / 2)%nat) in *.
  assert (Hph : (p < hole)%nat) by (unfold p; lia).
  split; [lia | split].
  - intros c Hc Hcp Hpp. rewrite !E.
    destruct (Nat.eqb_spec c hole) as [->|Hch]; [now fold p in Hpp|].
    destruct (Nat.eqb_spec ((c - 1) / 2) hole) as [Hc2|Hc2].
    + now apply (Hkids c Hc Hc2).
    + now apply Hedge.
  - intros c Hc Hcp. rewrite !E.
    assert (Hp' : (((p - 1) / 2 =? hole)%nat = false)) by (apply Nat.eqb_neq; lia).
    rewrite Hp'.
    destruct (Nat.eqb_spec c hole) as [->|Hch].
    + split; [lia|]. intros Hp0. apply Hedge; lia.
    + assert (Hcedge : k c <= k p).
      { rewrite <- Hcp. apply Hedge; [exact Hc | exact Hch | lia]. }
      split; [lia|]. intros Hp0.
      assert (k p <= k ((p - 1) / 2)%nat) by (apply Hedge; lia). lia.
Qed.

(** Where the hole stops, the value is stored and the heap is whole. *)
Lemma hole_keys_fill k k' (len hole : nat) (kv : Z) :
  Scheduler.hole_keys k len hole kv ->
  (hole = 0%nat \/ kv <= k ((hole - 1) / 2)%nat) ->
  (forall j, k' j = if (j =? hole)%nat then kv else k j) ->
  Scheduler.heap_keys k' len.
Proof.
  intros (Hh & Hedge & Hkids) Hstop E c Hc. rewrite !E.
  destruct (Nat.eqb_spec c hole) as [->|Hch].
  - assert (Hp : (((hole - 1) / 2 =? hole)%nat = false)) by (apply Nat.eqb_neq; lia).
    rewrite Hp. destruct Hstop; lia.
  - destruct (Nat.eqb_spec ((c - 1) / 2) hole) as [Hc2|Hc2].
    + now apply (Hkids c Hc Hc2).
    + now apply Hedge.
Qed.

(** One round of [__adjust_heap]: the larger child moves into the hole. *)
Lemma heap_keys_down k k' (len hole child : nat) :
  Scheduler.heap_keys k len ->
  (child < len)%nat -> ((child - 1) / 2)%nat = hole -> (0 < child)%nat ->
  (forall c, (0 < c < len)%nat -> ((c - 1) / 2)%nat = hole -> k c <= k child) ->
  (forall j, k' j = if (j =? hole)%nat then k child else k j) ->
  Scheduler.heap_keys k' len.
Proof.
  intros Hheap Hchild Hparent Hpos Hmax E c Hc. rewrite !E.
  destruct (Nat.eqb_spec c hole) as [->|Hch].
  - assert (Hp : (((hole - 1) / 2 =? hole)%nat = false)) by (apply Nat.eqb_neq; lia).
    rewrite Hp.
    assert (k child <= k hole) by (rewrite <- Hparent; apply Hheap; lia).
    assert (k hole <= k ((hole - 1) / 2)%nat) by (apply Hheap; lia). lia.
  - destruct (Nat.eqb_spec ((c - 1) / 2) hole) as [Hc2|Hc2].
    + now apply Hmax.
    + now apply Hheap.
Qed.

End HeapKeys.

(** *** Vectors and their keys *)

(** Splits the conjunctions of the goal, and nothing that only unfolds to
    one. *)
Ltac conjs := repeat match goal with |- _ /\ _ => split end.

Section HeapLists.

Context {A : Type} (comp : A -> A -> bool) (key : A -> Z).

(** The comparison is the order of the keys, as [PriorityTask::operator<]
    is the order of the priority values. *)
Hypothesis comp_key : forall a b, comp a b = (key a <? key b).

Implicit Types first c : list A.

Lemma elem_lookup first (i : nat) (value x : A) :
  first !! i = Some x -> Scheduler.elem first i value = x.
Proof. unfold Scheduler.elem. now intros ->. Qed.

Lemma lookup_elem first (i : nat) (value : A) :
  (i < length first)%nat -> first !! i = Some (Scheduler.elem first i value).
Proof.
  intros H. destruct (lookup_lt_is_Some_2 first i H) as [x Hx].
  now rewrite (elem_lookup _ _ _ _ Hx).
Qed.

Lemma keys_of_insert first (hole : nat) (x value : A) (j : nat) :
  (hole < length first)%nat ->
  Scheduler.keys_of key (<[hole := x]> first) value j
  = if (j =? hole)%nat then key x else Scheduler.keys_of key first value j.
Proof.
  intros H. unfold Scheduler.keys_of, Scheduler.elem.
  destruct (Nat.eqb_spec j hole) as [->|Hne].
  - now rewrite list_lookup_insert_eq.
  - now rewrite list_lookup_insert_ne.
Qed.

Lemma keys_of_default first (value value' : A) (j : nat) :
  (j < length first)%nat ->
  Scheduler.keys_of key first value j = Scheduler.keys_of key first value' j.
Proof.
  intros H. unfold Scheduler.keys_of.
  destruct (lookup_lt_is_Some_2 first j H) as [x Hx].
  now rewrite !(elem_lookup _ _ _ _ Hx).
Qed.

Lemma heap_keys_default first (value value' : A) (len : nat) :
  (len <= length first)%nat ->
  Scheduler.heap_keys (Scheduler.keys_of key first value) len ->
  Scheduler.heap_keys (Scheduler.keys_of key first value') len.
Proof.
  intros Hlen. apply heap_keys_ext. intros j Hj. apply keys_of_default. lia.
Qed.

(** [std::is_heap], read on the keys. *)
Lemma is_heap_keys first (value : A) (len : nat) :
  (len <= length first)%nat ->
  Scheduler.is_heap comp first len
  <-> Scheduler.heap_keys (Scheduler.keys_of key first value) len.
Proof.
  intros Hlen. unfold Scheduler.is_heap, Scheduler.heap_keys, Scheduler.keys_of. split.
  - intros H ch Hch.
    assert (Hp : ((ch - 1) / 2 < length first)%nat) by lia.
    assert (Hc : (ch < length first)%nat) by lia.
    pose proof (H ch _ _ Hch (lookup_elem first _ value Hp) (lookup_elem first _ value Hc)) as E.
    rewrite comp_key in E. lia.
  - intros H ch x y Hch Hx Hy. specialize (H ch Hch).
    rewrite (elem_lookup _ _ _ _ Hx), (elem_lookup _ _ _ _ Hy) in H.
    rewrite comp_key. lia.
Qed.

Lemma delete_insert_same first (i : nat) (x : A) :
  delete i (<[i := x]> first) = delete i first.
Proof.
  revert i. induction first as [|a first IH]; intros [|i]; simpl; try reflexivity.
  f_equal. apply IH.
Qed.

(** Writing [y], the element at [p], into the hole [h] and the value on
    the move into [p] holds the same elements as writing the value into
    the hole at once. *)
Lemma insert_hole_Permutation first (h p : nat) (y value : A) :
  (h < length first)%nat -> p <> h -> first !! p = Some y ->
  <[p := value]> (<[h := y]> first) ≡ₚ <[h := value]> first.
Proof.
  intros Hh Hne Hp.
  assert (Hpl : (p < length first)%nat) by (eapply lookup_lt_Some; eauto).
  assert (E1 : <[p := value]> (<[h := y]> first)
               ≡ₚ value :: delete p (<[h := y]> first)).
  { rewrite (delete_Permutation (<[p := value]> (<[h := y]> first)) p value)
      by (apply list_lookup_insert_eq; now rewrite length_insert).
    now rewrite delete_insert_same. }
  assert (E2 : <[h := y]> first ≡ₚ y :: delete p (<[h := y]> first)).
  { apply delete_Permutation. now rewrite list_lookup_insert_ne. }
  assert (E3 : <[h := y]> first ≡ₚ y :: delete h first).
  { rewrite (delete_Permutation (<[h := y]> first) h y)
      by now apply list_lookup_insert_eq.
    now rewrite delete_insert_same. }
  assert (E4 : <[h := value]> first ≡ₚ value :: delete h first).
  { rewrite (delete_Permutation (<[h := value]> first) h value)
      by now apply list_lookup_insert_eq.
    now rewrite delete_insert_same. }
  rewrite E1, E4. constructor.
  apply (Permutation_cons_inv (a := y)). now rewrite <- E2, E3.
Qed.

(** *** [__push_heap] *)

(** What the loop does to the vector, whatever the order of its
    elements: it moves elements down into the hole, so that storing the
    value where the hole stops yields the elements of the vector with
    the value stored in the first hole. *)
Lemma push_heap_loop_frame (value : A) (fuel : nat) :
  forall first (hole topIndex : nat),
    (hole < length first)%nat ->
    exists first' hole',
      Scheduler.push_heap_loop comp fuel first hole topIndex value = (first', hole')
      /\ (hole' <= hole)%nat
      /\ length first' = length first
      /\ <[hole' := value]> first' ≡ₚ <[hole := value]> first
      /\ (forall j, (hole < j)%nat -> first' !! j = first !! j).
Proof.
  induction fuel as [|fuel IH]; intros first hole topIndex Hh.
  - exists first, hole. cbn [Scheduler.push_heap_loop].
    destruct (_ && _); conjs; auto.
  - cbn [Scheduler.push_heap_loop].
    set (p := ((hole - 1) / 2)%nat).
    destruct (Nat.ltb_spec topIndex hole) as [Hpos|Hzero]; simpl.
    2:{ exists first, hole. conjs; auto. }
    destruct (comp (Scheduler.elem first p value) value).
    2:{ exists first, hole. conjs; auto. }
    assert (Hp : (p < hole)%nat) by (unfold p; lia).
    destruct (IH (<[hole := Scheduler.elem first p value]> first) p topIndex)
      as (first' & hole' & Hrun & Hle & Hlen' & Hperm & Hframe);
      [rewrite length_insert; lia|].
    exists first', hole'. rewrite length_insert in Hlen'. conjs; auto; [lia | |].
    + rewrite Hperm. apply insert_hole_Permutation; [lia | lia |].
      apply lookup_elem. lia.
    + intros j Hj. rewrite Hframe by lia. apply list_lookup_insert_ne. lia.
Qed.

(** What the loop does to the order: the hole keeps its invariant, and
    stops at the root or under a parent that is not smaller than the
    value. *)
Lemma push_heap_loop_spec (value : A) (len : nat) (fuel : nat) :
  forall first (hole : nat),
    (hole <= fuel)%nat -> (len <= length first)%nat ->
    Scheduler.hole_keys (Scheduler.keys_of key first value) len hole (key value) ->
    exists first' hole',
      Scheduler.push_heap_loop comp fuel first hole 0 value = (first', hole')
      /\ Scheduler.hole_keys (Scheduler.keys_of key first' value) len hole' (key value)
      /\ (hole' = 0%nat
          \/ key value <= Scheduler.keys_of key first' value ((hole' - 1) / 2)%nat).
Proof.
  induction fuel as [|fuel IH]; intros first hole Hfuel Hlen Hinv.
  - assert (hole = 0%nat) as -> by lia. exists first, 0%nat.
    cbn [Scheduler.push_heap_loop]. simpl. conjs; auto.
  - cbn [Scheduler.push_heap_loop].
    set (p := ((hole - 1) / 2)%nat).
    destruct (Nat.ltb_spec 0 hole) as [Hpos|Hzero]; simpl.
    2:{ exists first, hole. conjs; auto. left. lia. }
    rewrite comp_key.
    destruct (Z.ltb_spec (key (Scheduler.elem first p value)) (key value)) as [Hlt|Hge].
    2:{ exists first, hole. conjs; auto. }
    pose proof Hinv as (Hh & _).
    assert (Hp : (p < hole)%nat) by (unfold p; lia).
    apply IH; [lia | rewrite length_insert; lia |].
    apply (hole_keys_up (Scheduler.keys_of key first value)); auto.
    intros j. rewrite keys_of_insert by lia. reflexivity.
Qed.

Lemma push_heap_aux_frame (value : A) first (hole topIndex : nat) :
  (hole < length first)%nat ->
  length (Scheduler.__push_heap comp first hole topIndex value) = length first
  /\ Scheduler.__push_heap comp first hole topIndex value ≡ₚ <[hole := value]> first
  /\ (forall j, (hole < j)%nat ->
        Scheduler.__push_heap comp first hole topIndex value !! j = first !! j).
Proof.
  intros Hh. unfold Scheduler.__push_heap.
  destruct (push_heap_loop_frame value hole first hole topIndex Hh)
    as (first' & hole' & -> & Hle & Hlen' & Hperm & Hframe).
  conjs; [now rewrite length_insert | exact Hperm |].
  intros j Hj. rewrite list_lookup_insert_ne by lia. now apply Hframe.
Qed.

Lemma push_heap_aux_spec (value : A) (len : nat) first (hole : nat) :
  (len <= length first)%nat ->
  Scheduler.hole_keys (Scheduler.keys_of key first value) len hole (key value) ->
  Scheduler.heap_keys
    (Scheduler.keys_of key (Scheduler.__push_heap comp first hole 0 value) value) len.
Proof.
  intros Hlen Hinv. unfold Scheduler.__push_heap.
  pose proof Hinv as (Hh & _).
  destruct (push_heap_loop_frame value hole first hole 0%nat ltac:(lia))
    as (first' & hole' & Hrun & Hle & Hlen' & _).
  destruct (push_heap_loop_spec value len hole first hole)
    as (first'' & hole'' & Hrun' & Hinv' & Hstop); auto.
  rewrite Hrun in Hrun'. injection Hrun' as <- <-. rewrite Hrun.
  apply (hole_keys_fill (Scheduler.keys_of key first' value) _ len hole' (key value));
    auto.
  intros j. apply keys_of_insert. lia.
Qed.

(** [priority_queue::push] adds the element, whatever the vector holds. *)
Lemma pq_push_Permutation c (x : A) :
  length (Scheduler.pq_push comp c x) = S (length c)
  /\ Scheduler.pq_push comp c x ≡ₚ x :: c.
Proof.
  unfold Scheduler.pq_push, Scheduler.push_heap, push_back.
  rewrite last_snoc, length_app. simpl.
  replace (length c + 1 - 1)%nat with (length c) by lia.
  destruct (push_heap_aux_frame x (c ++ [x]) (length c) 0%nat) as (Hl & Hp & _).
  - rewrite length_app. simpl. lia.
  - rewrite Hl, length_app. simpl. split; [lia|].
    rewrite Hp, list_insert_id.
    + now rewrite Permutation_app_comm.
    + rewrite lookup_app_r by lia. now replace (length c - length c)%nat with 0%nat by lia.
Qed.

(** [priority_queue::push] keeps the heap. *)
Lemma pq_push_spec c (x : A) :
  Scheduler.heap_keys (Scheduler.keys_of key c x) (length c) ->
  Scheduler.heap_keys (Scheduler.keys_of key (Scheduler.pq_push comp c x) x)
    (length (Scheduler.pq_push comp c x)).
Proof.
  intros Hheap. destruct (pq_push_Permutation c x) as [-> _].
  unfold Scheduler.pq_push, Scheduler.push_heap, push_back.
  rewrite last_snoc, length_app. simpl.
  replace (length c + 1 - 1)%nat with (length c) by lia.
  apply push_heap_aux_spec.
  - rewrite length_app. simpl. lia.
  - apply hole_keys_leaf; [lia | lia |].
    intros ch Hch Hne. unfold Scheduler.keys_of, Scheduler.elem.
    rewrite !lookup_app_l by lia. apply Hheap. lia.
Qed.

(** *** [__adjust_heap] *)

Lemma adjust_heap_loop_spec (value : A) (len : nat) (fuel : nat) :
  forall first (hole : nat),
    (len - 1 <= fuel + hole)%nat -> (hole < len)%nat -> (len <= length first)%nat ->
    Scheduler.heap_keys (Scheduler.keys_of key first value) len ->
    exists first' hole',
      Scheduler.adjust_heap_loop comp fuel first hole hole len value = (first', hole', hole')
      /\ (hole' < len)%nat /\ ((len - 1) / 2 <= hole')%nat
      /\ Scheduler.heap_keys (Scheduler.keys_of key first' value) len
      /\ length first' = length first
      /\ <[hole' := value]> first' ≡ₚ <[hole := value]> first
      /\ (forall j, (len <= j)%nat -> first' !! j = first !! j).
Proof.
  induction fuel as [|fuel IH]; intros first hole Hfuel Hh Hlen Hheap.
  - cbn [Scheduler.adjust_heap_loop].
    destruct (Nat.ltb_spec hole ((len - 1) / 2)) as [Hlt|Hge]; [lia|].
    exists first, hole. conjs; auto.
  - cbn [Scheduler.adjust_heap_loop].
    destruct (Nat.ltb_spec hole ((len - 1) / 2)) as [Hlt|Hge].
    2:{ exists first, hole. conjs; auto. }
    cbv zeta. set (sc := (2 * (hole + 1))%nat).
    set (child := if comp (Scheduler.elem first sc value)
                       (Scheduler.elem first (sc - 1)%nat value)
                  then (sc - 1)%nat else sc).
    assert (Hsc : (sc < len)%nat) by (unfold sc; lia).
    assert (Hchild : (child = (sc - 1)%nat
                      /\ Scheduler.keys_of key first value sc
                         <= Scheduler.keys_of key first value (sc - 1)%nat)
                     \/ (child = sc
                         /\ Scheduler.keys_of key first value (sc - 1)%nat
                            <= Scheduler.keys_of key first value sc)).
    { unfold child, Scheduler.keys_of. rewrite comp_key.
      destruct (Z.ltb_spec (key (Scheduler.elem first sc value))
                  (key (Scheduler.elem first (sc - 1)%nat value))); [left | right];
        split; auto; lia. }
    set (first1 := <[hole := Scheduler.elem first child value]> first).
    assert (Hheap1 : Scheduler.heap_keys (Scheduler.keys_of key first1 value) len).
    { apply (heap_keys_down (Scheduler.keys_of key first value) _ len hole child); auto.
      - unfold sc in *. lia.
      - unfold sc in *. lia.
      - unfold sc in *. lia.
      - intros c Hc Hpar.
        assert (c = (sc - 1)%nat \/ c = sc) as [-> | ->] by (unfold sc; lia);
          destruct Hchild as [[-> Hk] | [-> Hk]]; lia.
      - intros j. unfold first1. now rewrite keys_of_insert by lia. }
    destruct (IH first1 child) as (first' & hole' & Hrun & Hh' & Hge' & Hheap' & Hlen' & Hperm & Hframe);
      [unfold sc in *; lia | unfold sc in *; lia
       | unfold first1; rewrite length_insert; lia | exact Hheap1 |].
    exists first', hole'. split; [exact Hrun|].
    unfold first1 in *. rewrite length_insert in Hlen'.
    conjs; auto.
    + rewrite Hperm. apply insert_hole_Permutation; [lia | unfold sc in *; lia |].
      apply lookup_elem. unfold sc in *. lia.
    + intros j Hj. rewrite Hframe by exact Hj. apply list_lookup_insert_ne. lia.
Qed.

Lemma adjust_heap_spec (value : A) (len : nat) first :
  (0 < len)%nat -> (len <= length first)%nat ->
  Scheduler.heap_keys (Scheduler.keys_of key first value) len ->
  Scheduler.heap_keys
    (Scheduler.keys_of key (Scheduler.__adjust_heap comp first 0 len value) value) len
  /\ length (Scheduler.__adjust_heap comp first 0 len value) = length first
  /\ Scheduler.__adjust_heap comp first 0 len value ≡ₚ <[0%nat := value]> first
  /\ (forall j, (len <= j)%nat ->
        Scheduler.__adjust_heap comp first 0 len value !! j = first !! j).
Proof.
  intros Hpos Hlen Hheap. unfold Scheduler.__adjust_heap.
  destruct (adjust_heap_loop_spec value len len first 0%nat)
    as (first' & hole' & -> & Hh' & Hge' & Hheap' & Hlen' & Hperm & Hframe); auto; [lia|].
  destruct ((len mod 2 =? 0)%nat && (hole' =? (len - 2) / 2)%nat) eqn:Hlast.
  - (* the hole has one child, the last element of the heap *)
    apply andb_true_iff in Hlast as [Heven Hhole].
    apply Nat.eqb_eq in Heven, Hhole.
    replace (2 * (hole' + 1) - 1)%nat with (len - 1)%nat by lia.
    set (first2 := <[hole' := Scheduler.elem first' (len - 1)%nat value]> first').
    assert (Hheap2 : Scheduler.heap_keys (Scheduler.keys_of key first2 value) len).
    { apply (heap_keys_down (Scheduler.keys_of key first' value) _ len hole' (len - 1)%nat);
        auto; try lia.
      - intros c Hc Hpar. assert (c = (len - 1)%nat) as -> by lia. lia.
      - intros j. unfold first2. now rewrite keys_of_insert by lia. }
    assert (Hlen2 : length first2 = length first)
      by (unfold first2; rewrite length_insert; lia).
    destruct (push_heap_aux_frame value first2 (len - 1)%nat 0%nat) as (Hl & Hp & Hf);
      [lia|].
    conjs.
    + apply push_heap_aux_spec; [lia|].
      apply hole_keys_leaf; [lia | lia |]. intros c Hc _. now apply Hheap2.
    + lia.
    + rewrite Hp, <- Hperm. apply insert_hole_Permutation; [lia | lia |].
      apply lookup_elem. lia.
    + intros j Hj. rewrite Hf by lia. unfold first2.
      rewrite list_lookup_insert_ne by lia. now apply Hframe.
  - (* the hole is a leaf *)
    assert (Hleaf : (len <= 2 * hole' + 1)%nat).
    { apply andb_false_iff in Hlast as [Hodd | Hne].
      - apply Nat.eqb_neq in Hodd. lia.
      - apply Nat.eqb_neq in Hne. lia. }
    destruct (push_heap_aux_frame value first' hole' 0%nat) as (Hl & Hp & Hf); [lia|].
    conjs.
    + apply push_heap_aux_spec; [lia|].
      apply hole_keys_leaf; [lia | lia |]. intros c Hc _. now apply Hheap'.
    + lia.
    + now rewrite Hp.
    + intros j Hj. rewrite Hf by lia. now apply Hframe.
Qed.

(** *** [priority_queue::pop] *)

Lemma pop_heap_spec c (top : A) :
  c !! 0%nat = Some top ->
  Scheduler.heap_keys (Scheduler.keys_of key c top) (length c) ->
  Scheduler.heap_keys
    (Scheduler.keys_of key (Scheduler.pop_heap comp c) top) (length c - 1)
  /\ length (Scheduler.pop_heap comp c) = length c
  /\ Scheduler.pop_heap comp c ≡ₚ c
  /\ Scheduler.pop_heap comp c !! (length c - 1)%nat = Some top.
Proof.
  intros Htop Hheap. unfold Scheduler.pop_heap.
  assert (Hlen : (0 < length c)%nat) by (eapply lookup_lt_Some; eauto).
  destruct (Nat.ltb_spec 1 (length c)) as [Hlong|Hshort].
  2:{ assert (Hone : (length c - 1)%nat = 0%nat) by lia. rewrite Hone.
      conjs; auto. intros ch Hch. lia. }
  set (n1 := (length c - 1)%nat).
  destruct (lookup_lt_is_Some_2 c n1 ltac:(unfold n1; lia)) as [value Hvalue].
  rewrite Hvalue, Htop.
  destruct (adjust_heap_spec value n1 (<[n1 := top]> c)) as (Hh & Hl & Hp & Hf).
  - unfold n1. lia.
  - rewrite length_insert. unfold n1. lia.
  - apply (heap_keys_ext (Scheduler.keys_of key c top)).
    + intros j Hj. rewrite keys_of_insert by (unfold n1; lia).
      destruct (Nat.eqb_spec j n1); [lia|]. apply keys_of_default. unfold n1 in *. lia.
    + apply (heap_keys_shorter _ (length c)); [unfold n1; lia | exact Hheap].
  - rewrite length_insert in Hl. conjs.
    + apply (heap_keys_default _ value top); [|exact Hh]. rewrite Hl. unfold n1. lia.
    + exact Hl.
    + rewrite Hp.
      rewrite (insert_hole_Permutation c n1 0%nat top value); try (unfold n1; lia); auto.
      now rewrite list_insert_id.
    + rewrite Hf by lia. apply list_lookup_insert_eq. unfold n1. lia.
Qed.

(** [top()] followed by [pop()] hands out an element with the largest
    key and leaves a heap of the other elements. *)
Lemma pq_pop_spec c (value : A) :
  c <> [] ->
  Scheduler.heap_keys (Scheduler.keys_of key c value) (length c) ->
  exists top rest,
    Scheduler.pq_top c = Returns top
    /\ Scheduler.pq_pop comp c = Returns rest
    /\ Scheduler.heap_keys (Scheduler.keys_of key rest value) (length rest)
    /\ c ≡ₚ top :: rest
    /\ (forall y, y ∈ c -> key y <= key top).
Proof.
  intros Hne Hheap. destruct c as [|top c']; [congruence|].
  set (c := top :: c') in *.
  apply (heap_keys_default _ value top) in Hheap; [|lia].
  destruct (pop_heap_spec c top eq_refl Hheap) as (Hh & Hl & Hp & Hlast).
  exists top, (pop_back (Scheduler.pop_heap comp c)).
  assert (Hsplit : Scheduler.pop_heap comp c
                   = pop_back (Scheduler.pop_heap comp c) ++ [top]).
  { unfold pop_back. rewrite Hl.
    rewrite <- (take_drop (length c - 1) (Scheduler.pop_heap comp c)) at 1.
    f_equal. apply list_eq. intros [|j].
    - rewrite lookup_drop, Nat.add_0_r. exact Hlast.
    - rewrite lookup_drop. simpl. apply lookup_ge_None_2. rewrite Hl. simpl. lia. }
  conjs; try reflexivity.
  - rewrite length_pop_back, Hl.
    apply (heap_keys_default _ top value); [rewrite length_pop_back, Hl; lia|].
    apply (heap_keys_ext (Scheduler.keys_of key (Scheduler.pop_heap comp c) top)); [|exact Hh].
    intros j Hj. unfold Scheduler.keys_of, Scheduler.elem, pop_back.
    rewrite Hl. now rewrite lookup_take_lt by lia.
  - rewrite <- Hp, Hsplit at 1. now rewrite Permutation_app_comm.
  - intros y Hy. apply list_elem_of_lookup in Hy as [j Hj].
    pose proof (heap_keys_root _ _ Hheap j ltac:(eapply lookup_lt_Some; eauto)) as Hroot.
    unfold Scheduler.keys_of in Hroot.
    rewrite (elem_lookup _ _ _ _ Hj) in Hroot. exact Hroot.
Qed.

End HeapLists.

(** ** [WorkStealingPool] *)

Section PoolFacts.

Context {Fn : Type}.
Implicit Types p : Scheduler.WorkStealingPool Fn.
Implicit Types t a b : Scheduler.PriorityTask Fn.

(** The key that [PriorityTask::operator<] orders by. *)
Local Abbreviation key := (fun t : Scheduler.PriorityTask Fn =>
                         Scheduler.priority_value (Scheduler.priority t)).

Lemma PriorityTask_lt_key a b : Scheduler.PriorityTask_lt a b = (key a <? key b).
Proof. reflexivity. Qed.

Lemma submit_task_cases p (func : Fn) :
  Scheduler.shutdown_ p = true
  /\ Scheduler.submit_task p func = Throws (runtime_error "ThreadPool is shutting down")
  \/ Scheduler.shutdown_ p = false
     /\ exists fut p', Scheduler.submit_task p func = Returns (fut, p')
          /\ fut = Scheduler.mkFuture func
          /\ Scheduler.tasks_ p' = Scheduler.tasks_ p ++ [func]
          /\ Scheduler.priority_tasks_ p' = Scheduler.priority_tasks_ p
          /\ Scheduler.shutdown_ p' = false.
Proof.
  unfold Scheduler.submit_task. destruct (Scheduler.shutdown_ p) eqn:E; [left | right].
  - now split.
  - split; [reflexivity|]. eexists _, _. split; [reflexivity|]. simpl. now conjs.
Qed.

Lemma submit_priority_task_cases p (prio : Scheduler.TaskPriority) (func : Fn) :
  Scheduler.shutdown_ p = true
  /\ Scheduler.submit_priority_task p prio func
     = Throws (runtime_error "ThreadPool is shutting down")
  \/ Scheduler.shutdown_ p = false
     /\ exists fut p', Scheduler.submit_priority_task p prio func = Returns (fut, p')
          /\ fut = Scheduler.mkFuture func
          /\ Scheduler.priority_tasks_ p'
             = Scheduler.pq_push Scheduler.PriorityTask_lt (Scheduler.priority_tasks_ p)
                 (Scheduler.mkPriorityTask prio func)
          /\ Scheduler.tasks_ p' = Scheduler.tasks_ p
          /\ Scheduler.shutdown_ p' = false.
Proof.
  unfold Scheduler.submit_priority_task.
  destruct (Scheduler.shutdown_ p) eqn:E; [left | right].
  - now split.
  - split; [reflexivity|]. eexists _, _. split; [reflexivity|]. simpl. now conjs.
Qed.

(** A take hands out an element of the largest priority and keeps the
    others, in a heap again. *)
Lemma take_priority_task_spec p t p' :
  Scheduler.is_heap Scheduler.PriorityTask_lt (Scheduler.priority_tasks_ p)
    (length (Scheduler.priority_tasks_ p)) ->
  Scheduler.take_priority_task p = Returns (t, p') ->
  Scheduler.priority_tasks_ p ≡ₚ t :: Scheduler.priority_tasks_ p'
  /\ (forall y, y ∈ Scheduler.priority_tasks_ p -> key y <= key t)
  /\ Scheduler.is_heap Scheduler.PriorityTask_lt (Scheduler.priority_tasks_ p')
       (length (Scheduler.priority_tasks_ p'))
  /\ Scheduler.tasks_ p' = Scheduler.tasks_ p
  /\ Scheduler.shutdown_ p' = Scheduler.shutdown_ p.
Proof.
  intros Hheap Htake. unfold Scheduler.take_priority_task in Htake.
  destruct (Scheduler.priority_tasks_ p) as [|t0 c] eqn:Ec; [discriminate|].
  rewrite <- Ec in *.
  assert (Hne : Scheduler.priority_tasks_ p <> []) by (rewrite Ec; discriminate).
  apply (is_heap_keys _ key PriorityTask_lt_key _ t0) in Hheap; [|lia].
  destruct (pq_pop_spec _ key PriorityTask_lt_key _ t0 Hne Hheap)
    as (top & rest & Htop & Hpop & Hheap' & Hperm & Hmax).
  rewrite Htop, Hpop in Htake. simpl in Htake. injection Htake as <- <-. simpl.
  conjs; auto.
  apply (is_heap_keys _ key PriorityTask_lt_key _ t0); [lia | exact Hheap'].
Qed.

(** The priority queue of a reachable pool is a heap. *)
Lemma reachable_is_heap p :
  Scheduler.reachable p ->
  Scheduler.is_heap Scheduler.PriorityTask_lt (Scheduler.priority_tasks_ p)
    (length (Scheduler.priority_tasks_ p)).
Proof.
  induction 1 as [|p func fut p' _ IH Hs|p prio func fut p' _ IH Hs|p t p' _ IH Ht].
  - intros ch x y Hch. simpl in Hch. lia.
  - destruct (submit_task_cases p func) as [[_ E]|(_ & f & q & E & _ & _ & Hq & _)];
      rewrite E in Hs; [discriminate|]. injection Hs as <- <-. now rewrite Hq.
  - destruct (submit_priority_task_cases p prio func)
      as [[_ E]|(_ & f & q & E & _ & Hq & _)];
      rewrite E in Hs; [discriminate|]. injection Hs as <- <-. rewrite Hq.
    set (x := Scheduler.mkPriorityTask prio func).
    apply (is_heap_keys _ key PriorityTask_lt_key _ x); [lia|].
    apply (pq_push_spec _ key PriorityTask_lt_key).
    apply (is_heap_keys _ key PriorityTask_lt_key _ x); [lia | exact IH].
  - now destruct (take_priority_task_spec p t p' IH Ht) as (_ & _ & H & _).
Qed.

(** While a task of higher priority is queued, a task of lower priority
    is not handed out. *)
Lemma take_keeps_lower_priority p p' a b t :
  Scheduler.reachable p ->
  a ∈ Scheduler.priority_tasks_ p -> b ∈ Scheduler.priority_tasks_ p ->
  key b < key a ->
  Scheduler.take_priority_task p = Returns (t, p') ->
  key a <= key t /\ t <> b /\ b ∈ Scheduler.priority_tasks_ p'
  /\ (a = t \/ a ∈ Scheduler.priority_tasks_ p')
  /\ Scheduler.priority_tasks_ p ≡ₚ t :: Scheduler.priority_tasks_ p'.
Proof.
  intros Hreach Ha Hb Hlt Htake.
  pose proof (reachable_is_heap p Hreach) as Hheap.
  destruct (take_priority_task_spec p t p' Hheap Htake) as (Hperm & Hmax & _).
  assert (Hne : t <> b).
  { intros ->. specialize (Hmax a Ha). cbv beta in *. lia. }
  split; [exact (Hmax a Ha) | split; [exact Hne | split; [|split; [|exact Hperm]]]].
  - rewrite Hperm in Hb. apply elem_of_cons in Hb as [->|Hb]; [congruence | exact Hb].
  - rewrite Hperm in Ha. now apply elem_of_cons in Ha.
Qed.

(** In a run of takes, every position that hands out the lower-priority
    task comes after a position that hands out the higher-priority one. *)
Lemma take_priority_tasks_order (n : nat) :
  forall p p' a b (ts : list (Scheduler.PriorityTask Fn)),
    Scheduler.reachable p ->
    a ∈ Scheduler.priority_tasks_ p -> b ∈ Scheduler.priority_tasks_ p ->
    key b < key a ->
    Scheduler.take_priority_tasks n p = Returns (ts, p') ->
    forall j, ts !! j = Some b -> exists i, (i < j)%nat /\ ts !! i = Some a.
Proof.
  induction n as [|n IH]; intros p p' a b ts Hreach Ha Hb Hlt Hrun j Hj.
  - injection Hrun as <- <-. discriminate.
  - cbn [Scheduler.take_priority_tasks] in Hrun.
    destruct (Scheduler.take_priority_task p) as [[t p1]| |] eqn:Htake; try discriminate.
    simpl in Hrun.
    destruct (Scheduler.take_priority_tasks n p1) as [[ts1 p2]| |] eqn:Hrest;
      try discriminate.
    simpl in Hrun. injection Hrun as <- <-.
    destruct (take_keeps_lower_priority p p1 a b t Hreach Ha Hb Hlt Htake)
      as (_ & Hne & Hb1 & Ha1 & _).
    destruct j as [|j]; [simpl in Hj; congruence|].
    destruct Ha1 as [->|Ha1]; [exists 0%nat; split; [lia | reflexivity]|].
    assert (Hreach1 : Scheduler.reachable p1)
      by (eapply Scheduler.reachable_take; eauto).
    destruct (IH p1 p2 a b ts1 Hreach1 Ha1 Hb1 Hlt Hrest j Hj) as (i & Hi & Hia).
    exists (S i). split; [lia | exact Hia].
Qed.

End PoolFacts.

(** C5. Priority tasks are kept in a max-heap on the priority value, with
    CRITICAL > HIGH > NORMAL > LOW.  In every reachable pool, when tasks
    [a] and [b] are both queued and [a] has the strictly higher priority,
    a take does not hand out [b]: the task taken has at least the priority
    of [a], and [b] stays queued; and in every run of takes, [b] is handed
    out only after [a].  Among equal priorities the order is not first-in
    first-out: four NORMAL tasks submitted as 1, 2, 3, 4 are taken as 1,
    3, 2, 4. *)
Theorem priority_tasks_dequeue_order :
  (forall (Fn : Type) (p p' : Scheduler.WorkStealingPool Fn)
          (a b t : Scheduler.PriorityTask Fn),
      Scheduler.reachable p ->
      a ∈ Scheduler.priority_tasks_ p ->
      b ∈ Scheduler.priority_tasks_ p ->
      Scheduler.priority_value (Scheduler.priority b)
        < Scheduler.priority_value (Scheduler.priority a) ->
      Scheduler.take_priority_task p = Returns (t, p') ->
      Scheduler.is_heap Scheduler.PriorityTask_lt (Scheduler.priority_tasks_ p)
        (length (Scheduler.priority_tasks_ p))
      /\ Scheduler.priority_value (Scheduler.priority a)
         <= Scheduler.priority_value (Scheduler.priority t)
      /\ t <> b
      /\ b ∈ Scheduler.priority_tasks_ p'
      /\ Scheduler.priority_tasks_ p ≡ₚ t :: Scheduler.priority_tasks_ p')
  /\ (forall (Fn : Type) (n : nat) (p p' : Scheduler.WorkStealingPool Fn)
             (a b : Scheduler.PriorityTask Fn) (ts : list (Scheduler.PriorityTask Fn)),
        Scheduler.reachable p ->
        a ∈ Scheduler.priority_tasks_ p ->
        b ∈ Scheduler.priority_tasks_ p ->
        Scheduler.priority_value (Scheduler.priority b)
          < Scheduler.priority_value (Scheduler.priority a) ->
        Scheduler.take_priority_tasks n p = Returns (ts, p') ->
        forall j, ts !! j = Some b -> exists i, (i < j)%nat /\ ts !! i = Some a)
  /\ (Scheduler.priority_value Scheduler.LOW < Scheduler.priority_value Scheduler.NORMAL
      /\ Scheduler.priority_value Scheduler.NORMAL < Scheduler.priority_value Scheduler.HIGH
      /\ Scheduler.priority_value Scheduler.HIGH < Scheduler.priority_value Scheduler.CRITICAL)
  /\ ('(_, p1) ← Scheduler.submit_priority_task Scheduler.WorkStealingPool_init
                    Scheduler.NORMAL 1%nat;
      '(_, p2) ← Scheduler.submit_priority_task p1 Scheduler.NORMAL 2%nat;
      '(_, p3) ← Scheduler.submit_priority_task p2 Scheduler.NORMAL 3%nat;
      '(_, p4) ← Scheduler.submit_priority_task p3 Scheduler.NORMAL 4%nat;
      '(t1, q1) ← Scheduler.take_priority_task p4;
      '(t2, q2) ← Scheduler.take_priority_task q1;
      '(t3, q3) ← Scheduler.take_priority_task q2;
      '(t4, _) ← Scheduler.take_priority_task q3;
      Returns [Scheduler.task t1; Scheduler.task t2; Scheduler.task t3; Scheduler.task t4])
     = Returns [1%nat; 3%nat; 2%nat; 4%nat].
Proof.
  split; [|split; [|split; [repeat split | reflexivity]]].
  - intros Fn p p' a b t Hreach Ha Hb Hlt Htake.
    destruct (take_keeps_lower_priority p p' a b t Hreach Ha Hb Hlt Htake)
      as (Hge & Hne & Hb' & _ & Hperm).
    split; [now apply reachable_is_heap | auto].
  - intros Fn n. apply take_priority_tasks_order.
Qed.

(** The scenario of the specification: LOW, NORMAL and CRITICAL tasks
    submitted in this order are taken as CRITICAL, NORMAL, LOW. *)
Lemma priority_tasks_dequeue_order_witness :
  let low := Scheduler.mkPriorityTask Scheduler.LOW 1%nat in
  let normal := Scheduler.mkPriorityTask Scheduler.NORMAL 2%nat in
  let critical := Scheduler.mkPriorityTask Scheduler.CRITICAL 3%nat in
  exists p p',
    Scheduler.priority_tasks_ p = [critical; low; normal]
    /\ Scheduler.reachable p
    /\ Scheduler.take_priority_task p = Returns (critical, p')
    /\ low ∈ Scheduler.priority_tasks_ p'
    /\ normal ∈ Scheduler.priority_tasks_ p'.
Proof.
  intros low normal critical.
  set (p1 := Scheduler.mkWorkStealingPool (Fn:=nat) [] [low] false).
  set (p2 := Scheduler.mkWorkStealingPool (Fn:=nat) [] [normal; low] false).
  set (p3 := Scheduler.mkWorkStealingPool (Fn:=nat) [] [critical; low; normal] false).
  set (p4 := Scheduler.mkWorkStealingPool (Fn:=nat) [] [normal; low] false).
  assert (H1 : Scheduler.reachable p1).
  { apply (Scheduler.reachable_submit_priority nat Scheduler.WorkStealingPool_init
             Scheduler.LOW 1%nat (Scheduler.mkFuture 1%nat));
      [constructor | reflexivity]. }
  assert (H2 : Scheduler.reachable p2).
  { apply (Scheduler.reachable_submit_priority nat p1 Scheduler.NORMAL 2%nat
             (Scheduler.mkFuture 2%nat)); [exact H1 | reflexivity]. }
  assert (H3 : Scheduler.reachable p3).
  { apply (Scheduler.reachable_submit_priority nat p2 Scheduler.CRITICAL 3%nat
             (Scheduler.mkFuture 3%nat)); [exact H2 | reflexivity]. }
  assert (Htake : Scheduler.take_priority_task p3 = Returns (critical, p4)) by reflexivity.
  assert (Hc : critical ∈ Scheduler.priority_tasks_ p3)
    by (apply list_elem_of_lookup; exists 0%nat; reflexivity).
  assert (Hl : low ∈ Scheduler.priority_tasks_ p3)
    by (apply list_elem_of_lookup; exists 1%nat; reflexivity).
  assert (Hn : normal ∈ Scheduler.priority_tasks_ p3)
    by (apply list_elem_of_lookup; exists 2%nat; reflexivity).
  assert (Hlc : Scheduler.priority_value (Scheduler.priority low)
                < Scheduler.priority_value (Scheduler.priority critical)) by (simpl; lia).
  assert (Hnc : Scheduler.priority_value (Scheduler.priority normal)
                < Scheduler.priority_value (Scheduler.priority critical)) by (simpl; lia).
  destruct priority_tasks_dequeue_order as (Horder & _).
  destruct (Horder nat p3 p4 critical low critical H3 Hc Hl Hlc Htake) as (_ & _ & _ & Hl' & _).
  destruct (Horder nat p3 p4 critical normal critical H3 Hc Hn Hnc Htake) as (_ & _ & _ & Hn' & _).
  exists p3, p4. conjs; auto.
Defined.

(** C6. [submit_task] and [submit_priority_task] throw, and at once,
    exactly when the shutdown flag is set; otherwise they return a future
    for the closure and the closure is queued: at the back of the task
    queue, or as a new element of the priority queue. *)
Theorem submit_throws_iff_shutdown {Fn : Type} (p : Scheduler.WorkStealingPool Fn)
    (prio : Scheduler.TaskPriority) (func : Fn) :
  ((exists e, Scheduler.submit_task p func = Throws e) <-> Scheduler.shutdown_ p = true)
  /\ ((exists e, Scheduler.submit_priority_task p prio func = Throws e)
      <-> Scheduler.shutdown_ p = true)
  /\ ((exists fut p',
         Scheduler.submit_task p func = Returns (fut, p')
         /\ fut = Scheduler.mkFuture func
         /\ Scheduler.tasks_ p' = Scheduler.tasks_ p ++ [func]
         /\ Scheduler.priority_tasks_ p' = Scheduler.priority_tasks_ p)
      <-> Scheduler.shutdown_ p = false)
  /\ ((exists fut p',
         Scheduler.submit_priority_task p prio func = Returns (fut, p')
         /\ fut = Scheduler.mkFuture func
         /\ Scheduler.priority_tasks_ p'
            ≡ₚ Scheduler.mkPriorityTask prio func :: Scheduler.priority_tasks_ p
         /\ Scheduler.tasks_ p' = Scheduler.tasks_ p)
      <-> Scheduler.shutdown_ p = false)
  /\ (Scheduler.submit_task p func = Undefined -> False)
  /\ (Scheduler.submit_priority_task p prio func = Undefined -> False).
Proof.
  destruct (submit_task_cases p func)
    as [[Hs E1]|(Hs & f1 & q1 & E1 & Hf1 & Ht1 & Hq1 & _)];
  destruct (submit_priority_task_cases p prio func)
    as [[Hs' E2]|(Hs' & f2 & q2 & E2 & Hf2 & Hq2 & Ht2 & _)];
    try congruence; rewrite E1, E2, Hs; conjs; try discriminate.
  - split; eauto.
  - split; eauto.
  - split; [intros (? & ? & ? & _) |]; discriminate.
  - split; [intros (? & ? & ? & _) |]; discriminate.
  - split; [intros [? ?] |]; discriminate.
  - split; [intros [? ?] |]; discriminate.
  - split; [reflexivity|]. intros _. exists f1, q1. now conjs.
  - split; [reflexivity|]. intros _. exists f2, q2. conjs; auto.
    rewrite Hq2. apply pq_push_Permutation.
Qed.

(* ================================================================== *)
(** * Part III: further properties of the memory subsystem *)
(* ================================================================== *)

(** ** Runs of calls, step by step *)

(** What the constructor establishes and every returning call keeps holds
    in every reachable state. *)
Lemma reachable_invariant (I : Memory.Impl -> Prop) :
  (forall pool_size mmap_result,
     Memory.fits_size_t pool_size -> 0 <= mmap_result ->
     I (Memory.Impl_ctor pool_size mmap_result)) ->
  (forall st c st',
     Memory.call_ok c -> Memory.well_formed st -> I st ->
     Memory.alloc_step st c = Returns st' -> I st') ->
  forall st, Memory.reachable st -> I st.
Proof.
  intros Hctor Hstep st (ps & r & calls & Hps & Hr & Hok & Hrun).
  assert (Hgen : forall calls st0 st1,
             Forall Memory.call_ok calls -> Memory.well_formed st0 -> I st0 ->
             Memory.alloc_run st0 calls = Returns st1 -> I st1).
  { clear - Hstep. intros calls. induction calls as [|c calls IH]; intros st0 st1 Hok Hwf HI; simpl.
    - now intros [= <-].
    - inversion Hok as [|? ? Hc Hcs]; subst.
      destruct (Memory.alloc_step st0 c) as [st2| |] eqn:Hs; try discriminate.
      change (Memory.alloc_run st2 calls = Returns st1 -> I st1).
      apply IH; [exact Hcs | | eapply Hstep; eauto].
      apply (alloc_run_well_formed [c] st0 st2); [now constructor | exact Hwf |].
      simpl. now rewrite Hs. }
  apply (Hgen calls (Memory.Impl_ctor ps r) st Hok); auto using ctor_well_formed.
Qed.

(** ** The usage counters *)

(** The members that a successful [allocate] updates besides the block
    lists. *)
Lemma allocate_hit_counters (st : Memory.Impl) (size_arg alignment : Z) (i : nat)
    (it : Memory.FreeBlock) :
  Memory.first_fit (Memory.aligned_size size_arg alignment) (Memory.free_blocks_ st) 0
  = Some (i, it) ->
  let aligned := Memory.aligned_size size_arg alignment in
  let st' := snd (Memory.allocate st size_arg alignment) in
  Memory.allocated_size_ st' = wrap (Memory.allocated_size_ st + aligned)
  /\ Memory.current_usage (Memory.stats_ st')
     = wrap (Memory.current_usage (Memory.stats_ st) + aligned)
  /\ Memory.peak_usage (Memory.stats_ st')
     = Z.max (Memory.peak_usage (Memory.stats_ st))
         (wrap (Memory.current_usage (Memory.stats_ st) + aligned)).
Proof.
  intros Hfit aligned st'. subst st' aligned. unfold Memory.allocate.
  rewrite Hfit. simpl. repeat split.
Qed.

Lemma deallocate_hit_counters (st st' : Memory.Impl) (p size_arg block_size : Z) :
  p <> nullptr -> Memory.allocated_blocks_ st !! p = Some block_size ->
  Memory.deallocate st p size_arg = Returns st' ->
  Memory.allocated_size_ st' = wrap (Memory.allocated_size_ st - block_size)
  /\ Memory.current_usage (Memory.stats_ st')
     = wrap (Memory.current_usage (Memory.stats_ st) - block_size)
  /\ Memory.peak_usage (Memory.stats_ st') = Memory.peak_usage (Memory.stats_ st).
Proof.
  intros Hne Hp. unfold Memory.deallocate.
  destruct (Z.eqb_spec p nullptr) as [|_]; [contradiction|]. rewrite Hp.
  destruct (Memory.merge_free_blocks _) as [free| |]; simpl; try discriminate.
  intros [= <-]. simpl. repeat split.
Qed.

Lemma free_bytes_ge_block (l : list Memory.FreeBlock) (i : nat) (it : Memory.FreeBlock) :
  Forall Memory.block_ok l -> l !! i = Some it ->
  Memory.size it <= foldr (fun b acc => Memory.size b + acc) 0 l.
Proof.
  intros Hall Hit. rewrite (sum_sizes_delete l i it Hit).
  pose proof (sum_sizes_nonneg (delete i l) (Forall_delete _ _ _ Hall)). lia.
Qed.

Lemma allocate_counters_ok (st : Memory.Impl) (size_arg alignment : Z) :
  Memory.well_formed st -> Memory.counters_ok st ->
  Memory.counters_ok (snd (Memory.allocate st size_arg alignment)).
Proof.
  intros Hwf (Heq & Hlive & Hfree & Hsum & Hpeak).
  destruct (Memory.first_fit (Memory.aligned_size size_arg alignment)
              (Memory.free_blocks_ st) 0) as [[i it]|] eqn:Hfit.
  2:{ rewrite (allocate_miss _ _ _ Hfit). simpl. repeat split; lia. }
  destruct (first_fit_lookup _ _ _ _ Hfit) as (Hit & Hsz).
  pose proof (allocate_free_bytes st size_arg alignment i it Hwf Hfit) as Hfb.
  destruct (allocate_hit_counters st size_arg alignment i it Hfit) as (Has & Hcu & Hpk).
  destruct (allocate_hit st size_arg alignment i it Hfit) as (_ & _ & Ha & Hps & _).
  pose proof (allocate_well_formed st size_arg alignment Hwf) as (_ & Hfree' & Hlive').
  pose proof (sum_sizes_nonneg _ Hfree') as Hf0.
  pose proof (live_bytes_nonneg _ Hlive') as Hl0.
  destruct Hwf as (Hfit_ps & Hfr & Hlv).
  pose proof (free_bytes_ge_block _ _ _ Hfr Hit) as Hge.
  pose proof (live_bytes_insert_le (Memory.allocated_blocks_ st) (Memory.ptr it)
                (Memory.aligned_size size_arg alignment) Hlv) as Hle.
  pose proof (aligned_size_fits size_arg alignment) as [Ha0 _].
  fold (Memory.free_bytes st) in Hge. fold (Memory.live_bytes st) in Hle.
  set (aligned := Memory.aligned_size size_arg alignment) in *.
  set (st' := snd (Memory.allocate st size_arg alignment)) in *.
  fold (Memory.free_bytes st') in Hf0. fold (Memory.live_bytes st') in Hl0.
  assert (Hl' : Memory.live_bytes st' <= Memory.live_bytes st + aligned).
  { unfold Memory.live_bytes at 1. rewrite Ha. lia. }
  assert (Hw : wrap (Memory.allocated_size_ st + aligned) = Memory.allocated_size_ st + aligned).
  { apply wrap_small. unfold Memory.fits_size_t in *. lia. }
  unfold Memory.counters_ok. rewrite Has, Hcu, Hpk, Hps, <- Heq, Hw.
  assert (Hfb' : Memory.free_bytes st' <= Memory.free_bytes st - aligned).
  { rewrite Hfb. destruct (wrap _ <? Memory.size it); lia. }
  repeat split; lia.
Qed.

Lemma merge_free_blocks_bytes_of (v free : list Memory.FreeBlock) :
  v <> [] -> Forall Memory.block_ok v ->
  foldr (fun b acc => Memory.size b + acc) 0 v < 2 ^ 64 ->
  Memory.merge_free_blocks v = Returns free ->
  foldr (fun b acc => Memory.size b + acc) 0 free
  = foldr (fun b acc => Memory.size b + acc) 0 v.
Proof.
  intros Hne Hall Hfit Hm.
  destruct (merge_free_blocks_bytes v Hne Hall Hfit) as (v' & Hm' & Hsum). congruence.
Qed.

Lemma deallocate_counters_ok (st st' : Memory.Impl) (p size_arg : Z) :
  Memory.well_formed st -> Memory.counters_ok st ->
  Memory.deallocate st p size_arg = Returns st' -> Memory.counters_ok st'.
Proof.
  intros Hwf (Heq & Hlive & Hfree & Hsum & Hpeak) Hd.
  pose proof (deallocate_well_formed st st' p size_arg Hwf Hd) as (_ & Hfree' & Hlive').
  destruct Hwf as (Hps & Hfr & Hlv).
  destruct (deallocate_cases st p size_arg)
    as [[_ H]|(bs & free & Hne & Hp & Hm & _ & _ & st'' & H & Hf & Ha & Hpsz & _)].
  { rewrite H in Hd. injection Hd as <-. repeat split; lia. }
  assert (st'' = st') by congruence. subst st''.
  destruct (deallocate_hit_counters st st' p size_arg bs Hne Hp Hd) as (Has & Hcu & Hpk).
  pose proof (live_bytes_delete _ _ _ Hp) as Hl. fold (Memory.live_bytes st) in Hl.
  pose proof (live_bytes_nonneg _ Hlive') as Hl0. fold (Memory.live_bytes st') in Hl0.
  destruct (Hlv p bs Hp) as [Hpp Hbs].
  assert (Hl' : Memory.live_bytes st' = Memory.live_bytes st - bs).
  { unfold Memory.live_bytes at 1. rewrite Ha. lia. }
  assert (Hfb : Memory.free_bytes st' = Memory.free_bytes st + bs).
  { unfold Memory.free_bytes at 1. rewrite Hf.
    rewrite (merge_free_blocks_bytes_of
               (push_back (Memory.free_blocks_ st) {| Memory.ptr := p; Memory.size := bs |})
               free); [| | | | exact Hm].
    - unfold push_back. rewrite sum_sizes_app. simpl. fold (Memory.free_bytes st). lia.
    - unfold push_back. now destruct (Memory.free_blocks_ st).
    - unfold push_back. apply Forall_app. split; [exact Hfr|].
      constructor; [split; [exact Hpp | exact Hbs] | constructor].
    - unfold push_back. rewrite sum_sizes_app. simpl. fold (Memory.free_bytes st).
      unfold Memory.fits_size_t in *. lia. }
  assert (Hw : wrap (Memory.allocated_size_ st - bs) = Memory.allocated_size_ st - bs).
  { apply wrap_small. unfold Memory.fits_size_t in *. lia. }
  unfold Memory.counters_ok. rewrite Has, Hcu, Hpk, Hpsz, <- Heq, Hw.
  unfold Memory.fits_size_t in *. repeat split; lia.
Qed.

Lemma compact_counters_ok (st st' : Memory.Impl) :
  Memory.well_formed st -> Memory.counters_ok st ->
  Memory.compact st = Returns st' -> Memory.counters_ok st'.
Proof.
  intros Hwf (Heq & Hlive & Hfree & Hsum & Hpeak) Hc.
  destruct Hwf as (Hps & Hfr & Hlv).
  unfold Memory.compact in Hc.
  destruct (Memory.merge_free_blocks (Memory.free_blocks_ st)) as [free| |] eqn:Hm;
    simpl in Hc; try discriminate.
  injection Hc as <-.
  assert (Hfb : foldr (fun b acc => Memory.size b + acc) 0 free = Memory.free_bytes st).
  { apply merge_free_blocks_bytes_of; [| exact Hfr | | exact Hm].
    - intros E. rewrite E in Hm. discriminate.
    - fold (Memory.free_bytes st). unfold Memory.fits_size_t in *. lia. }
  unfold Memory.counters_ok, Memory.free_bytes, Memory.live_bytes. simpl.
  rewrite Hfb. fold (Memory.live_bytes st). repeat split; lia.
Qed.

Lemma initialize_pool_counters_ok (mmap_result pool_size pool_memory : Z) :
  Memory.fits_size_t pool_size ->
  Memory.counters_ok
    (Memory.initialize_pool mmap_result
       {| Memory.pool_size_ := pool_size;
          Memory.pool_memory_ := pool_memory;
          Memory.free_blocks_ := [];
          Memory.allocated_blocks_ := ∅;
          Memory.allocated_size_ := 0;
          Memory.stats_ := Memory.MemoryStats_zero |}).
Proof.
  intros [Hps _].
  unfold Memory.counters_ok, Memory.initialize_pool, Memory.free_bytes, Memory.live_bytes.
  simpl. rewrite map_fold_empty.
  destruct (_ =? nullptr); simpl; repeat split; lia.
Qed.

Lemma reachable_counters_ok (st : Memory.Impl) :
  Memory.reachable st -> Memory.counters_ok st.
Proof.
  revert st. apply reachable_invariant.
  - intros ps r Hps _. now apply initialize_pool_counters_ok.
  - intros st c st' Hc Hwf HI Hstep.
    destruct c as [s a|p s| |r]; simpl in Hstep.
    + injection Hstep as <-. now apply allocate_counters_ok.
    + eauto using deallocate_counters_ok.
    + eauto using compact_counters_ok.
    + injection Hstep as <-. apply initialize_pool_counters_ok. now destruct Hwf.
Qed.

(** X9. In every reachable state the counters are exact enough to trust:
    [get_allocated_size()] and [current_usage] agree, they cover the live
    bytes, no increment or decrement ever wraps, and the peak stays between
    the current usage and the pool size. *)
Theorem usage_counters_never_wrap (st : Memory.Impl) :
  Memory.reachable st ->
  Memory.get_allocated_size st = Memory.current_usage (Memory.stats_ st)
  /\ 0 <= Memory.live_bytes st <= Memory.get_allocated_size st
  /\ Memory.free_bytes st + Memory.get_allocated_size st <= Memory.pool_size_ st
  /\ Memory.current_usage (Memory.stats_ st) <= Memory.peak_usage (Memory.stats_ st)
  /\ Memory.peak_usage (Memory.stats_ st) <= Memory.pool_size_ st.
Proof.
  intros Hreach.
  destruct (reachable_counters_ok st Hreach) as (Heq & Hlive & Hfree & Hsum & Hpeak).
  unfold Memory.get_allocated_size. repeat split; lia.
Qed.

(** ** The members of [MemoryStats] that the allocator never writes *)

Lemma alloc_step_totals (st st' : Memory.Impl) (c : Memory.alloc_call) :
  Memory.totals_untouched (Memory.stats_ st) ->
  Memory.alloc_step st c = Returns st' -> Memory.totals_untouched (Memory.stats_ st').
Proof.
  intros H. destruct c as [s a|p s| |r]; simpl.
  - intros [= <-]. unfold Memory.allocate.
    destruct (Memory.first_fit _ _ _) as [[i it]|]; simpl; exact H.
  - unfold Memory.deallocate. destruct (p =? nullptr); [now intros [= <-]|].
    destruct (Memory.allocated_blocks_ st !! p); [|now intros [= <-]].
    destruct (Memory.merge_free_blocks _); simpl; try discriminate.
    intros [= <-]. exact H.
  - unfold Memory.compact. destruct (Memory.merge_free_blocks _); simpl; try discriminate.
    intros [= <-]. exact H.
  - intros [= <-]. unfold Memory.reset, Memory.initialize_pool. simpl.
    unfold Memory.totals_untouched. simpl. tauto.
Qed.

(** X10. [get_stats] of the allocator never reports a total: [allocate]
    and [deallocate] keep [current_usage], [peak_usage] and the two call
    counts, and nothing else. *)
Theorem get_stats_totals_stay_zero (st : Memory.Impl) :
  Memory.reachable st ->
  let s := Memory.counters (Memory.get_stats st) in
  Memory.total_allocated s = 0 /\ Memory.total_deallocated s = 0
  /\ Memory.gpu_total_allocated s = 0 /\ Memory.gpu_current_usage s = 0
  /\ Memory.gpu_peak_usage s = 0.
Proof.
  intros Hreach. simpl. revert st Hreach.
  apply (reachable_invariant (fun st => Memory.totals_untouched (Memory.stats_ st))).
  - intros ps r _ _. unfold Memory.Impl_ctor, Memory.initialize_pool. simpl.
    unfold Memory.totals_untouched. simpl. tauto.
  - intros st c st' _ _ HI Hstep. eauto using alloc_step_totals.
Qed.

(** A run of calls on a new allocator ends in a reachable state. *)
Lemma alloc_run_reachable (pool_size mmap_result : Z) (calls : list Memory.alloc_call)
    (st : Memory.Impl) :
  Memory.fits_size_t pool_size -> 0 <= mmap_result -> Forall Memory.call_ok calls ->
  Memory.alloc_run (Memory.Impl_ctor pool_size mmap_result) calls = Returns st ->
  Memory.reachable st.
Proof. intros. exists pool_size, mmap_result, calls. auto. Qed.

Lemma usage_counters_never_wrap_witness :
  let st := snd (Memory.allocate (Memory.Impl_ctor 1024 65536) 100 8) in
  Memory.reachable st
  /\ Memory.get_allocated_size st = Memory.current_usage (Memory.stats_ st)
  /\ Memory.peak_usage (Memory.stats_ st) <= Memory.pool_size_ st.
Proof.
  intros st.
  assert (H : Memory.reachable st).
  { apply (alloc_run_reachable 1024 65536 [Memory.call_allocate 100 8]);
      [unfold Memory.fits_size_t; lia | lia | repeat constructor | reflexivity]. }
  split; [exact H|].
  destruct (usage_counters_never_wrap st H) as (H1 & _ & _ & _ & H5). now split.
Defined.

Lemma get_stats_totals_stay_zero_witness :
  let st := snd (Memory.allocate (Memory.Impl_ctor 1024 65536) 100 8) in
  Memory.reachable st
  /\ Memory.total_allocated (Memory.counters (Memory.get_stats st)) = 0.
Proof.
  intros st.
  assert (H : Memory.reachable st).
  { apply (alloc_run_reachable 1024 65536 [Memory.call_allocate 100 8]);
      [unfold Memory.fits_size_t; lia | lia | repeat constructor | reflexivity]. }
  split; [exact H|]. exact (proj1 (get_stats_totals_stay_zero st H)).
Defined.

(** ** No byte belongs to two blocks *)

Ltac bytes :=
  unfold Memory.no_shared_byte, Memory.in_arena, Memory.block_ok, Memory.fits_size_t in *;
  simpl in *; lia.

Lemma no_shared_byte_sym (a b : Memory.FreeBlock) :
  Memory.no_shared_byte a b -> Memory.no_shared_byte b a.
Proof. bytes. Qed.

(** A part of a block shares no byte with what the block shares none. *)
Lemma no_shared_byte_part (a a' c : Memory.FreeBlock) :
  Memory.ptr a <= Memory.ptr a' -> 0 <= Memory.size a' ->
  Memory.ptr a' + Memory.size a' <= Memory.ptr a + Memory.size a ->
  Memory.no_shared_byte a c -> Memory.no_shared_byte a' c.
Proof. bytes. Qed.

(** Two neighbours taken together share no byte with what neither
    shares a byte with. *)
Lemma no_shared_byte_merged (cur next c : Memory.FreeBlock) :
  0 <= Memory.size cur -> 0 <= Memory.size next -> 0 <= Memory.size c ->
  Memory.ptr cur + Memory.size cur = Memory.ptr next ->
  Memory.no_shared_byte cur c -> Memory.no_shared_byte next c ->
  Memory.no_shared_byte
    {| Memory.ptr := Memory.ptr cur; Memory.size := Memory.size cur + Memory.size next |} c.
Proof. bytes. Qed.

Lemma list_apart_Permutation (l l' : list Memory.FreeBlock) :
  l ≡ₚ l' -> Memory.list_apart l' -> Memory.list_apart l.
Proof.
  intros Hp Hl'. apply Permutation_inj in Hp as (_ & f & Hf & Hlk).
  intros i j a b Hij Ha Hb. rewrite Hlk in Ha, Hb.
  apply (Hl' (f i) (f j)); [|exact Ha|exact Hb]. intros E. apply Hij. now apply Hf.
Qed.

Lemma list_apart_delete (l : list Memory.FreeBlock) (k : nat) :
  Memory.list_apart l -> Memory.list_apart (delete k l).
Proof.
  intros Hl i j a b Hij. rewrite !list_lookup_delete. intros Ha Hb.
  eapply Hl; [|exact Ha|exact Hb]. repeat case_decide; lia.
Qed.

Lemma list_apart_snoc (l : list Memory.FreeBlock) (x : Memory.FreeBlock) :
  Memory.list_apart l -> Forall (fun a => Memory.no_shared_byte a x) l ->
  Memory.list_apart (l ++ [x]).
Proof.
  intros Hl Hx i j a b Hij Ha Hb.
  apply lookup_snoc_Some in Ha as [[Hi Ha]|[Hi <-]];
    apply lookup_snoc_Some in Hb as [[Hj Hb]|[Hj <-]].
  - eauto.
  - eapply Forall_lookup_1 in Hx; eauto.
  - apply no_shared_byte_sym. eapply Forall_lookup_1 in Hx; eauto.
  - lia.
Qed.

(** The elements of a vector after [erase]: those at the other positions. *)
Lemma lookup_delete_other {A : Type} (l : list A) (k i : nat) (x : A) :
  delete k l !! i = Some x -> exists i', i' <> k /\ l !! i' = Some x.
Proof.
  rewrite list_lookup_delete. case_decide; intros Hx; eexists; (split; [|exact Hx]); lia.
Qed.

Lemma Forall_apart_delete (l : list Memory.FreeBlock) (k : nat) (it : Memory.FreeBlock) :
  Memory.list_apart l -> l !! k = Some it ->
  Forall (fun c => Memory.no_shared_byte c it) (delete k l).
Proof.
  intros Hl Hit. apply Forall_lookup. intros i c Hc.
  destruct (lookup_delete_other _ _ _ _ Hc) as (i' & Hne & Hc'). eauto.
Qed.

(** The vector after one merge: position [j] holds the merged block, the
    other positions hold what was at the positions other than [j] and
    [j + 1], in the same order. *)
Lemma lookup_merged {A : Type} (v : list A) (j k : nat) (m x : A) :
  (S j < length v)%nat ->
  delete (S j) (<[j := m]> v) !! k = Some x ->
  k = j /\ x = m
  \/ k <> j /\ v !! (if decide (k < S j)%nat then k else S k) = Some x
     /\ (if decide (k < S j)%nat then k else S k) <> j
     /\ (if decide (k < S j)%nat then k else S k) <> S j.
Proof.
  intros Hlen. rewrite list_lookup_delete.
  destruct (decide (k = j)) as [->|Hne].
  - rewrite decide_True by lia. rewrite list_lookup_insert_eq by lia.
    intros [= <-]. now left.
  - intros H. right. split; [exact Hne|].
    case_decide; rewrite list_lookup_insert_ne in H by lia; (split; [exact H | lia]).
Qed.

Lemma list_apart_merged (v : list Memory.FreeBlock) (j : nat) (cur next : Memory.FreeBlock) :
  Forall Memory.block_ok v -> Memory.list_apart v ->
  v !! j = Some cur -> v !! S j = Some next ->
  Memory.ptr cur + Memory.size cur = Memory.ptr next ->
  Memory.list_apart
    (delete (S j)
       (<[j := {| Memory.ptr := Memory.ptr cur;
                  Memory.size := Memory.size cur + Memory.size next |}]> v)).
Proof.
  intros Hok Hv Hcur Hnext Hadj.
  pose proof (lookup_lt_Some _ _ _ Hnext) as Hlen.
  pose proof (Forall_lookup_1 _ _ _ _ Hok Hcur) as Hc.
  pose proof (Forall_lookup_1 _ _ _ _ Hok Hnext) as Hn.
  assert (Hone : forall k x,
             k <> j /\ v !! (if decide (k < S j)%nat then k else S k) = Some x
             /\ (if decide (k < S j)%nat then k else S k) <> j
             /\ (if decide (k < S j)%nat then k else S k) <> S j ->
             Memory.no_shared_byte
               {| Memory.ptr := Memory.ptr cur;
                  Memory.size := Memory.size cur + Memory.size next |} x).
  { intros k x (_ & Hx & H1 & H2).
    pose proof (Forall_lookup_1 _ _ _ _ Hok Hx) as Hxok.
    apply no_shared_byte_merged; try assumption; try bytes.
    - eapply Hv; [|exact Hcur|exact Hx]. lia.
    - eapply Hv; [|exact Hnext|exact Hx]. lia. }
  intros k l a b Hkl Ha Hb.
  apply lookup_merged in Ha; [|exact Hlen]. apply lookup_merged in Hb; [|exact Hlen].
  destruct Ha as [[-> ->]|Ha], Hb as [[-> ->]|Hb].
  - lia.
  - eauto.
  - apply no_shared_byte_sym. eauto.
  - destruct Ha as (_ & Ha & _), Hb as (_ & Hb & _).
    eapply Hv; [|exact Ha|exact Hb]. repeat case_decide; lia.
Qed.

(** The merge loop once more, for what a merge preserves only because the
    two blocks are neighbours in memory. *)
Lemma merge_loop_neighbours (Q : list Memory.FreeBlock -> Prop) (fuel : nat) :
  (forall v (j : nat) cur next,
     Q v -> v !! j = Some cur -> v !! S j = Some next ->
     Memory.ptr cur + Memory.size cur = Memory.ptr next ->
     Q (delete (S j)
          (<[j := {| Memory.ptr := Memory.ptr cur;
                     Memory.size := wrap (Memory.size cur + Memory.size next) |}]> v))) ->
  forall (v : list Memory.FreeBlock) (i : Z),
    0 <= i -> (0 < length v)%nat -> (length v - Z.to_nat i <= S fuel)%nat ->
    Q v ->
    exists v', Memory.merge_loop fuel i v = Some (Returns v') /\ Q v'.
Proof.
  intros HQ. induction fuel as [|fuel IH]; intros v i Hi Hlen Hfuel Hall.
  - destruct v as [|b v]; [simpl in Hlen; lia|].
    cbn [Memory.merge_loop].
    destruct (Z.ltb_spec i (wrap (vsize (b :: v) - 1))) as [Hlt|Hge].
    + exfalso. pose proof (wrap_le (vsize (b :: v) - 1)) as Hw.
      unfold vsize in *. simpl length in *. lia.
    + exists (b :: v). split; [reflexivity | exact Hall].
  - cbn [Memory.merge_loop].
    destruct (Z.ltb_spec i (wrap (vsize v - 1))) as [Hlt|Hge].
    2:{ exists v. split; [reflexivity | exact Hall]. }
    assert (Hw : wrap (vsize v - 1) <= vsize v - 1)
      by (apply wrap_le; unfold vsize; lia).
    assert (Hnext : Z.to_nat (i + 1) = S (Z.to_nat i)) by lia.
    rewrite Hnext.
    assert (Hi1 : (S (Z.to_nat i) < length v)%nat) by (unfold vsize in *; lia).
    assert (Hi0 : (Z.to_nat i < length v)%nat) by lia.
    destruct (lookup_lt_is_Some_2 v _ Hi0) as [cur Hcur].
    destruct (lookup_lt_is_Some_2 v _ Hi1) as [next Hnx].
    rewrite Hcur, Hnx. cbv zeta.
    destruct (Z.eqb_spec (Memory.ptr cur + Memory.size cur) (Memory.ptr next)) as [Hadj|_].
    + set (merged := {| Memory.ptr := Memory.ptr cur;
                        Memory.size := wrap (Memory.size cur + Memory.size next) |}).
      assert (Hlen' : length (delete (S (Z.to_nat i)) (<[Z.to_nat i := merged]> v))
                      = (length v - 1)%nat).
      { rewrite length_delete; [now rewrite length_insert|].
        apply lookup_lt_is_Some_2. now rewrite length_insert. }
      apply IH; try lia. now apply HQ.
    + assert (Hwi : wrap (i + 1) = i + 1).
      { apply wrap_small. pose proof (wrap_fits (vsize v - 1)) as [_ Hb].
        unfold Memory.fits_size_t. lia. }
      rewrite Hwi. apply IH; try lia; assumption.
Qed.

(** What the free list of a state is required to be, for the blocks of a
    vector [v] that is about to replace it. *)
Lemma merge_free_blocks_apart (st : Memory.Impl) (live : gmap Z Z)
    (v free : list Memory.FreeBlock) :
  Memory.fits_size_t (Memory.pool_size_ st) ->
  Forall Memory.block_ok v -> Forall (Memory.in_arena st) v ->
  Memory.list_apart v -> Forall (Memory.apart_from_live live) v ->
  map_Forall (fun p s => 0 < p /\ Memory.fits_size_t s) live ->
  Memory.merge_free_blocks v = Returns free ->
  Forall (Memory.in_arena st) free
  /\ Memory.list_apart free /\ Forall (Memory.apart_from_live live) free.
Proof.
  intros Hps Hok Har Hap Hlv Hlive Hm. unfold Memory.merge_free_blocks in Hm.
  destruct v as [|b0 v0]; [discriminate|]. set (v := b0 :: v0) in *.
  destruct (merge_loop_neighbours
              (fun w => Forall Memory.block_ok w /\ Forall (Memory.in_arena st) w
                        /\ Memory.list_apart w /\ Forall (Memory.apart_from_live live) w)
              (S (length (Memory.sort_by_ptr v))))
    with (v := Memory.sort_by_ptr v) (i := 0) as (v' & Hv' & _ & H1 & H2 & H3);
    rewrite ?sort_by_ptr_length; try (subst v; simpl; lia).
  - intros w j cur next (Hwok & Hwar & Hwap & Hwlv) Hcur Hnext Hadj.
    pose proof (Forall_lookup_1 _ _ _ _ Hwok Hcur) as Hc.
    pose proof (Forall_lookup_1 _ _ _ _ Hwok Hnext) as Hn.
    pose proof (Forall_lookup_1 _ _ _ _ Hwar Hcur) as Hca.
    pose proof (Forall_lookup_1 _ _ _ _ Hwar Hnext) as Hna.
    pose proof (Forall_lookup_1 _ _ _ _ Hwlv Hcur) as Hcl.
    pose proof (Forall_lookup_1 _ _ _ _ Hwlv Hnext) as Hnl.
    assert (Hw : wrap (Memory.size cur + Memory.size next)
                 = Memory.size cur + Memory.size next).
    { apply wrap_small. bytes. }
    rewrite Hw. split; [|split; [|split]].
    + rewrite <- Hw. apply Forall_delete, Forall_insert; [exact Hwok|].
      now apply block_ok_merged.
    + apply Forall_delete, Forall_insert; [exact Hwar|]. bytes.
    + now apply list_apart_merged.
    + apply Forall_delete, Forall_insert; [exact Hwlv|].
      intros p s Hp. destruct (Hlive p s Hp) as [_ Hs].
      apply no_shared_byte_merged; try assumption; try bytes; auto.
  - split; [now apply sort_by_ptr_Forall|].
    split; [now apply sort_by_ptr_Forall|].
    split; [|now apply sort_by_ptr_Forall].
    eapply list_apart_Permutation; [apply sort_by_ptr_Permutation | exact Hap].
  - rewrite Hv' in Hm. injection Hm as <-. auto.
Qed.

Lemma in_arena_same (st st' : Memory.Impl) (b : Memory.FreeBlock) :
  Memory.pool_memory_ st' = Memory.pool_memory_ st ->
  Memory.pool_size_ st' = Memory.pool_size_ st ->
  Memory.in_arena st b -> Memory.in_arena st' b.
Proof. unfold Memory.in_arena. intros -> ->. tauto. Qed.

Lemma allocate_blocks_ok (st : Memory.Impl) (size_arg alignment : Z) :
  Memory.well_formed st -> Memory.blocks_in_arena st -> Memory.blocks_apart st ->
  Memory.blocks_in_arena (snd (Memory.allocate st size_arg alignment))
  /\ Memory.blocks_apart (snd (Memory.allocate st size_arg alignment)).
Proof.
  intros (Hps & Hfree & Hlive) (Hfa & Hla) (Hff & Hfl & Hll).
  destruct (Memory.first_fit (Memory.aligned_size size_arg alignment)
              (Memory.free_blocks_ st) 0) as [[i it]|] eqn:Hfit.
  2:{ rewrite (allocate_miss _ _ _ Hfit). simpl.
      exact (conj (conj Hfa Hla) (conj Hff (conj Hfl Hll))). }
  destruct (first_fit_lookup _ _ _ _ Hfit) as (Hit & Hsz).
  destruct (allocate_hit st size_arg alignment i it Hfit) as (_ & Hf & Ha & Hpsz & Hpm).
  pose proof (aligned_size_fits size_arg alignment) as Hal.
  set (aligned := Memory.aligned_size size_arg alignment) in *.
  set (st' := snd (Memory.allocate st size_arg alignment)) in *.
  pose proof (Forall_lookup_1 _ _ _ _ Hfree Hit) as Hitok.
  pose proof (Forall_lookup_1 _ _ _ _ Hfa Hit) as Hita.
  pose proof (Forall_lookup_1 _ _ _ _ Hfl Hit) as Hitl.
  set (rest := {| Memory.ptr := Memory.ptr it + aligned;
                  Memory.size := wrap (Memory.size it - aligned) |}) in *.
  set (taken := {| Memory.ptr := Memory.ptr it; Memory.size := aligned |}).
  assert (Hw : Memory.size rest = Memory.size it - aligned).
  { simpl. apply wrap_small. bytes. }
  (* the two parts of the chosen block share no byte with what the block
     shares none *)
  assert (Hrest : forall c, Memory.no_shared_byte it c -> Memory.no_shared_byte rest c).
  { intros c. apply no_shared_byte_part; rewrite ?Hw; simpl; bytes. }
  assert (Htaken : forall c, Memory.no_shared_byte it c -> Memory.no_shared_byte taken c).
  { intros c. apply no_shared_byte_part; simpl; bytes. }
  assert (Hothers : Forall (fun c => Memory.no_shared_byte c it)
                      (delete i (Memory.free_blocks_ st)))
    by now apply Forall_apart_delete.
  assert (Hlive' : Memory.live_apart (<[Memory.ptr it := aligned]> (Memory.allocated_blocks_ st))).
  { intros p s q t Hpq Hp Hq.
    apply lookup_insert_Some in Hp as [[<- <-]|[Hp1 Hp]];
      apply lookup_insert_Some in Hq as [[<- <-]|[Hq1 Hq]]; try congruence.
    - apply (Htaken {| Memory.ptr := q; Memory.size := t |}). auto.
    - apply no_shared_byte_sym, (Htaken {| Memory.ptr := p; Memory.size := s |}). auto.
    - eauto. }
  assert (Hfl' : forall c, Memory.no_shared_byte c it ->
                   Memory.apart_from_live (Memory.allocated_blocks_ st) c ->
                   Memory.apart_from_live
                     (<[Memory.ptr it := aligned]> (Memory.allocated_blocks_ st)) c).
  { intros c Hc Hcl p s Hp.
    apply lookup_insert_Some in Hp as [[<- <-]|[_ Hp]]; [|auto].
    apply no_shared_byte_sym, Htaken, no_shared_byte_sym, Hc. }
  assert (Hdel : Forall (Memory.apart_from_live
                           (<[Memory.ptr it := aligned]> (Memory.allocated_blocks_ st)))
                   (delete i (Memory.free_blocks_ st))).
  { apply Forall_lookup. intros k c Hc.
    destruct (lookup_delete_other _ _ _ _ Hc) as (k' & Hne & Hc').
    apply Hfl'; [eauto | eapply Forall_lookup_1; eauto]. }
  unfold Memory.blocks_in_arena, Memory.blocks_apart. rewrite Hf, Ha.
  split; [split|split; [|split]].
  - assert (Hd : Forall (Memory.in_arena st') (delete i (Memory.free_blocks_ st))).
    { apply Forall_delete. eapply Forall_impl; [exact Hfa|].
      intros b. now apply in_arena_same. }
    destruct (wrap _ <? Memory.size it); [|exact Hd].
    unfold push_back. apply Forall_app. split; [exact Hd|].
    constructor; [|constructor]. apply (in_arena_same st); [exact Hpm | exact Hpsz |].
    unfold Memory.in_arena. rewrite Hw. simpl. bytes.
  - apply map_Forall_insert_2.
    + apply (in_arena_same st); [exact Hpm | exact Hpsz | bytes].
    + intros p s Hp. apply (in_arena_same st); [exact Hpm | exact Hpsz |].
      exact (Hla p s Hp).
  - destruct (wrap _ <? Memory.size it); [|now apply list_apart_delete].
    unfold push_back. apply list_apart_snoc; [now apply list_apart_delete|].
    eapply Forall_impl; [exact Hothers|].
    intros c Hc. apply no_shared_byte_sym, Hrest, no_shared_byte_sym, Hc.
  - destruct (wrap _ <? Memory.size it); [|exact Hdel].
    unfold push_back. apply Forall_app. split; [exact Hdel|].
    constructor; [|constructor].
    intros p s Hp. apply lookup_insert_Some in Hp as [[<- <-]|[_ Hp]].
    + unfold Memory.no_shared_byte. rewrite Hw. simpl. bytes.
    + apply Hrest. auto.
  - exact Hlive'.
Qed.

Lemma live_apart_delete (live : gmap Z Z) (p : Z) :
  Memory.live_apart live -> Memory.live_apart (delete p live).
Proof.
  intros H q s r t Hqr Hq Hr.
  apply lookup_delete_Some in Hq as [_ Hq]. apply lookup_delete_Some in Hr as [_ Hr]. eauto.
Qed.

Lemma deallocate_blocks_ok (st st' : Memory.Impl) (p size_arg : Z) :
  Memory.well_formed st -> Memory.blocks_in_arena st -> Memory.blocks_apart st ->
  Memory.deallocate st p size_arg = Returns st' ->
  Memory.blocks_in_arena st' /\ Memory.blocks_apart st'.
Proof.
  intros (Hps & Hfree & Hlive) (Hfa & Hla) (Hff & Hfl & Hll) Hd.
  destruct (deallocate_cases st p size_arg)
    as [[_ H]|(bs & free & Hne & Hp & Hm & _ & _ & st'' & H & Hf & Ha & Hpsz & Hpm)].
  { rewrite H in Hd. injection Hd as <-.
    exact (conj (conj Hfa Hla) (conj Hff (conj Hfl Hll))). }
  assert (st'' = st') by congruence. subst st''.
  set (freed := {| Memory.ptr := p; Memory.size := bs |}) in *.
  destruct (merge_free_blocks_apart st (delete p (Memory.allocated_blocks_ st))
              (push_back (Memory.free_blocks_ st) freed) free) as (H1 & H2 & H3);
    try assumption.
  - unfold push_back. apply Forall_app. split; [exact Hfree|].
    constructor; [exact (Hlive p bs Hp) | constructor].
  - unfold push_back. apply Forall_app. split; [exact Hfa|].
    constructor; [exact (Hla p bs Hp) | constructor].
  - unfold push_back. apply list_apart_snoc; [exact Hff|].
    eapply Forall_impl; [exact Hfl|]. intros c Hc. exact (Hc p bs Hp).
  - unfold push_back. apply Forall_app. split.
    + eapply Forall_impl; [exact Hfl|]. intros c Hc q t Hq.
      apply lookup_delete_Some in Hq as [_ Hq]. auto.
    + constructor; [|constructor]. intros q t Hq.
      apply lookup_delete_Some in Hq as [Hpq Hq]. exact (Hll p bs q t Hpq Hp Hq).
  - now apply map_Forall_delete.
  - unfold Memory.blocks_in_arena, Memory.blocks_apart. rewrite Hf, Ha.
    split; [split|split; [|split]]; try assumption.
    + eapply Forall_impl; [exact H1|]. intros b. now apply in_arena_same.
    + apply map_Forall_delete. intros q t Hq.
      apply (in_arena_same st); [exact Hpm | exact Hpsz |]. exact (Hla q t Hq).
    + now apply live_apart_delete.
Qed.

Lemma compact_blocks_ok (st st' : Memory.Impl) :
  Memory.well_formed st -> Memory.blocks_in_arena st -> Memory.blocks_apart st ->
  Memory.compact st = Returns st' ->
  Memory.blocks_in_arena st' /\ Memory.blocks_apart st'.
Proof.
  intros (Hps & Hfree & Hlive) (Hfa & Hla) (Hff & Hfl & Hll) Hc.
  unfold Memory.compact in Hc.
  destruct (Memory.merge_free_blocks (Memory.free_blocks_ st)) as [free| |] eqn:Hm;
    simpl in Hc; try discriminate.
  injection Hc as <-.
  destruct (merge_free_blocks_apart st (Memory.allocated_blocks_ st)
              (Memory.free_blocks_ st) free) as (H1 & H2 & H3); try assumption.
  unfold Memory.blocks_in_arena, Memory.blocks_apart. simpl.
  split; [split|split; [|split]]; assumption.
Qed.

Lemma initialize_pool_blocks_ok (mmap_result pool_size pool_memory : Z) :
  let st := Memory.initialize_pool mmap_result
              {| Memory.pool_size_ := pool_size;
                 Memory.pool_memory_ := pool_memory;
                 Memory.free_blocks_ := [];
                 Memory.allocated_blocks_ := ∅;
                 Memory.allocated_size_ := 0;
                 Memory.stats_ := Memory.MemoryStats_zero |} in
  Memory.blocks_in_arena st /\ Memory.blocks_apart st.
Proof.
  unfold Memory.initialize_pool, Memory.blocks_in_arena, Memory.blocks_apart. simpl.
  assert (Hempty : Memory.live_apart ∅) by (intros p s q t _ Hp; now rewrite lookup_empty in Hp).
  assert (Hnil : Memory.list_apart []) by (intros i j a b _ Ha; now rewrite lookup_nil in Ha).
  destruct (_ =? nullptr); simpl.
  - split; [split; [constructor | apply map_Forall_empty]|].
    split; [exact Hnil | split; [constructor | exact Hempty]].
  - split; [split; [|apply map_Forall_empty]|split; [|split; [|exact Hempty]]].
    + constructor; [|constructor]. unfold Memory.in_arena. simpl. lia.
    + intros [|i] [|j] a b Hij Ha Hb; simpl in *; try congruence;
        try (now rewrite lookup_nil in Ha); now rewrite lookup_nil in Hb.
    + constructor; [|constructor]. intros p s Hp. now rewrite lookup_empty in Hp.
Qed.

Lemma reachable_blocks_ok (st : Memory.Impl) :
  Memory.reachable st -> Memory.blocks_in_arena st /\ Memory.blocks_apart st.
Proof.
  revert st. apply reachable_invariant.
  - intros ps r _ _. apply initialize_pool_blocks_ok.
  - intros st c st' _ Hwf [Hin Hap] Hstep.
    destruct c as [s a|p s| |r]; simpl in Hstep.
    + injection Hstep as <-. now apply allocate_blocks_ok.
    + eauto using deallocate_blocks_ok.
    + eauto using compact_blocks_ok.
    + injection Hstep as <-. apply initialize_pool_blocks_ok.
Qed.

(** ** What the callers hold *)

(** [give_back] takes out one region, and only a region that starts at
    [p]. *)
Lemma give_back_elem (p : Z) (held : list Memory.FreeBlock) (b : Memory.FreeBlock) :
  b ∈ Memory.give_back p held -> b ∈ held.
Proof.
  induction held as [|c held IH]; simpl; [auto|].
  destruct (Memory.ptr c =? p).
  - intros H. now apply list_elem_of_further.
  - intros [->|H]%elem_of_cons; [apply list_elem_of_here | apply list_elem_of_further; auto].
Qed.

Lemma give_back_other (p : Z) (held : list Memory.FreeBlock) (b : Memory.FreeBlock) :
  b ∈ held -> Memory.ptr b <> p -> b ∈ Memory.give_back p held.
Proof.
  induction held as [|c held IH]; simpl; [auto|].
  intros [->|H]%elem_of_cons Hne.
  - destruct (Z.eqb_spec (Memory.ptr c) p); [contradiction | apply list_elem_of_here].
  - destruct (Memory.ptr c =? p); [exact H | apply list_elem_of_further; auto].
Qed.

Lemma give_back_NoDup (p : Z) (held : list Memory.FreeBlock) :
  NoDup (Memory.ptr <$> held) ->
  NoDup (Memory.ptr <$> Memory.give_back p held)
  /\ forall b, b ∈ Memory.give_back p held -> Memory.ptr b <> p.
Proof.
  induction held as [|c held IH]; simpl.
  - intros _. split; [constructor | intros b Hb; now apply elem_of_nil in Hb].
  - intros [Hc Hnd]%NoDup_cons. destruct (IH Hnd) as [IH1 IH2].
    destruct (Z.eqb_spec (Memory.ptr c) p) as [Hcp|Hcp].
    + split; [exact Hnd|]. intros b Hb E. apply Hc. rewrite Hcp, <- E.
      apply list_elem_of_fmap. now exists b.
    + split.
      * simpl. apply NoDup_cons. split; [|exact IH1].
        intros Hin. apply Hc. apply list_elem_of_fmap in Hin as (b & E & Hb).
        apply list_elem_of_fmap. exists b. split; [exact E|]. eapply give_back_elem, Hb.
      * intros b [->|Hb]%elem_of_cons; auto.
Qed.

Lemma give_back_absent (p : Z) (held : list Memory.FreeBlock) :
  (forall b, b ∈ held -> Memory.ptr b <> p) -> Memory.give_back p held = held.
Proof.
  induction held as [|c held IH]; simpl; [auto|]. intros H.
  destruct (Z.eqb_spec (Memory.ptr c) p) as [Hcp|_].
  - exfalso. apply (H c); [apply list_elem_of_here | exact Hcp].
  - f_equal. apply IH. intros b Hb. apply H. now apply list_elem_of_further.
Qed.

(** One plain call keeps the callers' regions and the table in step. *)
Lemma held_step_ok (st st' : Memory.Impl) (held : list Memory.FreeBlock) (c : Memory.alloc_call) :
  Memory.call_plain c -> Memory.well_formed st -> Memory.blocks_apart st ->
  Memory.held_ok st held ->
  Memory.alloc_step st c = Returns st' ->
  Memory.held_ok st' (Memory.held_step st held c).
Proof.
  intros Hc (Hps & Hfree & Hlive) (Hff & Hfl & Hll) (Hnd & Hheld & Htab) Hstep.
  destruct c as [size_arg alignment|p size_arg| |r]; simpl in Hc, Hstep |- *.
  - (* allocate *)
    destruct Hc as (Hs & Hal & Hov). injection Hstep as <-.
    destruct (Memory.first_fit (Memory.aligned_size size_arg alignment)
                (Memory.free_blocks_ st) 0) as [[i it]|] eqn:Hfit.
    2:{ rewrite (allocate_miss _ _ _ Hfit). simpl. exact (conj Hnd (conj Hheld Htab)). }
    destruct (first_fit_lookup _ _ _ _ Hfit) as (Hit & Hsz).
    destruct (allocate_hit st size_arg alignment i it Hfit) as (Hptr & _ & Ha & _).
    pose proof (aligned_size_le_request size_arg alignment ltac:(lia) Hal Hov) as Hle.
    pose proof (Forall_lookup_1 _ _ _ _ Hfree Hit) as [Hitp _].
    pose proof (Forall_lookup_1 _ _ _ _ Hfl Hit) as Hitl.
    rewrite Hptr.
    destruct (Z.eqb_spec (Memory.ptr it) nullptr) as [E|_]; [unfold nullptr in E; lia|].
    assert (Hnew : Memory.allocated_blocks_ st !! Memory.ptr it = None).
    { destruct (Memory.allocated_blocks_ st !! Memory.ptr it) as [s|] eqn:Hs'; [|reflexivity].
      exfalso. destruct (Htab _ _ Hs') as [Hpos _]. specialize (Hitl _ _ Hs').
      unfold Memory.no_shared_byte in Hitl. simpl in Hitl. lia. }
    assert (Hfresh : forall b, b ∈ held -> Memory.ptr b <> Memory.ptr it).
    { intros b Hb E. apply (proj1 (Forall_forall _ _) Hheld) in Hb as (s & Hb & _).
      rewrite E in Hb. congruence. }
    unfold Memory.held_ok. rewrite Ha. unfold push_back. split; [|split].
    + rewrite fmap_app. simpl. apply NoDup_app. split; [exact Hnd|]. split.
      * intros q Hq [->|Hn]%elem_of_cons; [|now apply elem_of_nil in Hn].
        apply list_elem_of_fmap in Hq as (b & E & Hb). now apply (Hfresh b).
      * apply NoDup_singleton.
    + apply Forall_app. split.
      * apply Forall_forall. intros b Hb.
        destruct (proj1 (Forall_forall _ _) Hheld b Hb) as (s & Hs' & Hbs).
        exists s. split; [|exact Hbs]. rewrite lookup_insert_ne; [exact Hs'|].
        intros E. now apply (Hfresh b).
      * constructor; [|constructor]. simpl.
        exists (Memory.aligned_size size_arg alignment).
        split; [apply lookup_insert_eq | lia].
    + intros q s Hq. apply lookup_insert_Some in Hq as [[<- <-]|[Hne Hq]].
      * split; [lia|]. eexists. split; [apply elem_of_app; right; apply list_elem_of_here|].
        reflexivity.
      * destruct (Htab _ _ Hq) as (Hpos & b & Hb & Hbp). split; [exact Hpos|].
        exists b. split; [apply elem_of_app; now left | exact Hbp].
  - (* deallocate *)
    destruct (give_back_NoDup p held Hnd) as [Hnd' Hgone].
    destruct (deallocate_cases st p size_arg)
      as [[Hmiss H]|(bs & free & Hne & Hp & _ & _ & _ & st'' & H & _ & Ha & _)].
    + rewrite H in Hstep. injection Hstep as <-.
      rewrite give_back_absent; [exact (conj Hnd (conj Hheld Htab))|].
      intros b Hb E. apply (proj1 (Forall_forall _ _) Hheld) in Hb as (s & Hb & _).
      rewrite E in Hb. destruct Hmiss as [->|Hnone]; [|congruence].
      destruct (Hlive _ _ Hb) as [Hpos _]. unfold nullptr in Hpos. lia.
    + assert (st'' = st') by congruence. subst st''.
      unfold Memory.held_ok. rewrite Ha. split; [exact Hnd'|]. split.
      * apply Forall_forall. intros b Hb.
        destruct (proj1 (Forall_forall _ _) Hheld b (give_back_elem _ _ _ Hb)) as (s & Hs & Hbs).
        exists s. split; [|exact Hbs]. rewrite lookup_delete_ne; [exact Hs|].
        intros E. now apply (Hgone b).
      * intros q s Hq. apply lookup_delete_Some in Hq as [Hne' Hq].
        destruct (Htab _ _ Hq) as (Hpos & b & Hb & Hbp). split; [exact Hpos|].
        exists b. split; [|exact Hbp]. apply give_back_other; [exact Hb | congruence].
  - (* compact *)
    destruct (compact_cases st) as [[_ H]|(free & st'' & H & _ & _ & _ & Ha & _)];
      [congruence|].
    assert (st'' = st') by congruence. subst st''.
    unfold Memory.held_ok. rewrite Ha. exact (conj Hnd (conj Hheld Htab)).
  - contradiction.
Qed.

Lemma call_plain_ok (c : Memory.alloc_call) : Memory.call_plain c -> Memory.call_ok c.
Proof. destruct c; simpl; tauto. Qed.

Lemma alloc_step_blocks_ok (st st' : Memory.Impl) (c : Memory.alloc_call) :
  Memory.well_formed st -> Memory.blocks_in_arena st -> Memory.blocks_apart st ->
  Memory.alloc_step st c = Returns st' ->
  Memory.blocks_in_arena st' /\ Memory.blocks_apart st'.
Proof.
  intros Hwf Hin Hap Hstep. destruct c as [s a|p s| |r]; simpl in Hstep.
  - injection Hstep as <-. now apply allocate_blocks_ok.
  - eauto using deallocate_blocks_ok.
  - eauto using compact_blocks_ok.
  - injection Hstep as <-. apply initialize_pool_blocks_ok.
Qed.

(** A plain run on a fresh allocator: the state it reaches, and the
    callers' regions in step with the table. *)
Lemma held_run_ok (calls : list Memory.alloc_call) :
  forall st held st' held',
    Forall Memory.call_plain calls ->
    Memory.well_formed st -> Memory.blocks_in_arena st -> Memory.blocks_apart st ->
    Memory.held_ok st held ->
    Memory.held_run st held calls = Returns (st', held') ->
    Memory.well_formed st' /\ Memory.blocks_in_arena st' /\ Memory.blocks_apart st'
    /\ Memory.held_ok st' held'.
Proof.
  induction calls as [|c calls IH]; intros st held st' held' Hplain Hwf Hin Hap Hheld; simpl.
  - intros [= <- <-]. auto.
  - inversion Hplain as [|? ? Hc Hcs]; subst.
    destruct (Memory.alloc_step st c) as [st2| |] eqn:Hs; try discriminate.
    change (Memory.held_run st2 (Memory.held_step st held c) calls = Returns (st', held') ->
            Memory.well_formed st' /\ Memory.blocks_in_arena st' /\ Memory.blocks_apart st'
            /\ Memory.held_ok st' held').
    destruct (alloc_step_blocks_ok st st2 c Hwf Hin Hap Hs) as [Hin2 Hap2].
    apply IH; [exact Hcs | | exact Hin2 | exact Hap2 | eapply held_step_ok; eauto].
    apply (alloc_run_well_formed [c] st st2);
      [constructor; [now apply call_plain_ok | constructor] | exact Hwf |].
    simpl. now rewrite Hs.
Qed.

Lemma held_run_fresh (pool_size mmap_result : Z) (calls : list Memory.alloc_call)
    (st : Memory.Impl) (held : list Memory.FreeBlock) :
  Memory.fits_size_t pool_size -> 0 <= mmap_result -> Forall Memory.call_plain calls ->
  Memory.held_run (Memory.Impl_ctor pool_size mmap_result) [] calls = Returns (st, held) ->
  Memory.well_formed st /\ Memory.blocks_in_arena st /\ Memory.blocks_apart st
  /\ Memory.held_ok st held.
Proof.
  intros Hps Hr Hplain. apply held_run_ok; [exact Hplain | now apply ctor_well_formed | | |].
  - apply initialize_pool_blocks_ok.
  - apply initialize_pool_blocks_ok.
  - split; [constructor|]. split; [constructor|].
    intros p s Hp. exfalso. revert Hp. unfold Memory.Impl_ctor, Memory.initialize_pool. simpl.
    now rewrite lookup_empty.
Qed.

(** X11. In a plain run on a fresh allocator (no [reset]; every [allocate]
    asks for at least one byte and its rounding does not overflow), the
    regions that the callers hold are exactly the entries of
    [allocated_blocks_]: every region handed out and not given back is
    non-empty, lies inside the arena and is covered by the table entry at
    its address, every table entry is held by a caller, and no two held
    regions share a byte. *)
Theorem held_regions_never_overlap (pool_size mmap_result : Z)
    (calls : list Memory.alloc_call) (st : Memory.Impl) (held : list Memory.FreeBlock) :
  Memory.fits_size_t pool_size -> 0 <= mmap_result -> Forall Memory.call_plain calls ->
  Memory.held_run (Memory.Impl_ctor pool_size mmap_result) [] calls = Returns (st, held) ->
  Forall (fun b => 0 < Memory.size b /\ Memory.in_arena st b
                   /\ exists s, Memory.allocated_blocks_ st !! Memory.ptr b = Some s
                                /\ Memory.size b <= s) held
  /\ (forall p s, Memory.allocated_blocks_ st !! p = Some s ->
        exists b, b ∈ held /\ Memory.ptr b = p)
  /\ (forall (i j : nat) a b, i <> j -> held !! i = Some a -> held !! j = Some b ->
        Memory.ptr a + Memory.size a <= Memory.ptr b
        \/ Memory.ptr b + Memory.size b <= Memory.ptr a).
Proof.
  intros Hps Hr Hplain Hrun.
  destruct (held_run_fresh _ _ _ _ _ Hps Hr Hplain Hrun)
    as (_ & (_ & Hla) & (_ & _ & Hll) & Hnd & Hheld & Htab).
  split; [|split].
  - apply Forall_forall. intros b Hb.
    destruct (proj1 (Forall_forall _ _) Hheld b Hb) as (s & Hs & Hbs).
    pose proof (Hla _ _ Hs) as Hin. unfold Memory.in_arena in *. simpl in Hin.
    split; [lia|]. split; [lia|]. exists s. split; [exact Hs | lia].
  - intros p s Hp. exact (proj2 (Htab p s Hp)).
  - intros i j a b Hij Ha Hb.
    destruct (proj1 (Forall_forall _ _) Hheld a (list_elem_of_lookup_2 _ _ _ Ha)) as (s & Hs & Has).
    destruct (proj1 (Forall_forall _ _) Hheld b (list_elem_of_lookup_2 _ _ _ Hb)) as (t & Ht & Hbt).
    assert (Hne : Memory.ptr a <> Memory.ptr b).
    { intros E. apply Hij. apply (NoDup_lookup _ i j (Memory.ptr a) Hnd);
        rewrite list_lookup_fmap; [rewrite Ha | rewrite Hb]; simpl; [reflexivity|].
      now rewrite E. }
    pose proof (Hll _ _ _ _ Hne Hs Ht) as Hap.
    unfold Memory.no_shared_byte in Hap. simpl in Hap. lia.
Qed.

(** X12. After a plain run on a fresh allocator, the [size_arg] bytes at a
    non-null pointer that [allocate] returns lie inside the arena and
    share no byte with any region that a caller holds at that time. *)
Theorem allocate_region_is_held_by_nobody (pool_size mmap_result : Z)
    (calls : list Memory.alloc_call) (st : Memory.Impl) (held : list Memory.FreeBlock)
    (size_arg alignment : Z) :
  Memory.fits_size_t pool_size -> 0 <= mmap_result -> Forall Memory.call_plain calls ->
  Memory.held_run (Memory.Impl_ctor pool_size mmap_result) [] calls = Returns (st, held) ->
  0 < size_arg -> 1 <= alignment -> size_arg + alignment - 1 < 2 ^ 64 ->
  let p := fst (Memory.allocate st size_arg alignment) in
  p <> nullptr ->
  Memory.in_arena st {| Memory.ptr := p; Memory.size := size_arg |}
  /\ Forall (fun b => Memory.ptr b + Memory.size b <= p \/ p + size_arg <= Memory.ptr b) held.
Proof.
  intros Hps Hr Hplain Hrun Hs Hal Hov p Hp.
  destruct (held_run_fresh _ _ _ _ _ Hps Hr Hplain Hrun)
    as ((_ & Hfree & _) & (Hfa & _) & (_ & Hfl & _) & _ & Hheld & _).
  subst p.
  destruct (Memory.first_fit (Memory.aligned_size size_arg alignment)
              (Memory.free_blocks_ st) 0) as [[i it]|] eqn:Hfit.
  2:{ rewrite (allocate_miss _ _ _ Hfit) in Hp. now elim Hp. }
  destruct (first_fit_lookup _ _ _ _ Hfit) as (Hit & Hsz).
  destruct (allocate_hit st size_arg alignment i it Hfit) as (Hptr & _).
  pose proof (aligned_size_le_request size_arg alignment ltac:(lia) Hal Hov) as Hle.
  pose proof (Forall_lookup_1 _ _ _ _ Hfa Hit) as Hita.
  pose proof (Forall_lookup_1 _ _ _ _ Hfl Hit) as Hitl.
  rewrite Hptr. split; [unfold Memory.in_arena in *; simpl; lia|].
  apply Forall_forall. intros b Hb.
  destruct (proj1 (Forall_forall _ _) Hheld b Hb) as (s & Hs' & Hbs).
  specialize (Hitl _ _ Hs'). unfold Memory.no_shared_byte in Hitl. simpl in Hitl. lia.
Qed.

Lemma held_regions_never_overlap_witness :
  let calls := [Memory.call_allocate 100 8; Memory.call_allocate 16 8;
                Memory.call_deallocate 65536 100; Memory.call_allocate 32 8] in
  Forall Memory.call_plain calls
  /\ exists st held,
       Memory.held_run (Memory.Impl_ctor 1024 65536) [] calls = Returns (st, held)
       /\ length held = 2%nat
       /\ forall (i j : nat) a b, i <> j -> held !! i = Some a -> held !! j = Some b ->
            Memory.ptr a + Memory.size a <= Memory.ptr b
            \/ Memory.ptr b + Memory.size b <= Memory.ptr a.
Proof.
  intros calls.
  assert (Hplain : Forall Memory.call_plain calls) by (repeat constructor; simpl; lia).
  split; [exact Hplain|]. eexists _, _.
  assert (Hrun : Memory.held_run (Memory.Impl_ctor 1024 65536) [] calls = Returns (_, _))
    by (vm_compute; reflexivity).
  split; [exact Hrun|]. split; [reflexivity|].
  refine (proj2 (proj2 (held_regions_never_overlap 1024 65536 calls _ _ _ _ Hplain Hrun)));
    [unfold Memory.fits_size_t; lia | lia].
Defined.

Lemma allocate_region_is_held_by_nobody_witness :
  let calls := [Memory.call_allocate 100 8] in
  Forall Memory.call_plain calls
  /\ exists st held,
       Memory.held_run (Memory.Impl_ctor 1024 65536) [] calls = Returns (st, held)
       /\ fst (Memory.allocate st 16 8) <> nullptr
       /\ Memory.in_arena st {| Memory.ptr := fst (Memory.allocate st 16 8); Memory.size := 16 |}.
Proof.
  intros calls.
  assert (Hplain : Forall Memory.call_plain calls) by (repeat constructor; simpl; lia).
  split; [exact Hplain|]. eexists _, _.
  assert (Hrun : Memory.held_run (Memory.Impl_ctor 1024 65536) [] calls = Returns (_, _))
    by (vm_compute; reflexivity).
  split; [exact Hrun|].
  assert (Hp : fst (Memory.allocate (snd (Memory.allocate (Memory.Impl_ctor 1024 65536) 100 8))
                      16 8) <> nullptr) by (vm_compute; discriminate).
  split; [exact Hp|].
  refine (proj1 (allocate_region_is_held_by_nobody 1024 65536 calls _ _ 16 8 _ _ Hplain Hrun
                   _ _ _ Hp)); [unfold Memory.fits_size_t; lia | lia | lia | lia | lia].
Defined.

(** Why a plain run asks for at least one byte.  [allocate(0, 8)] records
    an allocation of 0 bytes at the start of a free block and leaves the
    block where it is, so the next [allocate] returns the same address and
    overwrites the table entry; the [deallocate] of the first caller then
    frees the bytes of the second, and the next [allocate] hands them out
    again: two callers hold the same 16 bytes. *)
Lemma zero_size_allocation_is_handed_out_again :
  let calls := [Memory.call_allocate 0 8; Memory.call_allocate 16 8;
                Memory.call_deallocate 65536 0; Memory.call_allocate 16 8] in
  exists st,
    Memory.held_run (Memory.Impl_ctor 1024 65536) [] calls
    = Returns (st, [{| Memory.ptr := 65536; Memory.size := 16 |};
                    {| Memory.ptr := 65536; Memory.size := 16 |}])
    /\ Memory.allocated_blocks_ st !! 65536 = Some 16.
Proof. eexists. split; vm_compute; reflexivity. Qed.

(** ** What the merge pass achieves *)

Lemma sort_insert_head (b : Memory.FreeBlock) (l : list Memory.FreeBlock) (y : Memory.FreeBlock) :
  Memory.sort_insert b l !! 0%nat = Some y -> y = b \/ l !! 0%nat = Some y.
Proof.
  destruct l as [|c l]; simpl; [intros [= <-]; now left|].
  destruct (Memory.ptr c <? Memory.ptr b); simpl; intros [= <-]; auto.
Qed.

(** The sorted vector: every block starts at or after the one before. *)
Lemma sort_insert_ordered (b : Memory.FreeBlock) (l : list Memory.FreeBlock) :
  (forall (j : nat) x y, l !! j = Some x -> l !! S j = Some y -> Memory.ptr x <= Memory.ptr y) ->
  forall (j : nat) x y,
    Memory.sort_insert b l !! j = Some x -> Memory.sort_insert b l !! S j = Some y ->
    Memory.ptr x <= Memory.ptr y.
Proof.
  induction l as [|c l IH]; intros Hl j x y; simpl.
  - destruct j; simpl; [discriminate | intros H; now rewrite lookup_nil in H].
  - destruct (Z.ltb_spec (Memory.ptr c) (Memory.ptr b)) as [Hlt|Hge].
    + destruct j as [|j]; simpl.
      * intros [= <-] Hy. apply sort_insert_head in Hy as [->|Hy]; [lia|].
        exact (Hl 0%nat c y eq_refl Hy).
      * apply IH. intros k u v Hu Hv. exact (Hl (S k) u v Hu Hv).
    + destruct j as [|j]; simpl.
      * intros [= <-] [= <-]. lia.
      * exact (Hl j x y).
Qed.

Lemma sort_by_ptr_ordered (l : list Memory.FreeBlock) :
  forall (j : nat) x y,
    Memory.sort_by_ptr l !! j = Some x -> Memory.sort_by_ptr l !! S j = Some y ->
    Memory.ptr x <= Memory.ptr y.
Proof.
  induction l as [|b l IH]; simpl.
  - intros j x y H. now rewrite lookup_nil in H.
  - now apply sort_insert_ordered.
Qed.

(** The loop keeps the order, and leaves behind it only neighbours that do
    not touch. *)
Lemma merge_loop_coalesces (fuel : nat) :
  forall (v : list Memory.FreeBlock) (i : Z) v',
    0 <= i -> vsize v < 2 ^ 64 ->
    (forall (j : nat) a b, v !! j = Some a -> v !! S j = Some b ->
       Memory.ptr a <= Memory.ptr b) ->
    (forall (j : nat) a b, (j < Z.to_nat i)%nat -> v !! j = Some a -> v !! S j = Some b ->
       Memory.ptr a + Memory.size a <> Memory.ptr b) ->
    Memory.merge_loop fuel i v = Some (Returns v') ->
    Memory.no_touching_neighbours v'.
Proof.
  assert (Hexit : forall (v : list Memory.FreeBlock) (i : Z),
             0 <= i -> vsize v < 2 ^ 64 ->
             (forall (j : nat) a b, v !! j = Some a -> v !! S j = Some b ->
                Memory.ptr a <= Memory.ptr b) ->
             (forall (j : nat) a b, (j < Z.to_nat i)%nat ->
                v !! j = Some a -> v !! S j = Some b ->
                Memory.ptr a + Memory.size a <> Memory.ptr b) ->
             wrap (vsize v - 1) <= i -> Memory.no_touching_neighbours v).
  { intros v i Hi Hfit Hord Hdone Hge j a b Ha Hb. split; [eauto|].
    apply (Hdone j a b); auto.
    pose proof (lookup_lt_Some _ _ _ Hb) as Hlen.
    rewrite wrap_small in Hge by (unfold Memory.fits_size_t, vsize in *; lia).
    unfold vsize in Hge. lia. }
  induction fuel as [|fuel IH]; intros v i v' Hi Hfit Hord Hdone; cbn [Memory.merge_loop].
  - destruct (Z.ltb_spec i (wrap (vsize v - 1))) as [Hlt|Hge]; [discriminate|].
    intros [= <-]. eauto.
  - destruct (Z.ltb_spec i (wrap (vsize v - 1))) as [Hlt|Hge]; [|intros [= <-]; eauto].
    assert (Hnext : Z.to_nat (i + 1) = S (Z.to_nat i)) by lia. rewrite Hnext.
    destruct (v !! Z.to_nat i) as [cur|] eqn:Hcur; [|discriminate].
    destruct (v !! S (Z.to_nat i)) as [next|] eqn:Hnx; [|discriminate].
    cbv zeta.
    pose proof (lookup_lt_Some _ _ _ Hnx) as Hlen.
    destruct (Z.eqb_spec (Memory.ptr cur + Memory.size cur) (Memory.ptr next)) as [Hadj|Hno].
    + apply IH; [exact Hi | | |].
      * unfold vsize in *. rewrite length_delete, length_insert; [lia|].
        apply lookup_lt_is_Some_2. now rewrite length_insert.
      * intros j a b Ha Hb.
        apply lookup_merged in Ha; [|exact Hlen]. apply lookup_merged in Hb; [|exact Hlen].
        destruct Ha as [[-> ->]|(Hj & Ha & _)], Hb as [[E ->]|(Hsj & Hb & _)]; simpl.
        -- lia.
        -- rewrite decide_False in Hb by lia.
           pose proof (Hord _ _ _ Hcur Hnx). pose proof (Hord _ _ _ Hnx Hb). lia.
        -- rewrite decide_True in Ha by lia.
           rewrite <- E in Hcur. exact (Hord _ _ _ Ha Hcur).
        -- repeat case_decide; try lia; eauto.
      * intros j a b Hlt' Ha Hb.
        apply lookup_merged in Ha; [|exact Hlen]. apply lookup_merged in Hb; [|exact Hlen].
        destruct Ha as [[-> ->]|(Hj & Ha & _)]; [lia|].
        rewrite decide_True in Ha by lia.
        destruct Hb as [[E ->]|(Hsj & Hb & _)]; simpl.
        -- rewrite <- E in Hcur. exact (Hdone _ _ _ Hlt' Ha Hcur).
        -- rewrite decide_True in Hb by lia. exact (Hdone _ _ _ Hlt' Ha Hb).
    + assert (Hwi : wrap (i + 1) = i + 1).
      { apply wrap_small. pose proof (wrap_fits (vsize v - 1)) as [_ Hb].
        unfold Memory.fits_size_t. lia. }
      rewrite Hwi. apply IH; [lia | exact Hfit | exact Hord |].
      intros j a b Hlt' Ha Hb.
      destruct (decide (j = Z.to_nat i)) as [->|Hne].
      * assert (a = cur) by congruence. assert (b = next) by congruence. now subst.
      * apply (Hdone j a b); auto. lia.
Qed.

Lemma merge_free_blocks_coalesces (v v' : list Memory.FreeBlock) :
  vsize v < 2 ^ 64 ->
  Memory.merge_free_blocks v = Returns v' -> Memory.no_touching_neighbours v'.
Proof.
  intros Hfit. unfold Memory.merge_free_blocks.
  destruct (Memory.merge_loop _ 0 _) as [[w| |]|] eqn:Hm; try discriminate.
  intros [= <-]. eapply merge_loop_coalesces; [| | | |exact Hm]; [lia | | |].
  - unfold vsize in *. now rewrite sort_by_ptr_length.
  - apply sort_by_ptr_ordered.
  - intros j a b Hlt. simpl in Hlt. lia.
Qed.

(** Address order between neighbours is address order between any two
    positions. *)
Lemma ordered_lookup (v : list Memory.FreeBlock) :
  (forall (j : nat) a b, v !! j = Some a -> v !! S j = Some b -> Memory.ptr a <= Memory.ptr b) ->
  forall (k i : nat) a b,
    v !! i = Some a -> v !! (i + k)%nat = Some b -> Memory.ptr a <= Memory.ptr b.
Proof.
  intros Hord. induction k as [|k IH]; intros i a b Ha Hb.
  - rewrite Nat.add_0_r in Hb. assert (a = b) by congruence. subst. lia.
  - assert (Hlt : (i + k < length v)%nat).
    { apply lookup_lt_Some in Hb. lia. }
    destruct (lookup_lt_is_Some_2 v _ Hlt) as [c Hc].
    pose proof (IH i a c Ha Hc).
    replace (i + S k)%nat with (S (i + k)) in Hb by lia.
    pose proof (Hord _ _ _ Hc Hb). lia.
Qed.

(** Among non-empty blocks that share no byte, a list without touching
    neighbours has no two touching blocks at all. *)
Lemma no_touching_neighbours_fully (v : list Memory.FreeBlock) :
  Memory.no_touching_neighbours v -> Memory.list_apart v ->
  Forall (fun b => 0 < Memory.size b) v ->
  Memory.fully_coalesced v.
Proof.
  intros Hnb Hap Hpos.
  assert (Hord : forall (j : nat) a b, v !! j = Some a -> v !! S j = Some b ->
                   Memory.ptr a <= Memory.ptr b).
  { intros j a b Ha Hb. exact (proj1 (Hnb j a b Ha Hb)). }
  split; [exact Hord|].
  intros i j a b Hij Ha Hb.
  pose proof (Forall_lookup_1 _ _ _ _ Hpos Ha) as Hsa. simpl in Hsa.
  destruct (decide (i < j)%nat) as [Hlt|Hge].
  - assert (Hsi : (S i < length v)%nat).
    { apply lookup_lt_Some in Hb. lia. }
    destruct (lookup_lt_is_Some_2 v _ Hsi) as [c Hc].
    pose proof (Forall_lookup_1 _ _ _ _ Hpos Hc) as Hsc. simpl in Hsc.
    destruct (Hnb i a c Ha Hc) as [Hac Hno].
    assert (Hapart : Memory.no_shared_byte a c) by (apply (Hap i (S i)); auto; lia).
    replace j with (S i + (j - S i))%nat in Hb by lia.
    pose proof (ordered_lookup v Hord _ _ _ _ Hc Hb) as Hcb.
    unfold Memory.no_shared_byte in Hapart. lia.
  - replace i with (j + (i - j))%nat in Ha by lia.
    pose proof (ordered_lookup v Hord _ _ _ _ Hb Ha). lia.
Qed.

(** Merging keeps the blocks non-empty. *)
Lemma merge_free_blocks_positive (st : Memory.Impl) (v free : list Memory.FreeBlock) :
  Memory.fits_size_t (Memory.pool_size_ st) ->
  Forall Memory.block_ok v -> Forall (Memory.in_arena st) v ->
  Forall (fun b => 0 < Memory.size b) v ->
  Memory.merge_free_blocks v = Returns free ->
  Forall (fun b => 0 < Memory.size b) free.
Proof.
  intros Hps Hok Har Hpos Hm. unfold Memory.merge_free_blocks in Hm.
  destruct v as [|b0 v0]; [discriminate|]. set (v := b0 :: v0) in *.
  destruct (merge_loop_neighbours
              (fun w => Forall Memory.block_ok w /\ Forall (Memory.in_arena st) w
                        /\ Forall (fun b => 0 < Memory.size b) w)
              (S (length (Memory.sort_by_ptr v))))
    with (v := Memory.sort_by_ptr v) (i := 0) as (v' & Hv' & _ & _ & H3);
    rewrite ?sort_by_ptr_length; try (subst v; simpl; lia).
  - intros w j cur next (Hwok & Hwar & Hwpos) Hcur Hnext Hadj.
    pose proof (Forall_lookup_1 _ _ _ _ Hwok Hcur) as Hc.
    pose proof (Forall_lookup_1 _ _ _ _ Hwok Hnext) as Hn.
    pose proof (Forall_lookup_1 _ _ _ _ Hwar Hcur) as Hca.
    pose proof (Forall_lookup_1 _ _ _ _ Hwar Hnext) as Hna.
    pose proof (Forall_lookup_1 _ _ _ _ Hwpos Hcur) as Hcp.
    pose proof (Forall_lookup_1 _ _ _ _ Hwpos Hnext) as Hnp. simpl in Hcp, Hnp.
    assert (Hw : wrap (Memory.size cur + Memory.size next)
                 = Memory.size cur + Memory.size next).
    { apply wrap_small. bytes. }
    rewrite Hw. split; [|split].
    + rewrite <- Hw. apply Forall_delete, Forall_insert; [exact Hwok|].
      now apply block_ok_merged.
    + apply Forall_delete, Forall_insert; [exact Hwar|]. bytes.
    + apply Forall_delete, Forall_insert; [exact Hwpos|]. bytes.
  - split; [now apply sort_by_ptr_Forall|].
    split; now apply sort_by_ptr_Forall.
  - rewrite Hv' in Hm. injection Hm as <-. exact H3.
Qed.

(** A list of non-empty blocks is no longer than its bytes. *)
Lemma vsize_le_bytes (l : list Memory.FreeBlock) :
  Forall (fun b => 0 < Memory.size b) l ->
  vsize l <= foldr (fun b acc => Memory.size b + acc) 0 l.
Proof.
  unfold vsize. induction 1 as [|b l Hb _ IH]; simpl length; simpl foldr; lia.
Qed.

(** X19. On a reachable allocator whose free blocks are all non-empty,
    after [compact], and after a [deallocate] that frees a non-empty
    block, the free list is fully coalesced: it is in address order, and
    no free block ends where another free block starts, wherever in the
    list the two are. *)
Theorem free_list_is_fully_coalesced_after_merge (st st' : Memory.Impl)
    (p size_arg block_size : Z) :
  Memory.reachable st ->
  Forall (fun b => 0 < Memory.size b) (Memory.free_blocks_ st) ->
  (Memory.compact st = Returns st' -> Memory.fully_coalesced (Memory.free_blocks_ st'))
  /\ (p <> nullptr -> Memory.allocated_blocks_ st !! p = Some block_size -> 0 < block_size ->
      Memory.deallocate st p size_arg = Returns st' ->
      Memory.fully_coalesced (Memory.free_blocks_ st')).
Proof.
  intros Hreach Hpos.
  pose proof (reachable_well_formed st Hreach) as (Hps & Hfree & Hlive).
  destruct (reachable_blocks_ok st Hreach) as ((Hfa & Hla) & (Hff & Hfl & Hll)).
  destruct (reachable_counters_ok st Hreach) as (_ & [_ Hlb] & _ & Hsum & _).
  pose proof (vsize_le_bytes _ Hpos) as Hlen. fold (Memory.free_bytes st) in Hlen.
  pose proof (live_bytes_nonneg _ Hlive) as Hl0. fold (Memory.live_bytes st) in Hl0.
  assert (Hfull : forall v free,
             Forall Memory.block_ok v -> Forall (Memory.in_arena st) v ->
             Memory.list_apart v -> Forall (Memory.apart_from_live ∅) v ->
             Forall (fun b => 0 < Memory.size b) v -> vsize v < 2 ^ 64 ->
             Memory.merge_free_blocks v = Returns free -> Memory.fully_coalesced free).
  { intros v free Hok Har Hap Hlv Hp Hfit Hm.
    apply no_touching_neighbours_fully.
    - exact (merge_free_blocks_coalesces v free Hfit Hm).
    - exact (proj1 (proj2 (merge_free_blocks_apart st ∅ v free Hps Hok Har Hap Hlv
                             (map_Forall_empty _) Hm))).
    - exact (merge_free_blocks_positive st v free Hps Hok Har Hp Hm). }
  assert (Hnolive : forall v : list Memory.FreeBlock, Forall (Memory.apart_from_live ∅) v).
  { intros v. apply Forall_forall. intros b _ q s Hq. now rewrite lookup_empty in Hq. }
  split.
  - unfold Memory.compact.
    destruct (Memory.merge_free_blocks (Memory.free_blocks_ st)) as [free| |] eqn:Hm;
      simpl; try discriminate.
    intros [= <-]. simpl. apply (Hfull (Memory.free_blocks_ st)); auto.
    unfold Memory.fits_size_t in Hps. lia.
  - intros Hne Hp Hbs. unfold Memory.deallocate.
    destruct (Z.eqb_spec p nullptr) as [|_]; [contradiction|]. rewrite Hp.
    destruct (Memory.merge_free_blocks _) as [free| |] eqn:Hm; simpl; try discriminate.
    intros [= <-]. simpl.
    pose proof (live_bytes_delete _ _ _ Hp) as Hd. fold (Memory.live_bytes st) in Hd.
    pose proof (live_bytes_nonneg _ (map_Forall_delete _ _ p Hlive)) as Hrest.
    apply (Hfull _ _) in Hm; [exact Hm | | | | | |]; unfold push_back.
    + apply Forall_app. split; [exact Hfree|]. constructor; [exact (Hlive p _ Hp) | constructor].
    + apply Forall_app. split; [exact Hfa|]. constructor; [exact (Hla p _ Hp) | constructor].
    + apply list_apart_snoc; [exact Hff|].
      eapply Forall_impl; [exact Hfl|]. intros c Hc. exact (Hc p _ Hp).
    + apply Hnolive.
    + apply Forall_app. split; [exact Hpos|]. constructor; [exact Hbs | constructor].
    + fold (push_back (Memory.free_blocks_ st) {| Memory.ptr := p; Memory.size := block_size |}).
      rewrite vsize_push_back. unfold Memory.fits_size_t in Hps. lia.
Qed.

Lemma free_list_is_fully_coalesced_after_merge_witness :
  let st := snd (Memory.allocate (snd (Memory.allocate (Memory.Impl_ctor 1024 65536) 100 8)) 200 8) in
  Memory.reachable st
  /\ Forall (fun b => 0 < Memory.size b) (Memory.free_blocks_ st)
  /\ exists st', Memory.deallocate st 65536 100 = Returns st'
                 /\ Memory.fully_coalesced (Memory.free_blocks_ st').
Proof.
  intros st.
  assert (H : Memory.reachable st).
  { apply (alloc_run_reachable 1024 65536 [Memory.call_allocate 100 8; Memory.call_allocate 200 8]);
      [unfold Memory.fits_size_t; lia | lia | repeat constructor | reflexivity]. }
  assert (Hpos : Forall (fun b => 0 < Memory.size b) (Memory.free_blocks_ st))
    by (vm_compute; repeat constructor).
  split; [exact H|]. split; [exact Hpos|]. eexists.
  assert (H2 : Memory.deallocate st 65536 100 = Returns _) by (vm_compute; reflexivity).
  split; [exact H2|].
  apply (proj2 (free_list_is_fully_coalesced_after_merge st _ 65536 100 104 H Hpos));
    [discriminate | vm_compute; reflexivity | lia | exact H2].
Defined.

(** ** Freeing twice, and the round trip on a fresh allocator *)

(** X13. A second [deallocate] of the same pointer does nothing: the first one
    has erased the pointer from [allocated_blocks_], whatever the state and
    whatever sizes the two calls are given. *)
Theorem double_deallocate_is_noop (st st' : Memory.Impl) (p size1 size2 : Z) :
  Memory.deallocate st p size1 = Returns st' ->
  Memory.deallocate st' p size2 = Returns st'.
Proof.
  intros Hd.
  destruct (deallocate_cases st p size1)
    as [[Hno H]|(bs & free & Hne & Hp & _ & _ & _ & st'' & H & _ & Ha & _)].
  - rewrite H in Hd. injection Hd as <-.
    unfold Memory.deallocate. destruct Hno as [->|Hnone]; [reflexivity|].
    rewrite Hnone. now destruct (p =? nullptr).
  - rewrite H in Hd. injection Hd as <-.
    unfold Memory.deallocate. rewrite Ha, lookup_delete_eq.
    now destruct (p =? nullptr).
Qed.

Lemma merge_free_blocks_singleton (b : Memory.FreeBlock) :
  Memory.merge_free_blocks [b] = Returns [b].
Proof. reflexivity. Qed.

Lemma merge_free_blocks_two_neighbours (a b : Memory.FreeBlock) :
  Memory.ptr b < Memory.ptr a -> Memory.ptr b + Memory.size b = Memory.ptr a ->
  Memory.merge_free_blocks [a; b]
  = Returns [{| Memory.ptr := Memory.ptr b;
                Memory.size := wrap (Memory.size b + Memory.size a) |}].
Proof.
  intros Hlt Hadj. unfold Memory.merge_free_blocks. simpl Memory.sort_by_ptr.
  rewrite (proj2 (Z.ltb_lt _ _) Hlt). cbn [length Memory.merge_loop].
  change (wrap (vsize [b; a] - 1)) with 1. change (0 <? 1) with true. cbv iota.
  change (Z.to_nat 0) with 0%nat. change (Z.to_nat (0 + 1)) with 1%nat.
  cbn [lookup list_lookup]. rewrite (proj2 (Z.eqb_eq _ _) Hadj).
  cbn [insert delete list_insert list_delete]. reflexivity.
Qed.

(** X14. [allocate] followed by [deallocate] of the pointer it returned, on a
    fresh allocator: the allocation table is empty again and the arena is
    one free block again, of the whole pool when the block was split and of
    the rounded request only when it was not. *)
Theorem fresh_allocate_deallocate_round_trip
    (pool_size mmap_result size_arg alignment size_arg' : Z) :
  Memory.fits_size_t pool_size ->
  0 < mmap_result -> mmap_result <> Memory.MAP_FAILED ->
  0 < Memory.aligned_size size_arg alignment <= pool_size ->
  let aligned := Memory.aligned_size size_arg alignment in
  let '(p, st1) := Memory.allocate (Memory.Impl_ctor pool_size mmap_result) size_arg alignment in
  p = mmap_result
  /\ exists st2,
       Memory.deallocate st1 p size_arg' = Returns st2
       /\ Memory.allocated_blocks_ st2 = ∅
       /\ Memory.get_allocated_size st2 = 0
       /\ Memory.free_blocks_ st2
          = [{| Memory.ptr := mmap_result;
                Memory.size := if wrap (aligned + alignment) <? pool_size
                               then pool_size else aligned |}].
Proof.
  intros Hps Hr Hnf [Ha0 Hale] aligned.
  pose proof (aligned_size_fits size_arg alignment) as Hal. fold aligned in Hal, Ha0, Hale.
  assert (Hctor : Memory.Impl_ctor pool_size mmap_result
                  = {| Memory.pool_size_ := pool_size;
                       Memory.pool_memory_ := mmap_result;
                       Memory.free_blocks_ := [{| Memory.ptr := mmap_result;
                                                  Memory.size := pool_size |}];
                       Memory.allocated_blocks_ := ∅;
                       Memory.allocated_size_ := 0;
                       Memory.stats_ := Memory.MemoryStats_zero |}).
  { unfold Memory.Impl_ctor, Memory.initialize_pool. simpl.
    destruct (Z.eqb_spec mmap_result Memory.MAP_FAILED) as [|_]; [contradiction|].
    destruct (Z.eqb_spec mmap_result nullptr) as [E|_]; [unfold nullptr in E; lia|].
    reflexivity. }
  rewrite Hctor. unfold Memory.allocate. simpl Memory.free_blocks_.
  cbn [Memory.first_fit Memory.size]. fold aligned.
  destruct (Z.leb_spec aligned pool_size) as [_|]; [|lia].
  cbn [Memory.ptr Memory.size lookup delete list_lookup list_delete].
  split; [reflexivity|].
  unfold Memory.deallocate. cbn [Memory.allocated_blocks_ Memory.free_blocks_].
  destruct (Z.eqb_spec mmap_result nullptr) as [E|_]; [unfold nullptr in E; lia|].
  rewrite lookup_insert_eq.
  assert (Hw0 : wrap (0 + aligned) = aligned) by (simpl; now apply wrap_small).
  assert (Hw1 : wrap (aligned - aligned) = 0) by (now rewrite Z.sub_diag).
  destruct (wrap (aligned + alignment) <? pool_size) eqn:Hsplit.
  - unfold push_back. simpl app.
    rewrite merge_free_blocks_two_neighbours; simpl; try lia.
    eexists. split; [reflexivity|]. simpl.
    rewrite delete_insert_eq, delete_empty. unfold Memory.get_allocated_size. simpl.
    rewrite Hw0, Hw1. repeat split.
    do 2 f_equal. rewrite (wrap_small (pool_size - aligned)) by (unfold Memory.fits_size_t in *; lia).
    replace (aligned + (pool_size - aligned)) with pool_size by lia. now apply wrap_small.
  - unfold push_back. simpl app. rewrite merge_free_blocks_singleton.
    eexists. split; [reflexivity|]. simpl.
    rewrite delete_insert_eq, delete_empty. unfold Memory.get_allocated_size. simpl.
    rewrite Hw0, Hw1. repeat split.
Qed.

Lemma double_deallocate_is_noop_witness :
  let st := snd (Memory.allocate (Memory.Impl_ctor 1024 65536) 100 8) in
  exists st', Memory.deallocate st 65536 100 = Returns st'
              /\ Memory.deallocate st' 65536 100 = Returns st'.
Proof.
  intros st. eexists.
  assert (H : Memory.deallocate st 65536 100 = Returns _) by (vm_compute; reflexivity).
  split; [exact H|]. exact (double_deallocate_is_noop st _ 65536 100 100 H).
Defined.

Lemma fresh_allocate_deallocate_round_trip_witness :
  Memory.fits_size_t 1024 /\ 0 < 65536 /\ 65536 <> Memory.MAP_FAILED
  /\ 0 < Memory.aligned_size 100 8 <= 1024
  /\ let '(p, st1) := Memory.allocate (Memory.Impl_ctor 1024 65536) 100 8 in
     p = 65536
     /\ exists st2,
          Memory.deallocate st1 p 100 = Returns st2
          /\ Memory.allocated_blocks_ st2 = ∅
          /\ Memory.get_allocated_size st2 = 0
          /\ Memory.free_blocks_ st2
             = [{| Memory.ptr := 65536;
                   Memory.size := if wrap (Memory.aligned_size 100 8 + 8) <? 1024
                                  then 1024 else Memory.aligned_size 100 8 |}].
Proof.
  assert (H1 : Memory.fits_size_t 1024) by (unfold Memory.fits_size_t; lia).
  assert (H2 : 0 < 65536) by lia.
  assert (H3 : 65536 <> Memory.MAP_FAILED) by (vm_compute; discriminate).
  assert (H4 : 0 < Memory.aligned_size 100 8 <= 1024) by (vm_compute; split; [reflexivity | discriminate]).
  split; [exact H1 | split; [exact H2 | split; [exact H3 | split; [exact H4|]]]].
  exact (fresh_allocate_deallocate_round_trip 1024 65536 100 8 100 H1 H2 H3 H4).
Defined.

(** ** [Result<T>]: recovering from an error *)

(** X15. [value_or] never throws although it calls [value()]; [or_else]
    returns a success as it is and hands the handler the code and the
    message of an error, so a handler that always succeeds always
    recovers. *)
Theorem value_or_and_or_else {T : Type} (r : Core.Result T) (default_value : T)
    (h : Core.ErrorCode -> string -> Core.Result T) :
  Core.value_or r default_value = Returns (default default_value (Core.value_ r))
  /\ (Core.is_success r = true -> Core.or_else r h = r)
  /\ (Core.is_error r = true ->
      Core.or_else r h = h (Core.error_code r) (Core.error_message r))
  /\ ((forall c m, Core.is_success (h c m) = true) ->
      Core.is_success (Core.or_else r h) = true).
Proof.
  destruct r as [[x|] c m]; repeat split; try reflexivity; try discriminate.
  - intros Hh. exact (Hh c m).
Qed.

(** ** [ObjectPool<T>]: the counters and the order of reuse *)

Section ObjectPoolCounters.

Context {T : Type} (make_unique : T) (reset_hook : option (T -> T)).
Implicit Types p : Memory.ObjectPool T.

Lemma wrap_add_r (a b : Z) : wrap (a + wrap b) = wrap (a + b).
Proof. unfold wrap. apply Zplus_mod_idemp_r. Qed.

Lemma last_push_back {A : Type} (c : list A) (x : A) : last (push_back c x) = Some x.
Proof. unfold push_back. apply last_snoc. Qed.

Lemma pop_back_push_back {A : Type} (c : list A) (x : A) : pop_back (push_back c x) = c.
Proof.
  unfold pop_back, push_back. rewrite length_app. simpl.
  replace (length c + 1 - 1)%nat with (length c) by lia. apply take_app_length.
Qed.

Lemma vsize_pop_back {A : Type} (c : list A) (x : A) :
  last c = Some x -> vsize (pop_back c) = vsize c - 1.
Proof.
  intros H. unfold vsize, pop_back. rewrite length_take.
  destruct c as [|y c]; [discriminate|]. simpl length. lia.
Qed.

(** The bookkeeping that one call keeps: [balance] is the number of
    resident objects plus those handed out of the pool minus those taken
    back, and [served] is the number of [acquire] calls answered. *)
Lemma pool_step_counters p (c : Memory.pool_call T) (balance served : Z) :
  wrap (vsize (Memory.pool_ p) + Memory.acquired_count_ p)
  = wrap (balance + Memory.released_count_ p) ->
  wrap (Memory.allocated_count_ p + Memory.acquired_count_ p) = wrap served ->
  let p' := Memory.pool_step make_unique reset_hook p c in
  wrap (vsize (Memory.pool_ p') + Memory.acquired_count_ p')
  = wrap (balance + Memory.released_count_ p')
  /\ wrap (Memory.allocated_count_ p' + Memory.acquired_count_ p')
     = wrap (served + Memory.acquire_calls [c])
  /\ Memory.max_size_ p' = Memory.max_size_ p.
Proof.
  intros Hb Hs. destruct c as [|[o|]]; simpl.
  - unfold Memory.acquire. destruct (last (Memory.pool_ p)) as [x|] eqn:Hl; simpl.
    + rewrite (vsize_pop_back _ _ Hl), !wrap_add_r. repeat split.
      * replace (vsize (Memory.pool_ p) - 1 + (Memory.acquired_count_ p + 1))
          with (vsize (Memory.pool_ p) + Memory.acquired_count_ p) by lia. exact Hb.
      * unfold wrap in *. rewrite Z.add_assoc, <- Zplus_mod_idemp_l, Hs, Zplus_mod_idemp_l.
        reflexivity.
    + repeat split; [exact Hb|].
      rewrite (Z.add_comm (wrap _)), wrap_add_r.
      unfold wrap in *.
      replace (Memory.acquired_count_ p + (Memory.allocated_count_ p + 1))
        with (Memory.allocated_count_ p + Memory.acquired_count_ p + 1) by lia.
      rewrite <- Zplus_mod_idemp_l, Hs, Zplus_mod_idemp_l. reflexivity.
  - unfold Memory.release.
    destruct (vsize (Memory.pool_ p) <? Memory.max_size_ p); simpl.
    + rewrite vsize_push_back, wrap_add_r, Z.add_0_r. repeat split; [|exact Hs].
      unfold wrap in *.
      replace (vsize (Memory.pool_ p) + 1 + Memory.acquired_count_ p)
        with (vsize (Memory.pool_ p) + Memory.acquired_count_ p + 1) by lia.
      rewrite <- Zplus_mod_idemp_l, Hb, Zplus_mod_idemp_l. f_equal. lia.
    + rewrite Z.add_0_r. repeat split; assumption.
  - rewrite Z.add_0_r. repeat split; assumption.
Qed.

Lemma pool_run_counters (calls : list (Memory.pool_call T)) :
  forall p (balance served : Z),
    wrap (vsize (Memory.pool_ p) + Memory.acquired_count_ p)
    = wrap (balance + Memory.released_count_ p) ->
    wrap (Memory.allocated_count_ p + Memory.acquired_count_ p) = wrap served ->
    let p' := Memory.pool_run make_unique reset_hook p calls in
    wrap (vsize (Memory.pool_ p') + Memory.acquired_count_ p')
    = wrap (balance + Memory.released_count_ p')
    /\ wrap (Memory.allocated_count_ p' + Memory.acquired_count_ p')
       = wrap (served + Memory.acquire_calls calls)
    /\ Memory.max_size_ p' = Memory.max_size_ p.
Proof.
  induction calls as [|c calls IH]; intros p balance served Hb Hs; simpl.
  - rewrite Z.add_0_r. repeat split; assumption.
  - destruct (pool_step_counters p c balance served Hb Hs) as (Hb1 & Hs1 & Hm1).
    destruct (IH _ balance _ Hb1 Hs1) as (Hb2 & Hs2 & Hm2).
    repeat split; [exact Hb2 | | congruence].
    rewrite Hs2. f_equal. destruct c; simpl; lia.
Qed.

(** X16. What [get_stats] reports after any run of calls on a new pool: every
    [acquire] was counted once, as a reuse or as a fresh object, and the
    resident objects are the initial ones plus those taken back minus those
    reused (all on [size_t]). *)
Theorem pool_stats_account_for_every_call (initial_size max_size : Z)
    (calls : list (Memory.pool_call T)) :
  0 <= initial_size ->
  let s := Memory.PoolStats.get_stats
             (Memory.pool_run make_unique reset_hook
                (Memory.ObjectPool_ctor make_unique initial_size max_size) calls) in
  wrap (Memory.PoolStats.allocated_count s + Memory.PoolStats.acquired_count s)
  = wrap (Memory.acquire_calls calls)
  /\ wrap (Memory.PoolStats.available_count s + Memory.PoolStats.acquired_count s)
     = wrap (initial_size + Memory.PoolStats.released_count s)
  /\ Memory.PoolStats.capacity s = max_size.
Proof.
  intros Hinit. simpl.
  destruct (pool_run_counters calls (Memory.ObjectPool_ctor make_unique initial_size max_size)
              initial_size 0) as (Hb & Hs & Hm).
  - destruct (ctor_available make_unique initial_size max_size Hinit) as [Ha _].
    unfold Memory.available in Ha. rewrite Ha. reflexivity.
  - reflexivity.
  - repeat split; assumption.
Qed.

(** X17. An object that [release] takes back is the next one that [acquire]
    hands out, after its [reset()], and the pool holds again what it held
    before the two calls. *)
Theorem release_then_acquire_returns_the_object p (o : T) :
  vsize (Memory.pool_ p) < Memory.max_size_ p ->
  let '(obj, p') := Memory.acquire make_unique (Memory.release reset_hook p (Some o)) in
  obj = match reset_hook with Some reset => reset o | None => o end
  /\ Memory.pool_ p' = Memory.pool_ p
  /\ Memory.available p' = Memory.available p.
Proof.
  intros Hlt. unfold Memory.release.
  destruct (Z.ltb_spec (vsize (Memory.pool_ p)) (Memory.max_size_ p)) as [_|]; [|lia].
  unfold Memory.acquire. cbn [Memory.pool_]. rewrite last_push_back.
  unfold Memory.available. cbn [Memory.pool_]. rewrite pop_back_push_back. repeat split.
Qed.

End ObjectPoolCounters.

Lemma pool_stats_account_for_every_call_witness :
  let calls := [Memory.call_acquire; Memory.call_acquire; Memory.call_release (Some tt);
                Memory.call_acquire] in
  let s := Memory.PoolStats.get_stats
             (Memory.pool_run tt None (Memory.ObjectPool_ctor tt 1 4) calls) in
  0 <= 1
  /\ wrap (Memory.PoolStats.allocated_count s + Memory.PoolStats.acquired_count s) = wrap 3
  /\ wrap (Memory.PoolStats.available_count s + Memory.PoolStats.acquired_count s)
     = wrap (1 + Memory.PoolStats.released_count s).
Proof.
  intros calls s. assert (H : 0 <= 1) by lia. split; [exact H|].
  destruct (pool_stats_account_for_every_call tt None 1 4 calls H) as (H1 & H2 & _).
  split; [exact H1 | exact H2].
Defined.

Lemma release_then_acquire_returns_the_object_witness :
  let p := Memory.ObjectPool_ctor 0 2 4 in
  vsize (Memory.pool_ p) < Memory.max_size_ p
  /\ fst (Memory.acquire 0 (Memory.release (Some (fun _ => 0)) p (Some 7))) = 0.
Proof.
  intros p. assert (H : vsize (Memory.pool_ p) < Memory.max_size_ p) by (vm_compute; reflexivity).
  split; [exact H|].
  pose proof (release_then_acquire_returns_the_object 0 (Some (fun _ => 0)) p 7 H) as Hw.
  destruct (Memory.acquire 0 (Memory.release (Some (fun _ => 0)) p (Some 7))) as [obj p'].
  exact (proj1 Hw).
Defined.

(** ** [GPUMemoryPool::Impl] *)

Section GPUMemoryPoolFacts.

Variable HUSHELL_HAS_CUDA : bool.

Local Abbreviation gpu_step := (GPUMemoryPool.gpu_step HUSHELL_HAS_CUDA).
Local Abbreviation gpu_run := (GPUMemoryPool.gpu_run HUSHELL_HAS_CUDA).
Local Abbreviation gpu_results := (GPUMemoryPool.gpu_results HUSHELL_HAS_CUDA).

(** A pool that is switched off answers every call by doing nothing. *)
Lemma gpu_step_off (st : GPUMemoryPool.Impl) (c : GPUMemoryPool.gpu_call) :
  GPUMemoryPool.initialized_ st = false -> gpu_step st c = st.
Proof.
  intros Hoff. destruct c as [size alignment r|ptr|]; simpl.
  - unfold GPUMemoryPool.allocate_gpu. now rewrite Hoff.
  - unfold GPUMemoryPool.deallocate_gpu. rewrite Hoff. now rewrite orb_true_r.
  - unfold GPUMemoryPool.cleanup. now rewrite Hoff.
Qed.

Lemma gpu_run_off (calls : list GPUMemoryPool.gpu_call) (st : GPUMemoryPool.Impl) :
  GPUMemoryPool.initialized_ st = false ->
  gpu_run st calls = st /\ Forall (fun p => p = nullptr) (gpu_results st calls).
Proof.
  intros Hoff. induction calls as [|c calls [IH1 IH2]]; [split; [reflexivity | constructor]|].
  unfold GPUMemoryPool.gpu_run in *. simpl foldl. rewrite (gpu_step_off st c Hoff).
  split; [exact IH1|]. pose proof (gpu_step_off st c Hoff) as Hstep.
  destruct c as [size alignment r|ptr|]; simpl in *.
  - constructor.
    + unfold GPUMemoryPool.allocate_gpu. now rewrite Hoff.
    + now rewrite Hstep.
  - now rewrite Hstep.
  - now rewrite Hstep.
Qed.

Lemma cleanup_off (st : GPUMemoryPool.Impl) :
  GPUMemoryPool.initialized_ (GPUMemoryPool.cleanup st) = false.
Proof.
  unfold GPUMemoryPool.cleanup. now destruct (GPUMemoryPool.initialized_ st) eqn:E.
Qed.

End GPUMemoryPoolFacts.

(** X18. A pool that is switched off stays off.  [cleanup] is final: no
    member function switches the pool on again, so every later
    [allocate_gpu] returns the null pointer and every later call leaves the
    pool as [cleanup] left it, and [cleanup] does not touch the statistics,
    which go on reporting the usage of the blocks it freed.  And in a build
    without [HUSHELL_HAS_CUDA] a new pool is off from the start: whatever
    calls are made, it stays as constructed, its statistics all zero. *)
Theorem gpu_pool_switched_off_stays_off (HUSHELL_HAS_CUDA : bool) (st : GPUMemoryPool.Impl)
    (cudaGetDeviceCount : option Z) (calls : list GPUMemoryPool.gpu_call) :
  (let st' := GPUMemoryPool.cleanup st in
   GPUMemoryPool.is_gpu_memory_available st' = false
   /\ GPUMemoryPool.get_gpu_stats st' = GPUMemoryPool.get_gpu_stats st
   /\ GPUMemoryPool.gpu_run HUSHELL_HAS_CUDA st' calls = st'
   /\ Forall (fun p => p = nullptr) (GPUMemoryPool.gpu_results HUSHELL_HAS_CUDA st' calls))
  /\ (let st0 := GPUMemoryPool.Impl_ctor false cudaGetDeviceCount in
      let st' := GPUMemoryPool.gpu_run false st0 calls in
      GPUMemoryPool.is_gpu_memory_available st' = false
      /\ GPUMemoryPool.get_gpu_stats st' = Memory.MemoryStats_zero
      /\ GPUMemoryPool.allocated_blocks_ st' = ∅
      /\ Forall (fun p => p = nullptr) (GPUMemoryPool.gpu_results false st0 calls)).
Proof.
  split.
  - intros st'. pose proof (cleanup_off st) as Hoff. fold st' in Hoff.
    split; [exact Hoff | split; [|now apply gpu_run_off]].
    unfold st', GPUMemoryPool.cleanup, GPUMemoryPool.get_gpu_stats.
    now destruct (GPUMemoryPool.initialized_ st).
  - intros st0 st'.
    destruct (gpu_run_off false calls st0 eq_refl) as [Hrun Hres].
    subst st'. rewrite Hrun. repeat split. exact Hres.
Qed.

Lemma wrap_add_sub (a b : Z) : Memory.fits_size_t a -> wrap (wrap (a + b) - b) = a.
Proof.
  intros Ha. unfold wrap. rewrite Zminus_mod_idemp_l.
  replace (a + b - b) with a by lia. now apply Z.mod_small.
Qed.

(** X20. With CUDA, [allocate_gpu] followed by [deallocate_gpu] of the pointer
    it returned brings the table and [gpu_current_usage] back to what they
    were, when [cudaMalloc] gave a non-null pointer that was not in the
    table. *)
Theorem gpu_allocate_deallocate_round_trip (st : GPUMemoryPool.Impl)
    (size alignment ptr : Z) :
  GPUMemoryPool.initialized_ st = true ->
  ptr <> nullptr -> GPUMemoryPool.allocated_blocks_ st !! ptr = None ->
  Memory.fits_size_t (Memory.gpu_current_usage (GPUMemoryPool.stats_ st)) ->
  let '(p, st1) := GPUMemoryPool.allocate_gpu true st size alignment (Some ptr) in
  let st2 := GPUMemoryPool.deallocate_gpu st1 p in
  p = ptr
  /\ GPUMemoryPool.allocated_blocks_ st1 !! ptr = Some size
  /\ GPUMemoryPool.allocated_blocks_ st2 = GPUMemoryPool.allocated_blocks_ st
  /\ Memory.gpu_current_usage (GPUMemoryPool.get_gpu_stats st2)
     = Memory.gpu_current_usage (GPUMemoryPool.get_gpu_stats st)
  /\ Memory.gpu_total_allocated (GPUMemoryPool.get_gpu_stats st2)
     = wrap (Memory.gpu_total_allocated (GPUMemoryPool.get_gpu_stats st) + size).
Proof.
  intros Hon Hptr Hfresh Hfit. unfold GPUMemoryPool.allocate_gpu. rewrite Hon. simpl.
  unfold GPUMemoryPool.deallocate_gpu. simpl.
  destruct (Z.eqb_spec ptr nullptr) as [|_]; [contradiction|]. simpl.
  rewrite lookup_insert_eq. simpl.
  split; [reflexivity | split; [reflexivity | split; [|split; [|reflexivity]]]].
  - now rewrite delete_insert_eq, delete_id.
  - unfold GPUMemoryPool.get_gpu_stats. now apply wrap_add_sub.
Qed.

Lemma gpu_allocate_deallocate_round_trip_witness :
  let st := GPUMemoryPool.Impl_ctor true (Some 1) in
  GPUMemoryPool.initialized_ st = true
  /\ GPUMemoryPool.allocated_blocks_
       (GPUMemoryPool.deallocate_gpu
          (snd (GPUMemoryPool.allocate_gpu true st 4096 256 (Some 8192))) 8192)
     = GPUMemoryPool.allocated_blocks_ st.
Proof.
  intros st.
  assert (H1 : GPUMemoryPool.initialized_ st = true) by reflexivity.
  assert (H2 : 8192 <> nullptr) by discriminate.
  assert (H3 : GPUMemoryPool.allocated_blocks_ st !! 8192 = None) by apply lookup_empty.
  assert (H4 : Memory.fits_size_t (Memory.gpu_current_usage (GPUMemoryPool.stats_ st)))
    by (vm_compute; split; [discriminate | reflexivity]).
  split; [exact H1|].
  pose proof (gpu_allocate_deallocate_round_trip st 4096 256 8192 H1 H2 H3 H4) as Hw.
  destruct (GPUMemoryPool.allocate_gpu true st 4096 256 (Some 8192)) as [p st1].
  destruct Hw as (-> & _ & Hw & _). exact Hw.
Defined.

(** ** [MemoryMapper] *)

Lemma unlock_lock (m : MemoryMapper.MemoryMapper) :
  MemoryMapper.mutex_ m = false ->
  MemoryMapper.lock_guard m
  = Returns {| MemoryMapper.mapped_regions_ := MemoryMapper.mapped_regions_ m;
               MemoryMapper.mutex_ := true |}.
Proof. intros H. unfold MemoryMapper.lock_guard. now rewrite H. Qed.

(** While the guard is held, [unmap_file] returns only for the null
    address: for any other it locks the mutex a second time. *)
Lemma unmap_file_locked (m : MemoryMapper.MemoryMapper) (addr size : Z) :
  MemoryMapper.mutex_ m = true ->
  MemoryMapper.unmap_file m addr size = if addr =? nullptr then Returns m else Undefined.
Proof.
  intros H. unfold MemoryMapper.unmap_file, MemoryMapper.lock_guard. rewrite H.
  now destruct (addr =? nullptr).
Qed.

Lemma unmap_regions_locked (regions : list (Z * Z)) (m : MemoryMapper.MemoryMapper) :
  MemoryMapper.mutex_ m = true ->
  MemoryMapper.unmap_regions regions m
  = if forallb (fun r => fst r =? nullptr) regions then Returns m else Undefined.
Proof.
  intros H. induction regions as [|[addr size] regions IH]; [reflexivity|].
  simpl. rewrite (unmap_file_locked m addr size H).
  destruct (addr =? nullptr); simpl; [exact IH | reflexivity].
Qed.

Lemma forallb_false {A : Type} (f : A -> bool) (l : list A) :
  forallb f l = false -> exists x, In x l /\ f x = false.
Proof.
  induction l as [|x l IH]; simpl; [discriminate|].
  destruct (f x) eqn:E; simpl; [|eauto].
  intros H. destruct (IH H) as (y & Hy & Hf). eauto.
Qed.

Lemma dtor_cases (m : MemoryMapper.MemoryMapper) :
  MemoryMapper.mutex_ m = false ->
  MemoryMapper.MemoryMapper_dtor m
  = if forallb (fun r => fst r =? nullptr) (map_to_list (MemoryMapper.mapped_regions_ m))
    then Returns m else Undefined.
Proof.
  intros H. unfold MemoryMapper.MemoryMapper_dtor. rewrite (unlock_lock m H).
  cbn [mbind outcome_bind MemoryMapper.mapped_regions_].
  rewrite unmap_regions_locked by reflexivity.
  destruct (forallb _ _); [|reflexivity]. simpl. unfold MemoryMapper.unlock. simpl.
  destruct m as [regions mutex]. simpl in *. now subst mutex.
Qed.

(** X21. The destructor of a mapper that still has a mapping registered has
    undefined behaviour: it holds the mutex while it calls [unmap_file],
    which locks the same mutex.  It returns exactly when no non-null
    address is registered. *)
Theorem mapper_destructor_undefined_iff_region_left (m : MemoryMapper.MemoryMapper) :
  MemoryMapper.mutex_ m = false ->
  (MemoryMapper.MemoryMapper_dtor m = Undefined
   <-> exists addr size, addr <> nullptr /\ MemoryMapper.mapped_regions_ m !! addr = Some size)
  /\ (MemoryMapper.MemoryMapper_dtor m = Returns m
      <-> forall addr size, MemoryMapper.mapped_regions_ m !! addr = Some size -> addr = nullptr).
Proof.
  intros H. rewrite (dtor_cases m H).
  destruct (forallb _ _) eqn:Hall.
  - rewrite forallb_forall in Hall.
    assert (Hnull : forall addr size,
               MemoryMapper.mapped_regions_ m !! addr = Some size -> addr = nullptr).
    { intros addr size Hlk. apply elem_of_map_to_list in Hlk.
      apply list_elem_of_In in Hlk. specialize (Hall _ Hlk). simpl in Hall. lia. }
    split; split; try discriminate; auto.
    intros (addr & size & Hne & Hlk). elim Hne. eauto.
  - assert (Hex : exists addr size,
               addr <> nullptr /\ MemoryMapper.mapped_regions_ m !! addr = Some size).
    { destruct (forallb_false _ _ Hall) as ([addr size] & Hin & Hne).
      exists addr, size. simpl in Hne. split; [lia|].
      apply elem_of_map_to_list. now apply list_elem_of_In. }
    split; split; try discriminate; auto.
    intros Hnull. destruct Hex as (addr & size & Hne & Hlk). elim Hne. eauto.
Qed.

Lemma mapper_eta (m : MemoryMapper.MemoryMapper) :
  MemoryMapper.mutex_ m = false ->
  {| MemoryMapper.mapped_regions_ := MemoryMapper.mapped_regions_ m;
     MemoryMapper.mutex_ := false |} = m.
Proof. destruct m as [regions mutex]. simpl. now intros ->. Qed.

(** X22. [map_file] returns the null pointer exactly when [open], [fstat] (asked
    only for [size == 0]) or [mmap] fails, and then the table is unchanged;
    otherwise it returns the address that [mmap] gave and registers it with
    the size mapped, the file's size when [size] was zero.  The mutex is
    free again in every case. *)
Theorem map_file_registers_what_it_maps (m : MemoryMapper.MemoryMapper) (path : string)
    (size : Z) (read_only : bool) (open_result : Z) (fstat_result : option Z)
    (mmap_result : Z) :
  MemoryMapper.mutex_ m = false -> mmap_result <> nullptr ->
  exists p m',
    MemoryMapper.map_file m path size read_only open_result fstat_result mmap_result
    = Returns (p, m')
    /\ MemoryMapper.mutex_ m' = false
    /\ (p = nullptr <->
        open_result = -1 \/ (size = 0 /\ fstat_result = None)
        \/ mmap_result = Memory.MAP_FAILED)
    /\ (p = nullptr -> m' = m)
    /\ (p <> nullptr ->
        p = mmap_result
        /\ MemoryMapper.mapped_regions_ m'
           = <[mmap_result := if size =? 0 then wrap (default 0 fstat_result) else size]>
               (MemoryMapper.mapped_regions_ m)).
Proof.
  intros Hfree Hnn. unfold MemoryMapper.map_file. rewrite (unlock_lock m Hfree).
  cbn [mbind outcome_bind]. unfold MemoryMapper.unlock. cbn [MemoryMapper.mapped_regions_].
  rewrite (mapper_eta m Hfree).
  assert (Hfail : forall failed : Prop, failed ->
            exists p m',
              Returns (nullptr, m) = Returns (p, m')
              /\ MemoryMapper.mutex_ m' = false
              /\ (p = nullptr <-> failed)
              /\ (p = nullptr -> m' = m)
              /\ (p <> nullptr ->
                  p = mmap_result
                  /\ MemoryMapper.mapped_regions_ m'
                     = <[mmap_result := if size =? 0 then wrap (default 0 fstat_result) else size]>
                         (MemoryMapper.mapped_regions_ m))).
  { intros failed Hf. exists nullptr, m.
    split; [reflexivity | split; [exact Hfree | split; [tauto | split; [tauto|]]]].
    intros E. now elim E. }
  destruct (Z.eqb_spec open_result (-1)) as [Ho|Ho]; [apply Hfail; tauto|].
  destruct (Z.eqb_spec mmap_result Memory.MAP_FAILED) as [Hm|Hm].
  { destruct (if size =? 0 then wrap <$> fstat_result else Some size);
      apply Hfail; tauto. }
  destruct (Z.eqb_spec size 0) as [Hs|Hs].
  - destruct fstat_result as [st_size|]; simpl; [|apply Hfail; tauto].
    eexists mmap_result, _. split; [reflexivity|]. simpl.
    split; [reflexivity | split; [|split; [tauto | tauto]]].
    split; [tauto|]. intros [?|[[_ ?]|?]]; [tauto | discriminate | tauto].
  - eexists mmap_result, _. split; [reflexivity|]. simpl.
    split; [reflexivity | split; [|split; [tauto | tauto]]].
    split; [tauto|]. intros [?|[[? _]|?]]; tauto.
Qed.

(** X23. [map_anonymous] followed by [unmap_file] of the address it returned
    leaves the table as it was, whatever size [unmap_file] is told; and
    [unmap_file] of the null pointer or of an address that is not
    registered changes nothing in the table. *)
Theorem map_anonymous_unmap_round_trip (m : MemoryMapper.MemoryMapper)
    (size size' : Z) (executable : bool) (mmap_result : Z) :
  MemoryMapper.mutex_ m = false ->
  mmap_result <> nullptr -> mmap_result <> Memory.MAP_FAILED ->
  MemoryMapper.mapped_regions_ m !! mmap_result = None ->
  (exists m1,
     MemoryMapper.map_anonymous m size executable mmap_result = Returns (mmap_result, m1)
     /\ MemoryMapper.mapped_regions_ m1 !! mmap_result = Some size
     /\ MemoryMapper.unmap_file m1 mmap_result size' = Returns m)
  /\ MemoryMapper.unmap_file m nullptr size' = Returns m
  /\ MemoryMapper.unmap_file m mmap_result size' = Returns m.
Proof.
  intros Hfree Hnn Hnf Hnone. split; [|split].
  - unfold MemoryMapper.map_anonymous. rewrite (unlock_lock m Hfree).
    cbn [mbind outcome_bind]. unfold MemoryMapper.unlock. cbn [MemoryMapper.mapped_regions_].
    destruct (Z.eqb_spec mmap_result Memory.MAP_FAILED) as [|_]; [contradiction|].
    destruct (Z.eqb_spec mmap_result nullptr) as [|_]; [contradiction|].
    eexists. split; [reflexivity|]. simpl. split; [apply lookup_insert_eq|].
    unfold MemoryMapper.unmap_file.
    destruct (Z.eqb_spec mmap_result nullptr) as [|_]; [contradiction|].
    unfold MemoryMapper.lock_guard. simpl. unfold MemoryMapper.unlock. simpl.
    rewrite delete_insert_eq, delete_id by exact Hnone. now rewrite (mapper_eta m Hfree).
  - reflexivity.
  - unfold MemoryMapper.unmap_file.
    destruct (Z.eqb_spec mmap_result nullptr) as [|_]; [contradiction|].
    rewrite (unlock_lock m Hfree). simpl. unfold MemoryMapper.unlock. simpl.
    rewrite delete_id by exact Hnone. now rewrite (mapper_eta m Hfree).
Qed.

Lemma mapper_destructor_undefined_iff_region_left_witness :
  let m := {| MemoryMapper.mapped_regions_ := {[ 4096 := 100 ]};
              MemoryMapper.mutex_ := false |} in
  MemoryMapper.mutex_ m = false /\ MemoryMapper.MemoryMapper_dtor m = Undefined.
Proof.
  intros m. assert (H : MemoryMapper.mutex_ m = false) by reflexivity.
  split; [exact H|].
  apply (proj1 (mapper_destructor_undefined_iff_region_left m H)).
  exists 4096, 100. split; [discriminate | apply lookup_singleton_eq].
Defined.

Lemma map_file_registers_what_it_maps_witness :
  MemoryMapper.mutex_ MemoryMapper.MemoryMapper_ctor = false /\ 4096 <> nullptr
  /\ exists p m',
       MemoryMapper.map_file MemoryMapper.MemoryMapper_ctor "model.bin" 0 true 3 (Some 100) 4096
       = Returns (p, m')
       /\ MemoryMapper.mutex_ m' = false.
Proof.
  assert (H1 : MemoryMapper.mutex_ MemoryMapper.MemoryMapper_ctor = false) by reflexivity.
  assert (H2 : 4096 <> nullptr) by discriminate.
  split; [exact H1 | split; [exact H2|]].
  destruct (map_file_registers_what_it_maps MemoryMapper.MemoryMapper_ctor "model.bin" 0 true 3
              (Some 100) 4096 H1 H2) as (p & m' & Hm & Hfree & _).
  exists p, m'. split; [exact Hm | exact Hfree].
Defined.

Lemma map_anonymous_unmap_round_trip_witness :
  let m := MemoryMapper.MemoryMapper_ctor in
  MemoryMapper.mutex_ m = false /\ 4096 <> nullptr /\ 4096 <> Memory.MAP_FAILED
  /\ MemoryMapper.mapped_regions_ m !! 4096 = None
  /\ exists m1,
       MemoryMapper.map_anonymous m 100 false 4096 = Returns (4096, m1)
       /\ MemoryMapper.mapped_regions_ m1 !! 4096 = Some 100
       /\ MemoryMapper.unmap_file m1 4096 0 = Returns m.
Proof.
  intros m.
  assert (H1 : MemoryMapper.mutex_ m = false) by reflexivity.
  assert (H2 : 4096 <> nullptr) by discriminate.
  assert (H3 : 4096 <> Memory.MAP_FAILED) by (vm_compute; discriminate).
  assert (H4 : MemoryMapper.mapped_regions_ m !! 4096 = None) by apply lookup_empty.
  split; [exact H1 | split; [exact H2 | split; [exact H3 | split; [exact H4|]]]].
  exact (proj1 (map_anonymous_unmap_round_trip m 100 0 false 4096 H1 H2 H3 H4)).
Defined.

(** ** [MemoryManager] *)

Section MemoryManagerFacts.

Context (HUSHELL_HAS_CUDA : bool) (stoull : string -> string + Z) {AnyPool : Type}.
Implicit Types m : MemoryManager.MemoryManager AnyPool.

Local Abbreviation initialize := (MemoryManager.initialize HUSHELL_HAS_CUDA stoull).
Local Abbreviation manager_step := (MemoryManager.manager_step HUSHELL_HAS_CUDA stoull).
Local Abbreviation manager_run := (MemoryManager.manager_run HUSHELL_HAS_CUDA stoull).

(** *** The health check *)

(** X24. [get_global_stats] starts from a zero [MemoryStats] and copies four
    counters of the allocator and three of the GPU pool into it: the
    fragmentation ratio that [get_stats] has computed is not among them, and
    neither are the totals.  So [is_memory_healthy], which tests that ratio
    against 0.5, returns [true] whatever state the memory is in. *)
Theorem is_memory_healthy_is_always_true m :
  MemoryManager.is_memory_healthy m = true
  /\ Memory.fragmentation_ratio (MemoryManager.get_global_stats m) = PrimFloat.zero
  /\ Memory.total_allocated (Memory.counters (MemoryManager.get_global_stats m)) = 0
  /\ Memory.total_deallocated (Memory.counters (MemoryManager.get_global_stats m)) = 0.
Proof.
  unfold MemoryManager.is_memory_healthy, MemoryManager.get_global_stats.
  destruct (MemoryManager.allocator_ m), (MemoryManager.gpu_pool_ m); repeat split.
Qed.

(** *** [initialize] *)

Lemma destroy_mapper_cases (owned : option MemoryMapper.MemoryMapper) :
  MemoryManager.destroy_mapper owned = Returns tt
  \/ MemoryManager.destroy_mapper owned = Undefined.
Proof.
  destruct owned as [mapper|]; [|now left]. unfold MemoryManager.destroy_mapper.
  unfold MemoryMapper.MemoryMapper_dtor, MemoryMapper.lock_guard.
  destruct (MemoryMapper.mutex_ mapper); [now right|]. cbn [mbind outcome_bind].
  destruct (MemoryMapper.unmap_regions _ _) as [m'| |] eqn:E; simpl; auto.
  exfalso. rewrite unmap_regions_locked in E by reflexivity.
  destruct (forallb _ _) in E; discriminate.
Qed.

Lemma initialize_cases m (config : gmap string string) (cudaGetDeviceCount : option Z)
    (mmap_result : Z) (r : ResultVoid.Result) m' :
  initialize m config cudaGetDeviceCount mmap_result = Returns (r, m') ->
  (MemoryManager.initialized_ m = true /\ r = ResultVoid.success /\ m' = m)
  \/ (MemoryManager.initialized_ m = false
      /\ MemoryManager.config_ m' = config
      /\ MemoryManager.gpu_pool_ m'
         = Some (GPUMemoryPool.Impl_ctor HUSHELL_HAS_CUDA cudaGetDeviceCount)
      /\ MemoryManager.memory_mapper_ m' = Some MemoryMapper.MemoryMapper_ctor
      /\ MemoryManager.object_pools_ m' = MemoryManager.object_pools_ m
      /\ ((exists pool_size,
             r = ResultVoid.success
             /\ MemoryManager.initialized_ m' = true
             /\ MemoryManager.allocator_ m' = Some (Memory.Impl_ctor pool_size mmap_result)
             /\ (pool_size = 64 * 1024 * 1024
                 /\ config !! "allocator_pool_size_mb" = None
                 \/ exists text n,
                      config !! "allocator_pool_size_mb" = Some text
                      /\ stoull text = inr n
                      /\ pool_size = wrap (wrap (n * 1024) * 1024)))
          \/ (exists text what,
                config !! "allocator_pool_size_mb" = Some text
                /\ stoull text = inl what
                /\ r = ResultVoid.error Core.INTERNAL_ERROR what
                /\ MemoryManager.initialized_ m' = false
                /\ MemoryManager.allocator_ m' = MemoryManager.allocator_ m))).
Proof.
  unfold MemoryManager.initialize. intros Hi.
  destruct (MemoryManager.initialized_ m) eqn:Hinit.
  { injection Hi as <- <-. left. auto. }
  destruct (destroy_mapper_cases (MemoryManager.memory_mapper_ m)) as [E | E];
    rewrite E in Hi; [|discriminate].
  cbn [mbind outcome_bind] in Hi. cbv zeta in Hi. right.
  destruct (config !! "allocator_pool_size_mb") as [text|] eqn:Hkey.
  - destruct (stoull text) as [what|n] eqn:Hparse; injection Hi as <- <-; simpl.
    + repeat split. right. exists text, what. auto.
    + repeat split. left. eexists. repeat split. right. exists text, n. auto.
  - injection Hi as <- <-. simpl. repeat split. left. eexists. repeat split. now left.
Qed.

(** X25. Once [initialize] has succeeded, every further [initialize] returns
    success without doing anything: the configuration it is given is
    ignored, and the allocator, the pools and the stored configuration stay
    as they are. *)
Theorem initialize_twice_keeps_the_first m (config config' : gmap string string)
    (cudaGetDeviceCount cudaGetDeviceCount' : option Z) (mmap_result mmap_result' : Z)
    (r : ResultVoid.Result) m' :
  initialize m config cudaGetDeviceCount mmap_result = Returns (r, m') ->
  ResultVoid.is_success r = true ->
  initialize m' config' cudaGetDeviceCount' mmap_result' = Returns (ResultVoid.success, m').
Proof.
  intros Hi Hr.
  assert (Hinit : MemoryManager.initialized_ m' = true).
  { destruct (initialize_cases _ _ _ _ _ _ Hi)
      as [(H & _ & ->)|(_ & _ & _ & _ & _ & [(ps & _ & H & _)|(t & w & _ & _ & -> & _)])];
      auto; discriminate. }
  unfold MemoryManager.initialize. now rewrite Hinit.
Qed.

(** X26. When the configured pool size does not parse, [initialize] returns an
    [INTERNAL_ERROR] that carries the exception's text, and leaves the
    manager half set up: the configuration is already replaced and the GPU
    pool and the mapper exist, but there is no allocator and the manager
    is not initialised, so [get_allocator] throws and [shutdown] does not
    release what was created. *)
Theorem failed_initialize_leaves_manager_half_set_up m (config : gmap string string)
    (cudaGetDeviceCount : option Z) (mmap_result : Z) (text what : string) :
  MemoryManager.initialized_ m = false ->
  MemoryManager.memory_mapper_ m = None ->
  MemoryManager.allocator_ m = None ->
  config !! "allocator_pool_size_mb" = Some text ->
  stoull text = inl what ->
  exists r m',
    initialize m config cudaGetDeviceCount mmap_result = Returns (r, m')
    /\ ResultVoid.is_error r = true
    /\ ResultVoid.error_code r = Core.INTERNAL_ERROR
    /\ ResultVoid.error_message r
       = (if Core.empty what then "Internal error" else what)
    /\ MemoryManager.get_config m' = config
    /\ (exists g, MemoryManager.get_gpu_memory_pool m' = Returns g)
    /\ (exists mapper, MemoryManager.get_memory_mapper m' = Returns mapper)
    /\ MemoryManager.get_allocator m'
       = Throws (runtime_error "High performance allocator not initialized")
    /\ MemoryManager.shutdown m' = Returns m'.
Proof.
  intros Hinit Hmap Halloc Hkey Hparse.
  unfold MemoryManager.initialize. rewrite Hinit, Hmap, Hkey, Hparse. simpl.
  eexists _, _. split; [reflexivity|].
  unfold MemoryManager.get_allocator, MemoryManager.shutdown. simpl. rewrite Halloc.
  repeat split; eauto.
Qed.

(** *** The accessors *)

Lemma manager_step_ok m (c : MemoryManager.manager_call) m' :
  MemoryManager.manager_ok m -> manager_step m c = Returns m' -> MemoryManager.manager_ok m'.
Proof.
  intros [Ha Hg]. destruct c as [config cdc r| | | |config|c]; simpl.
  - destruct (initialize m config cdc r) as [[res m1]| |] eqn:Hi; simpl; try discriminate.
    intros [= <-].
    destruct (initialize_cases _ _ _ _ _ _ Hi)
      as [(_ & _ & ->)|(Hinit & _ & Hgp & Hmp & _ &
                        [(ps & _ & Hin & Hal & _)|(t & w & _ & _ & _ & Hin & Hal)])].
    + now split.
    + split; [rewrite Hin, Hal; split; eauto | rewrite Hgp, Hmp; eauto].
    + split; [rewrite Hin, Hal | rewrite Hin; discriminate].
      split; [discriminate|]. intros Hs. apply Ha in Hs. congruence.
  - unfold MemoryManager.shutdown.
    destruct (MemoryManager.initialized_ m) eqn:Hinit; simpl; [|intros [= <-]; split; rewrite Hinit; assumption].
    destruct (MemoryManager.destroy_mapper _) as [[]| |]; simpl; try discriminate.
    intros [= <-]. split; simpl; [|discriminate].
    split; [discriminate | intros [x Hx]; discriminate].
  - unfold MemoryManager.force_gc, MemoryManager.compact_allocator.
    destruct (MemoryManager.allocator_ m) as [a|] eqn:Hal; simpl.
    + destruct (Memory.compact a) as [a'| |]; simpl; try discriminate.
      intros [= <-]. split; simpl.
      * split; [eauto | intros _; apply Ha; eauto].
      * intros Hin. destruct (Hg Hin) as [[g Hgp] Hmp]. rewrite Hgp. split; [eauto | exact Hmp].
    + intros [= <-]. split; simpl.
      * rewrite Ha. split; intros [x Hx]; discriminate.
      * intros Hin. destruct (Hg Hin) as [[g Hgp] Hmp]. rewrite Hgp. split; [eauto | exact Hmp].
  - unfold MemoryManager.compact_memory, MemoryManager.compact_allocator.
    destruct (MemoryManager.allocator_ m) as [a|] eqn:Hal; simpl.
    + destruct (Memory.compact a) as [a'| |]; simpl; try discriminate.
      intros [= <-]. split; simpl; [|exact Hg].
      split; [eauto | intros _; apply Ha; eauto].
    + intros [= <-]. split; simpl; [|exact Hg].
      rewrite Ha. split; intros [x Hx]; discriminate.
  - intros [= <-]. now split.
  - unfold MemoryManager.get_allocator.
    destruct (MemoryManager.allocator_ m) as [a|] eqn:Hal; simpl; [|discriminate].
    destruct (Memory.alloc_step a c) as [a'| |]; simpl; try discriminate.
    intros [= <-]. split; simpl; [|exact Hg].
    split; [eauto | intros _; apply Ha; eauto].
Qed.

Lemma manager_run_ok (calls : list MemoryManager.manager_call) :
  forall m m', MemoryManager.manager_ok m -> manager_run m calls = Returns m' ->
    MemoryManager.manager_ok m'.
Proof.
  induction calls as [|c calls IH]; intros m m' Hok; simpl.
  - now intros [= <-].
  - destruct (manager_step m c) as [m1| |] eqn:Hstep; simpl; try discriminate.
    apply IH. eauto using manager_step_ok.
Qed.

Lemma instance_ok : MemoryManager.manager_ok (MemoryManager.instance (AnyPool:=AnyPool)).
Proof.
  split; simpl; [|discriminate]. split; [discriminate | intros [x Hx]; discriminate].
Qed.

(** X27. After any run of calls on the singleton, [get_allocator] throws exactly
    when the manager is not initialised, and an initialised manager hands
    out all three of its parts. *)
Theorem get_allocator_throws_iff_not_initialized (calls : list MemoryManager.manager_call) m :
  manager_run MemoryManager.instance calls = Returns m ->
  (MemoryManager.get_allocator m
   = Throws (runtime_error "High performance allocator not initialized")
   <-> MemoryManager.initialized_ m = false)
  /\ (MemoryManager.initialized_ m = true ->
      exists allocator gpu_pool mapper,
        MemoryManager.get_allocator m = Returns allocator
        /\ MemoryManager.get_gpu_memory_pool m = Returns gpu_pool
        /\ MemoryManager.get_memory_mapper m = Returns mapper).
Proof.
  intros Hrun. destruct (manager_run_ok calls _ _ instance_ok Hrun) as [Ha Hg].
  unfold MemoryManager.get_allocator, MemoryManager.get_gpu_memory_pool,
    MemoryManager.get_memory_mapper.
  split.
  - destruct (MemoryManager.allocator_ m) as [a|] eqn:Hal.
    + split; [discriminate|]. intros Hin.
      assert (MemoryManager.initialized_ m = true) by (apply Ha; eauto). congruence.
    + split; [|reflexivity]. intros _.
      destruct (MemoryManager.initialized_ m) eqn:Hin; [|reflexivity].
      destruct (proj1 Ha eq_refl) as [x Hx]. discriminate.
  - intros Hin. destruct (proj1 Ha Hin) as [a ->].
    destruct (Hg Hin) as [[g ->] [mp ->]]. now exists a, g, mp.
Qed.

(** *** [force_gc] and [shutdown] *)

(** X28. [force_gc] has undefined behaviour exactly when the allocator has an
    empty free list (the whole pool is allocated); when it returns, the GPU
    pool has been cleaned up, which switches it off for good: every
    [allocate_gpu] on it returns the null pointer. *)
Theorem force_gc_switches_the_gpu_pool_off m :
  (MemoryManager.force_gc m = Undefined
   <-> exists allocator,
         MemoryManager.allocator_ m = Some allocator /\ Memory.free_blocks_ allocator = [])
  /\ (forall e, MemoryManager.force_gc m <> Throws e)
  /\ (forall m' gpu_pool,
        MemoryManager.force_gc m = Returns m' ->
        MemoryManager.get_gpu_memory_pool m' = Returns gpu_pool ->
        GPUMemoryPool.is_gpu_memory_available gpu_pool = false
        /\ forall size alignment cudaMalloc,
             GPUMemoryPool.allocate_gpu HUSHELL_HAS_CUDA gpu_pool size alignment cudaMalloc
             = (nullptr, gpu_pool)).
Proof.
  unfold MemoryManager.force_gc, MemoryManager.compact_allocator.
  destruct (MemoryManager.allocator_ m) as [a|] eqn:Hal; simpl.
  - destruct (compact_cases a) as [[Hempty Hc]|(free & a' & Hc & _)]; rewrite Hc; simpl.
    + split; [split; eauto | split; [discriminate | discriminate]].
    + split; [split; [discriminate|] | split; [discriminate|]].
      * intros (a0 & [= <-] & Hempty). unfold Memory.compact in Hc.
        rewrite Hempty in Hc. discriminate.
      * intros m' g [= <-]. unfold MemoryManager.get_gpu_memory_pool. simpl.
        destruct (MemoryManager.gpu_pool_ m) as [g0|]; simpl; [|discriminate].
        intros [= <-]. pose proof (cleanup_off g0) as Hoff.
        split; [exact Hoff|]. intros size alignment r.
        unfold GPUMemoryPool.allocate_gpu. now rewrite Hoff.
  - split; [split; [discriminate | intros (a0 & Ha0 & _); discriminate]|].
    split; [discriminate|].
    intros m' g [= <-]. unfold MemoryManager.get_gpu_memory_pool. simpl.
    destruct (MemoryManager.gpu_pool_ m) as [g0|]; simpl; [|discriminate].
    intros [= <-]. pose proof (cleanup_off g0) as Hoff.
    split; [exact Hoff|]. intros size alignment r.
    unfold GPUMemoryPool.allocate_gpu. now rewrite Hoff.
Qed.

(** X29. [shutdown] of an initialised manager has undefined behaviour while
    the mapper still has a mapping registered (its destructor runs); when
    it returns, the three accessors throw, the stored configuration is
    still there, and a second [shutdown] does nothing. *)
Theorem shutdown_destroys_the_mapper m :
  MemoryManager.initialized_ m = true ->
  (forall mapper addr size,
     MemoryManager.memory_mapper_ m = Some mapper ->
     MemoryMapper.mutex_ mapper = false ->
     addr <> nullptr -> MemoryMapper.mapped_regions_ mapper !! addr = Some size ->
     MemoryManager.shutdown m = Undefined)
  /\ (forall m',
        MemoryManager.shutdown m = Returns m' ->
        MemoryManager.get_allocator m'
        = Throws (runtime_error "High performance allocator not initialized")
        /\ MemoryManager.get_gpu_memory_pool m'
           = Throws (runtime_error "GPU memory pool not initialized")
        /\ MemoryManager.get_memory_mapper m'
           = Throws (runtime_error "Memory mapper not initialized")
        /\ MemoryManager.get_config m' = MemoryManager.get_config m
        /\ MemoryManager.shutdown m' = Returns m').
Proof.
  intros Hin. unfold MemoryManager.shutdown at 1 2. rewrite Hin. simpl. split.
  - intros mapper addr size -> Hfree Hne Hlk. unfold MemoryManager.destroy_mapper.
    rewrite (dtor_cases mapper Hfree).
    destruct (forallb _ _) eqn:Hall; [|reflexivity]. exfalso.
    rewrite forallb_forall in Hall.
    assert (Hin' : In (addr, size) (map_to_list (MemoryMapper.mapped_regions_ mapper)))
      by now apply list_elem_of_In, elem_of_map_to_list.
    specialize (Hall _ Hin'). simpl in Hall. lia.
  - intros m'. destruct (MemoryManager.destroy_mapper _) as [[]| |]; simpl; try discriminate.
    intros [= <-]. repeat split.
Qed.

End MemoryManagerFacts.

Lemma initialize_twice_keeps_the_first_witness :
  let stoull := fun _ : string => inl "stoull" : string + Z in
  let m := MemoryManager.instance (AnyPool:=unit) in
  exists m',
    MemoryManager.initialize false stoull m ∅ None 65536 = Returns (ResultVoid.success, m')
    /\ ResultVoid.is_success ResultVoid.success = true
    /\ MemoryManager.initialize false stoull m' {[ "allocator_pool_size_mb" := "1" ]} None 4096
       = Returns (ResultVoid.success, m').
Proof.
  intros stoull m. eexists.
  assert (H1 : MemoryManager.initialize false stoull m ∅ None 65536
               = Returns (ResultVoid.success, _)) by reflexivity.
  assert (H2 : ResultVoid.is_success ResultVoid.success = true) by reflexivity.
  split; [exact H1 | split; [exact H2|]].
  exact (initialize_twice_keeps_the_first false stoull m ∅
           {[ "allocator_pool_size_mb" := "1" ]} None None 65536 4096 _ _ H1 H2).
Defined.

Lemma failed_initialize_leaves_manager_half_set_up_witness :
  let stoull := fun _ : string => inl "stoull" : string + Z in
  let m := MemoryManager.instance (AnyPool:=unit) in
  let config : gmap string string := {[ "allocator_pool_size_mb" := "lots" ]} in
  MemoryManager.initialized_ m = false
  /\ config !! "allocator_pool_size_mb" = Some "lots"
  /\ stoull "lots" = inl "stoull"
  /\ exists r m',
       MemoryManager.initialize false stoull m config None 65536 = Returns (r, m')
       /\ ResultVoid.error_message r = "stoull"
       /\ MemoryManager.shutdown m' = Returns m'.
Proof.
  intros stoull m config.
  assert (H1 : MemoryManager.initialized_ m = false) by reflexivity.
  assert (H2 : MemoryManager.memory_mapper_ m = None) by reflexivity.
  assert (H3 : MemoryManager.allocator_ m = None) by reflexivity.
  assert (H4 : config !! "allocator_pool_size_mb" = Some "lots") by apply lookup_singleton_eq.
  assert (H5 : stoull "lots" = inl "stoull") by reflexivity.
  split; [exact H1 | split; [exact H4 | split; [exact H5|]]].
  destruct (failed_initialize_leaves_manager_half_set_up false stoull m config None 65536
              "lots" "stoull" H1 H2 H3 H4 H5)
    as (r & m' & Hi & _ & _ & Hmsg & _ & _ & _ & _ & Hsd).
  exists r, m'. split; [exact Hi | split; [exact Hmsg | exact Hsd]].
Defined.

Lemma get_allocator_throws_iff_not_initialized_witness :
  let stoull := fun _ : string => inl "stoull" : string + Z in
  let calls := [MemoryManager.call_initialize ∅ None 65536;
                MemoryManager.call_on_allocator (Memory.call_allocate 100 8);
                MemoryManager.call_shutdown] in
  exists m,
    MemoryManager.manager_run false stoull (MemoryManager.instance (AnyPool:=unit)) calls
    = Returns m
    /\ (MemoryManager.get_allocator m
        = Throws (runtime_error "High performance allocator not initialized")
        <-> MemoryManager.initialized_ m = false).
Proof.
  intros stoull calls. eexists.
  assert (H : MemoryManager.manager_run false stoull (MemoryManager.instance (AnyPool:=unit)) calls
              = Returns _) by reflexivity.
  split; [exact H|].
  exact (proj1 (get_allocator_throws_iff_not_initialized false stoull calls _ H)).
Defined.

Lemma shutdown_destroys_the_mapper_witness :
  let mapper := {| MemoryMapper.mapped_regions_ := {[ 4096 := 100 ]};
                   MemoryMapper.mutex_ := false |} in
  let m := {| MemoryManager.object_pools_ := (∅ : gmap string unit);
              MemoryManager.gpu_pool_ := Some (GPUMemoryPool.Impl_ctor false None);
              MemoryManager.memory_mapper_ := Some mapper;
              MemoryManager.allocator_ := Some (Memory.Impl_ctor 1024 65536);
              MemoryManager.initialized_ := true;
              MemoryManager.config_ := ∅ |} in
  MemoryManager.initialized_ m = true /\ MemoryManager.shutdown m = Undefined.
Proof.
  intros mapper m. assert (H : MemoryManager.initialized_ m = true) by reflexivity.
  split; [exact H|].
  apply (proj1 (shutdown_destroys_the_mapper m H) mapper 4096 100);
    [reflexivity | reflexivity | discriminate | apply lookup_singleton_eq].
Defined.

(** ** [ManagedMemoryBlock<T>] *)

Section ManagedMemoryBlockFacts.

Context {AnyPool : Type} (sizeof_T alignof_T : Z).
Implicit Types m : MemoryManager.MemoryManager AnyPool.

Local Abbreviation ManagedMemoryBlock_ctor :=
  (MemoryManager.ManagedMemoryBlock_ctor sizeof_T alignof_T).

(** X30. Constructing a block and destroying it: the constructor throws
    [std::bad_alloc] exactly when [allocate] finds no block, and otherwise
    holds a non-null pointer recorded with the rounded size of
    [count * sizeof(T)] (computed on [size_t]); the destructor then always
    returns, erases that record and brings [get_allocated_size()] back to
    what it was.  The destructor of a moved-from block touches nothing. *)
Theorem managed_block_construct_destroy m (allocator : Memory.Impl) (count : Z) :
  MemoryManager.allocator_ m = Some allocator ->
  Memory.reachable allocator ->
  let bytes := wrap (count * sizeof_T) in
  match ManagedMemoryBlock_ctor m count with
  | inl t =>
      t = MemoryManager.std_bad_alloc
      /\ Memory.allocate allocator bytes alignof_T = (nullptr, allocator)
  | inr (b, m1) =>
      MemoryManager.get b <> nullptr
      /\ MemoryManager.size b = bytes
      /\ (exists a1,
            Memory.allocate allocator bytes alignof_T = (MemoryManager.get b, a1)
            /\ m1 = MemoryManager.with_allocator m a1
            /\ Memory.allocated_blocks_ a1 !! MemoryManager.get b
               = Some (Memory.aligned_size bytes alignof_T))
      /\ (exists a2,
            MemoryManager.ManagedMemoryBlock_dtor b m1
            = Returns (MemoryManager.with_allocator m a2)
            /\ Memory.allocated_blocks_ a2
               = delete (MemoryManager.get b) (Memory.allocated_blocks_ allocator)
            /\ Memory.get_allocated_size a2 = Memory.get_allocated_size allocator)
      /\ (forall m',
            MemoryManager.ManagedMemoryBlock_dtor
              (snd (MemoryManager.ManagedMemoryBlock_move b)) m' = Returns m')
  end.
Proof.
  intros Hal Hreach bytes.
  pose proof (reachable_well_formed _ Hreach) as Hwf.
  pose proof (reachable_counters_ok _ Hreach) as (_ & Hlive & Hfree & Hsum & _).
  unfold MemoryManager.ManagedMemoryBlock_ctor. rewrite Hal. fold bytes.
  destruct (Memory.first_fit (Memory.aligned_size bytes alignof_T)
              (Memory.free_blocks_ allocator) 0) as [[i it]|] eqn:Hfit.
  2:{ rewrite (allocate_miss _ _ _ Hfit). simpl. now split. }
  destruct (first_fit_lookup _ _ _ _ Hfit) as (Hit & Hsz).
  destruct (allocate_hit allocator bytes alignof_T i it Hfit) as (Hp & _ & Ha & _).
  destruct (allocate_hit_counters allocator bytes alignof_T i it Hfit) as (Has & _).
  destruct Hwf as (Hps & Hfr & Hlv).
  pose proof (Forall_lookup_1 _ _ _ _ Hfr Hit) as [Hptr _].
  destruct (Memory.allocate allocator bytes alignof_T) as [p a1] eqn:Halloc.
  simpl in Hp, Ha, Has. subst p.
  destruct (Z.eqb_spec (Memory.ptr it) nullptr) as [E|Hne]; [unfold nullptr in E; lia|].
  unfold MemoryManager.get, MemoryManager.size. simpl.
  split; [exact Hne | split; [reflexivity | split; [|split]]].
  - exists a1. split; [reflexivity | split; [reflexivity|]].
    rewrite Ha. apply lookup_insert_eq.
  - unfold MemoryManager.ManagedMemoryBlock_dtor. simpl.
    destruct (Z.eqb_spec (Memory.ptr it) nullptr) as [|_]; [contradiction|].
    assert (Hlk : Memory.allocated_blocks_ a1 !! Memory.ptr it
                  = Some (Memory.aligned_size bytes alignof_T))
      by (rewrite Ha; apply lookup_insert_eq).
    destruct (deallocate_cases a1 (Memory.ptr it) bytes)
      as [[[?|Hnone] _]|(bs & free & _ & Hbs & _ & _ & _ & a2 & Hd & _ & Ha2 & _)];
      [contradiction | congruence |].
    rewrite Hd. simpl. exists a2. split; [reflexivity|].
    split; [rewrite Ha2, Ha; apply delete_insert_eq|].
    destruct (deallocate_hit_counters a1 a2 (Memory.ptr it) bytes bs Hne Hbs Hd) as (Hs2 & _).
    assert (bs = Memory.aligned_size bytes alignof_T) by congruence. subst bs.
    unfold Memory.get_allocated_size. rewrite Hs2, Has. apply wrap_add_sub.
    unfold Memory.fits_size_t in *. lia.
  - intros m'. reflexivity.
Qed.

End ManagedMemoryBlockFacts.

Lemma managed_block_construct_destroy_witness :
  let allocator := Memory.Impl_ctor 1024 65536 in
  let m := MemoryManager.with_allocator (MemoryManager.instance (AnyPool:=unit)) allocator in
  MemoryManager.allocator_ m = Some allocator
  /\ Memory.reachable allocator
  /\ match MemoryManager.ManagedMemoryBlock_ctor 8 8 m 4 with
     | inl _ => False
     | inr (b, _) => MemoryManager.get b <> nullptr /\ MemoryManager.size b = 32
     end.
Proof.
  intros allocator m.
  assert (H1 : MemoryManager.allocator_ m = Some allocator) by reflexivity.
  assert (H2 : Memory.reachable allocator).
  { apply (alloc_run_reachable 1024 65536 []);
      [unfold Memory.fits_size_t; lia | lia | constructor | reflexivity]. }
  split; [exact H1 | split; [exact H2|]].
  pose proof (managed_block_construct_destroy 8 8 m allocator 4 H1 H2) as Hw.
  destruct (MemoryManager.ManagedMemoryBlock_ctor 8 8 m 4) as [t|[b m1]] eqn:E.
  - vm_compute in E. discriminate.
  - destruct Hw as (Hg & Hs & _). split; [exact Hg | exact Hs].
Defined.
